(** * The UMAP layout optimiser ([umap/layouts.py]): a shallow embedding

    The epoch driver [optimize_layout_euclidean], the sequential and the
    thread-parallel Euclidean kernels, [apply_grad] and the kernel written
    with it, the Generic, Inverse and Aligned kernels with their drivers, and
    [optimize_layout_generic_original] are written as state-passing programs
    over an explicit store.

    Conventions of the embedding.
    - A float is an exact rational in canonical form ([Qc]), so that "the
      same value" is Leibniz equality.  Rounding, infinities and NaN are not
      represented; a division by zero yields [0] (the convention of [Qc]).
    - numpy arrays live in a store and are passed by reference (a [loc]):
      [head_embedding] and [tail_embedding] may name the same array.
    - A Python exception aborts the computation; the store reached at the
      abort is kept in the result, so what had been written stays visible.
    - [pow], [exp], [log], [sqrt], the random generator [tau_rand_int] and
      the output metric are parameters of the development. *)

From Stdlib Require Import QArith Qcanon ZArith List Lia Lqa String.
From stdpp Require Import base decidable option list numbers gmap strings pretty.

Local Open Scope Qc_scope.

(** ** Floats *)

Abbreviation float := Qc.

Definition Qc_of_nat (n : nat) : Qc := Qc_of_Z (Z.of_nat n).

(** [int(x)]: truncation towards zero. *)
Definition Qc_trunc (x : Qc) : Z := Z.quot (Qnum (this x)) (Z.pos (Qden (this x))).

Definition four : Qc := Qc_of_Z 4.
Definition c_0_001 : Qc := Q2Qc (1 # 1000).
Definition c_1e_6 : Qc := Q2Qc (1 # 1000000).
Definition c_1e_8 : Qc := Q2Qc (1 # 100000000).

(** [x > y] as the source writes it. *)
Definition fgt (x y : Qc) : bool := bool_decide (y < x).
Definition fle (x y : Qc) : bool := bool_decide (x ≤ y).
Definition feq (x y : Qc) : bool := bool_decide (x = y).

(** ** Numeric primitives *)

Definition clip (val : Qc) : Qc :=
  if fgt val four then four
  else if fgt (- four) val then - four
  else val.

Abbreviation row := (list Qc).
Abbreviation matrix := (list (list Qc)).

(** [rdist]: the loop [for d in range(dim): diff = x[d]-y[d]; result += diff*diff]. *)
Fixpoint rdist_from (result : Qc) (x y : row) : Qc :=
  match x, y with
  | xd :: x', yd :: y' =>
      let diff := xd - yd in rdist_from (result + diff * diff) x' y'
  | _, _ => result
  end.

Definition rdist (x y : row) : Qc := rdist_from 0 x y.

(** ** Exceptions, results and the state monad *)

Inductive exn :=
  | AssertionError | IndexError | NameError | TypeError | ValueError
  | ZeroDivisionError.

Inductive res (S A : Type) :=
  | Ok (a : A) (s : S)
  | Err (e : exn) (s : S).
Arguments Ok {S A} a s.
Arguments Err {S A} e s.

Definition M (S A : Type) := S -> res S A.

Definition ret {S A} (a : A) : M S A := fun s => Ok a s.
Definition raise {S A} (e : exn) : M S A := fun s => Err e s.
Definition bind {S A B} (m : M S A) (f : A -> M S B) : M S B :=
  fun s => match m s with
           | Ok a s' => f a s'
           | Err e s' => Err e s'
           end.
Definition get {S} : M S S := fun s => Ok s s.
Definition gets {S A} (f : S -> A) : M S A := fun s => Ok (f s) s.
Definition modify {S} (f : S -> S) : M S unit := fun s => Ok tt (f s).

Global Instance M_ret {S} : MRet (M S) := fun A => @ret S A.
Global Instance M_bind {S} : MBind (M S) := fun A B f m => @bind S A B m f.

(** A lookup that raises [IndexError] out of range. *)
Definition index {S A} (o : option A) : M S A :=
  match o with Some a => ret a | None => raise IndexError end.

Definition assert {S} (b : bool) : M S unit :=
  if b then ret tt else raise AssertionError.

Definition when {S} (b : bool) (m : M S unit) : M S unit :=
  if b then m else ret tt.

(** [for x in xs: body x]. *)
Fixpoint for_each {S A} (xs : list A) (body : A -> M S unit) : M S unit :=
  match xs with
  | [] => ret tt
  | x :: xs' => body x ;; for_each xs' body
  end.

(** [for i in range(n): body i]. *)
Definition for_range {S} (n : nat) (body : nat -> M S unit) : M S unit :=
  for_each (seq 0 n) body.

(** The state a result ends in, whether it returned or raised. *)
Definition final {S A} (r : res S A) : S :=
  match r with Ok _ s => s | Err _ s => s end.


(** ** The store *)

(** A reference to an array in the store. *)
Abbreviation loc := positive.

(** [arr[j]]: a view of row [j] of the array at [arr]; writing through the
    view writes the array. *)
Abbreviation view := (positive * nat)%type.

Definition read_view (h : gmap loc matrix) (v : view) : option row :=
  m ← h !! v.1; m !! v.2.

Definition write_view (h : gmap loc matrix) (v : view) (r : row) : gmap loc matrix :=
  alter (fun m => <[v.2 := r]> m) v.1 h.

Arguments read_view : simpl never.
Arguments write_view : simpl never.

(** Function objects supplied by the caller as constraint hooks.  A hook
    works in place on the arrays it is handed, which is rendered as
    returning their new contents. *)
Inductive pyfn :=
  | FnIdxGrad (f : nat -> row -> row -> row * row)  (* (idx, pt, grad) *)
  | FnGrad (f : row -> row -> row * row)            (* (pt, grad) *)
  | FnIdxPt (f : nat -> row -> row)                 (* (idx, pt) *)
  | FnPt (f : row -> row)                           (* (pt) *)
  | FnEmb (f : matrix -> matrix).                   (* (embedding) *)

(** What a run leaves behind besides the arrays: the lines printed, and a
    record of each entry into the epoch kernel with the epoch number and the
    learning rate it was given. *)
Inductive event :=
  | EvPrint (msg : string)
  | EvKernel (n : nat) (alpha : Qc).

(** ** What the module takes from outside

    The generator [umap.utils.tau_rand_int], numpy's seeded shuffle, the
    floating-point library functions and the output metric of the Generic
    and Inverse kernels are not part of [layouts.py]; the development is
    parametric in them. *)
Class Externals := {
  (** the caller-owned generator state, [rng_state] *)
  RS : Type;
  (** [tau_rand_int(rng_state)]: the state is advanced in place *)
  tau_rand_int : RS -> Z * RS;
  (** [rng_state[0]] *)
  rng_word0 : RS -> Z;
  (** [np.random.seed(s); np.random.shuffle(order)] *)
  np_shuffle : Z -> list nat -> list nat;
  fpow : Qc -> Qc -> Qc;
  fexp : Qc -> Qc;
  flog : Qc -> Qc;
  fsqrt : Qc -> Qc;
  (** [(point_a, point_b, *params) -> (distance, gradient)] *)
  output_metric : row -> row -> Qc * row;
}.

Section Layouts.
Context {ext : Externals}.

(** The state of a run.  [T] is the type of the schedule arrays: one float
    array per run for the Euclidean, Generic and Inverse kernels, a list of
    them (one per embedding) for the Aligned kernel. *)
Record state (T : Type) := mkState {
  heap : gmap loc matrix;   (* the embeddings *)
  eons : T;                 (* epoch_of_next_sample *)
  eonns : T;                (* epoch_of_next_negative_sample *)
  rng : RS;                 (* rng_state *)
  log : list event;
}.
Arguments mkState {T} _ _ _ _ _.
Arguments heap {T} _.
Arguments eons {T} _.
Arguments eonns {T} _.
Arguments rng {T} _.
Arguments log {T} _.

Section Access.
Context {T : Type}.

Definition set_heap (f : gmap loc matrix -> gmap loc matrix) (s : state T) : state T :=
  mkState (f (heap s)) (eons s) (eonns s) (rng s) (log s).
Definition set_eons (f : T -> T) (s : state T) : state T :=
  mkState (heap s) (f (eons s)) (eonns s) (rng s) (log s).
Definition set_eonns (f : T -> T) (s : state T) : state T :=
  mkState (heap s) (eons s) (f (eonns s)) (rng s) (log s).
Definition set_rng (r : RS) (s : state T) : state T :=
  mkState (heap s) (eons s) (eonns s) r (log s).
Definition emit (e : event) (s : state T) : state T :=
  mkState (heap s) (eons s) (eonns s) (rng s) (log s ++ [e]).

(** [arr[j]] *)
Definition mk_view (arr : loc) (j : nat) : M (state T) view :=
  s ← get;
  _ ← index (read_view (heap s) (arr, j));
  mret (arr, j).

Definition load (v : view) : M (state T) row :=
  s ← get; index (read_view (heap s) v).

Definition store (v : view) (r : row) : M (state T) unit :=
  modify (set_heap (fun h => write_view h v r)).

(** [v[d]] *)
Definition getc (v : view) (d : nat) : M (state T) Qc :=
  r ← load v; index (r !! d).

(** [v[d] = x] *)
Definition setc (v : view) (d : nat) (x : Qc) : M (state T) unit :=
  r ← load v;
  if bool_decide (d < length r)%nat then store v (<[d := x]> r)
  else raise IndexError.

(** [v[d] += x] *)
Definition add_at (v : view) (d : nat) (x : Qc) : M (state T) unit :=
  c ← getc v d; setc v d (c + x).

(** A scratch row of [n] entries filled by [for d in range(n): g[d] = f d]. *)
Fixpoint fill_from (ds : list nat) (f : nat -> M (state T) Qc) : M (state T) row :=
  match ds with
  | [] => mret []
  | d :: ds' => x ← f d; g ← fill_from ds' f; mret (x :: g)
  end.

Definition fill (n : nat) (f : nat -> M (state T) Qc) : M (state T) row :=
  fill_from (seq 0 n) f.

(** A scratch slice of [len] entries filled by
    [for d in range(n): g[d] = f d]: the right-hand side is evaluated, and
    the store [g[d] = ...] raises [IndexError] once [d] has reached [len]. *)
Fixpoint fill_slice_from (len : nat) (ds : list nat) (f : nat -> M (state T) Qc)
  : M (state T) row :=
  match ds with
  | [] => mret []
  | d :: ds' =>
      x ← f d;
      (if bool_decide (d < len)%nat then mret tt else raise IndexError);;
      g ← fill_slice_from len ds' f; mret (x :: g)
  end.

Definition fill_slice (len n : nat) (f : nat -> M (state T) Qc) : M (state T) row :=
  fill_slice_from len (seq 0 n) f.

(** The entry into an epoch kernel, recorded with the epoch number and the
    learning rate found among the arguments the kernel receives. *)
Definition enter (n : nat) (alpha : Qc) : M (state T) unit :=
  modify (emit (EvKernel n alpha)).

(** [print(...)] *)
Definition print (msg : string) : M (state T) unit := modify (emit (EvPrint msg)).

(** [tau_rand_int(rng_state)] *)
Definition next_random : M (state T) Z :=
  s ← get;
  let '(r, st) := tau_rand_int (rng s) in
  modify (set_rng st);; mret r.

(** *** Calling a hook that may be [None]

    The source guards each call by [if fn is not None]. *)

Definition call_idx_grad (fn : option pyfn) (idx : nat) (pt : view) (grad : row)
  : M (state T) row :=
  match fn with
  | None => mret grad
  | Some (FnIdxGrad f) =>
      p ← load pt;
      let '(p', g') := f idx p grad in
      store pt p';; mret g'
  | Some _ => raise TypeError
  end.

Definition call_grad (fn : option pyfn) (pt : view) (grad : row) : M (state T) row :=
  match fn with
  | None => mret grad
  | Some (FnGrad f) =>
      p ← load pt;
      let '(p', g') := f p grad in
      store pt p';; mret g'
  | Some _ => raise TypeError
  end.

Definition call_idx_pt (fn : option pyfn) (idx : nat) (pt : view) : M (state T) unit :=
  match fn with
  | None => mret tt
  | Some (FnIdxPt f) => p ← load pt; store pt (f idx p)
  | Some _ => raise TypeError
  end.

Definition call_pt (fn : option pyfn) (pt : view) : M (state T) unit :=
  match fn with
  | None => mret tt
  | Some (FnPt f) => p ← load pt; store pt (f p)
  | Some _ => raise TypeError
  end.

(** [k = tau_rand_int(rng_state) % n_vertices] *)
Definition draw_vertex (n_vertices : nat) : M (state T) nat :=
  r ← next_random;
  if bool_decide (n_vertices = 0%nat) then raise ZeroDivisionError
  else mret (Z.to_nat (r `mod` Z.of_nat n_vertices)).

(** [fn(embedding)] with no guard of its own: calling [None] is a
    [TypeError]. *)
Definition call_emb (fn : option pyfn) (arr : loc) : M (state T) unit :=
  match fn with
  | Some (FnEmb f) => modify (set_heap (fun h => alter f arr h))
  | _ => raise TypeError
  end.

End Access.

Abbreviation state1 := (state (list Qc)).

(** *** The schedule of one float array per run *)

(** [epoch_of_next_sample[i] += epochs_per_sample[i]] *)
Definition bump_sample (epochs_per_sample : list Qc) (i : nat) : M state1 unit :=
  s ← get;
  e ← index (eons s !! i);
  d ← index (epochs_per_sample !! i);
  modify (set_eons (fun l => <[i := e + d]> l)).

(** [int((n - epoch_of_next_negative_sample[i]) / epochs_per_negative_sample[i])] *)
Definition neg_count (n : nat) (epochs_per_negative_sample : list Qc) (i : nat)
  : M state1 Z :=
  s ← get;
  e ← index (eonns s !! i);
  d ← index (epochs_per_negative_sample !! i);
  mret (Qc_trunc ((Qc_of_nat n - e) / d)).

(** [epoch_of_next_negative_sample[i] += n_neg_samples * epochs_per_negative_sample[i]] *)
Definition bump_negative (epochs_per_negative_sample : list Qc) (i : nat)
    (n_neg_samples : Z) : M state1 unit :=
  s ← get;
  e ← index (eonns s !! i);
  d ← index (epochs_per_negative_sample !! i);
  modify (set_eonns (fun l => <[i := e + Qc_of_Z n_neg_samples * d]> l)).

(** ** The Euclidean kernels *)

Record kparams := mkK {
  head_embedding : loc;
  tail_embedding : loc;
  head : list nat;
  tail : list nat;
  n_vertices : nat;
  epochs_per_sample : list Qc;
  a : Qc;
  b : Qc;
  gamma : Qc;
  dim : nat;
  move_other : bool;
  alpha : Qc;
  epochs_per_negative_sample : list Qc;
  n : nat;
  wrap_idx_pt : option pyfn;
  wrap_idx_grad : option pyfn;
  wrap_pt : option pyfn;
  wrap_grad : option pyfn;
  densmap_flag : bool;
  dens_phi_sum : list Qc;
  dens_re_sum : list Qc;
  dens_re_cov : Qc;
  dens_re_std : Qc;
  dens_re_mean : Qc;
  dens_lambda : Qc;
  dens_R : list Qc;
  dens_mu : list Qc;
  dens_mu_tot : Qc;
}.

Definition two : Qc := Qc_of_Z 2.

(** The attractive coefficient of a firing edge. *)
Definition attract_coeff (k : kparams) (dist_squared : Qc) : Qc :=
  if fgt dist_squared 0 then
    (- two * a k * b k * fpow dist_squared (b k - 1))
      / (a k * fpow dist_squared (b k) + 1)
  else 0.

(** The densMAP correction of edge [i] between vertices [j] and [kk]. *)
Definition grad_cor_coeff (k : kparams) (i j kk : nat) (dist_squared : Qc)
  : M state1 Qc :=
  let phi := 1 / (1 + a k * fpow dist_squared (b k)) in
  let dphi_term :=
    a k * b k * fpow dist_squared (b k - 1) / (1 + a k * fpow dist_squared (b k)) in
  phi_sum_k ← index (dens_phi_sum k !! kk);
  phi_sum_j ← index (dens_phi_sum k !! j);
  let q_jk := phi / phi_sum_k in
  let q_kj := phi / phi_sum_j in
  re_sum_k ← index (dens_re_sum k !! kk);
  let drk := q_jk * ((1 - b k * (1 - phi)) / fexp re_sum_k + dphi_term) in
  re_sum_j ← index (dens_re_sum k !! j);
  let drj := q_kj * ((1 - b k * (1 - phi)) / fexp re_sum_j + dphi_term) in
  let re_std_sq := dens_re_std k * dens_re_std k in
  R_k ← index (dens_R k !! kk);
  let weight_k := R_k - dens_re_cov k * (re_sum_k - dens_re_mean k) / re_std_sq in
  R_j ← index (dens_R k !! j);
  let weight_j := R_j - dens_re_cov k * (re_sum_j - dens_re_mean k) / re_std_sq in
  mu_i ← index (dens_mu k !! i);
  mret (dens_lambda k * dens_mu_tot k * (weight_k * drk + weight_j * drj)
          / (mu_i * dens_re_std k) / Qc_of_nat (n_vertices k)).

Definition is_not_None {A} (o : option A) : bool :=
  match o with Some _ => true | None => false end.

(** [_grad_mods = wrap_idx_grad is not None or wrap_grad is not None] *)
Definition grad_mods (k : kparams) : bool :=
  is_not_None (wrap_idx_grad k) || is_not_None (wrap_grad k).

(** [for d in range(dim): pt[d] += alpha * clip(grad[d])] *)
Definition apply_clipped (k : kparams) (pt : view) (grad : row) : M state1 unit :=
  for_range (dim k) (fun d =>
    g ← index (grad !! d);
    add_at pt d (alpha k * clip g)).

(** The update of a firing edge in the sequential kernel: [current] is
    pulled towards [other], and with [move_other] the tail point is pushed
    the opposite way.  The scratch arrays [grad_d] and [other_grad] are
    [np.empty(dim)]. *)
Definition attract (k : kparams) (j kk : nat) (current other : view) (grad_coeff : Qc)
  : M state1 unit :=
  if move_other k then
    (if grad_mods k then
       grad_d ← fill (dim k) (fun d =>
         c ← getc current d; o ← getc other d;
         mret (grad_coeff * (c - o)));
       let other_grad := (fun g => - g) <$> grad_d in
       grad_d ← call_idx_grad (wrap_idx_grad k) j current grad_d;
       other_grad ← call_idx_grad (wrap_idx_grad k) kk other other_grad;
       grad_d ← call_grad (wrap_grad k) current grad_d;
       other_grad ← call_grad (wrap_grad k) other other_grad;
       for_range (dim k) (fun d =>
         g ← index (grad_d !! d);
         add_at current d (alpha k * clip g);;
         og ← index (other_grad !! d);
         add_at other d (alpha k * clip og))
     else
       for_range (dim k) (fun d =>
         c ← getc current d; o ← getc other d;
         let delta := alpha k * clip (grad_coeff * (c - o)) in
         add_at current d delta;;
         add_at other d (- delta)));;
    call_idx_pt (wrap_idx_pt k) j current;;
    call_idx_pt (wrap_idx_pt k) kk other;;
    call_pt (wrap_pt k) current;;
    call_pt (wrap_pt k) other
  else
    (if grad_mods k then
       grad_d ← fill (dim k) (fun d =>
         c ← getc current d; o ← getc other d;
         mret (grad_coeff * (c - o)));
       grad_d ← call_idx_grad (wrap_idx_grad k) j current grad_d;
       grad_d ← call_grad (wrap_grad k) current grad_d;
       apply_clipped k current grad_d
     else
       for_range (dim k) (fun d =>
         c ← getc current d; o ← getc other d;
         add_at current d (alpha k * clip (grad_coeff * (c - o)))));;
    call_idx_pt (wrap_idx_pt k) j current;;
    call_pt (wrap_pt k) current.

(** The push a negative sample of the sequential kernel gives to [current]
    once its coefficient is known.  The branch of the source that would also
    move the sampled point is under [if False:] and never runs, whatever
    [move_other] is; what is left writes through [current] only. *)
Definition repel (k : kparams) (j : nat) (current other : view) (grad_coeff : Qc)
  : M state1 unit :=
  (if grad_mods k then
     grad_d ←
       (if fgt grad_coeff 0
        then fill (dim k) (fun d =>
               c ← getc current d; o ← getc other d;
               mret (grad_coeff * (c - o)))
        else fill (dim k) (fun _ => mret four));
     grad_d ← call_idx_grad (wrap_idx_grad k) j current grad_d;
     grad_d ← call_grad (wrap_grad k) current grad_d;
     apply_clipped k current grad_d
   else
     if fgt grad_coeff 0
     then for_range (dim k) (fun d =>
            c ← getc current d; o ← getc other d;
            add_at current d (alpha k * clip (grad_coeff * (c - o))))
     else for_range (dim k) (fun d => add_at current d (alpha k * four)));;
  call_idx_pt (wrap_idx_pt k) j current;;
  call_pt (wrap_pt k) current.

(** One negative sample of the edge with head [j]: the body of
    [for p in range(n_neg_samples)]. *)
Definition negative_sample (k : kparams) (j : nat) (current : view) : M state1 unit :=
  kk ← draw_vertex (n_vertices k);
  other ← mk_view (tail_embedding k) kk;
  cur ← load current; oth ← load other;
  let dist_squared := rdist cur oth in
  if fgt dist_squared 0 then
    repel k j current other
      ((two * gamma k * b k)
         / ((c_0_001 + dist_squared) * (a k * fpow dist_squared (b k) + 1)))
  else if bool_decide (j = kk) then
    mret tt                                   (* continue *)
  else
    repel k j current other 0.

(** The coefficient of the positive update, with the densMAP term folded in
    when the flag is set. *)
Definition positive_coeff (k : kparams) (i j kk : nat) (dist_squared : Qc) : M state1 Qc :=
  let grad_coeff := attract_coeff k dist_squared in
  if densmap_flag k then
    c ← grad_cor_coeff k i j kk dist_squared;
    mret (grad_coeff + two * c)
  else mret grad_coeff.

(** *** The sequential kernel *)

(** The body of [for i in numba.prange(epochs_per_sample.shape[0])] in
    [_optimize_layout_euclidean_single_epoch]. *)
Definition edge_seq (k : kparams) (i : nat) : M state1 unit :=
  s ← get;
  e_i ← index (eons s !! i);
  if fle e_i (Qc_of_nat (n k)) then
    j ← index (head k !! i);
    kk ← index (tail k !! i);
    current ← mk_view (head_embedding k) j;
    other ← mk_view (tail_embedding k) kk;
    cur ← load current; oth ← load other;
    let dist_squared := rdist cur oth in
    grad_coeff ← positive_coeff k i j kk dist_squared;
    attract k j kk current other grad_coeff;;
    (* inside [if move_other:], after the hooks:
       [epoch_of_next_sample[k] += epochs_per_sample[k]], [k] the tail vertex *)
    (if move_other k then bump_sample (epochs_per_sample k) kk else mret tt);;
    bump_sample (epochs_per_sample k) i;;
    n_neg_samples ← neg_count (n k) (epochs_per_negative_sample k) i;
    if bool_decide (n_neg_samples ≤ 0)%Z then
      mret tt                                 (* continue *)
    else
      for_range (Z.to_nat n_neg_samples) (fun _ => negative_sample k j current);;
      bump_negative (epochs_per_negative_sample k) i n_neg_samples
  else mret tt.

Definition deref (h : gmap loc matrix) (l : loc) : matrix := default [] (h !! l).

(** [arr.shape] of a two-dimensional array. *)
Definition shape2 (m : matrix) : nat * nat := (length m, length (hd [] m)).

(** [np.all(x == y)] for arrays of one shape. *)
Definition np_all_eq (x y : matrix) : bool :=
  forallb (fun rr => forallb (fun xy => feq xy.1 xy.2) (zip rr.1 rr.2)) (zip x y).

(** The two assertions that open both Euclidean kernels:
    [assert head_embedding.shape == tail_embedding.shape] and
    [assert np.all(head_embedding == tail_embedding)]. *)
Definition assert_same_embedding (k : kparams) : M state1 unit :=
  s ← get;
  let hm := deref (heap s) (head_embedding k) in
  let tm := deref (heap s) (tail_embedding k) in
  assert (bool_decide (shape2 hm = shape2 tm));;
  assert (np_all_eq hm tm).

Definition _optimize_layout_euclidean_single_epoch (k : kparams) : M state1 unit :=
  assert_same_embedding k;;
  for_range (length (epochs_per_sample k)) (edge_seq k).

(** *** The parallel kernel *)

(** [dimx = (dim+1024 + 1024-1) // 1024]: the width of the per-thread
    scratch arrays [tmp1] and [tmp2], of shape [(nthr, dimx)]. *)
Definition dimx (dim : nat) : nat := (dim + 1024 + 1024 - 1) / 1024.

(** The length of [grad_d = tmp1[thr, 0:dim]] and of
    [other_grad = tmp2[thr, 0:dim]]: a slice ends where the row ends. *)
Definition scratch_len (dim : nat) : nat := dim `min` dimx dim.

(** The update of a firing edge in the parallel kernel.  With a gradient
    hook the gradient is first written to the scratch slice [grad_d]. *)
Definition attract_para (k : kparams) (j kk : nat) (current other : view)
    (grad_coeff : Qc) : M state1 unit :=
  if move_other k then
    (if grad_mods k then
       grad_d ← fill_slice (scratch_len (dim k)) (dim k) (fun d =>
         c ← getc current d; o ← getc other d;
         mret (grad_coeff * (c - o)));
       let other_grad := (fun g => - g) <$> grad_d in
       grad_d ← call_idx_grad (wrap_idx_grad k) j current grad_d;
       other_grad ← call_idx_grad (wrap_idx_grad k) kk other other_grad;
       grad_d ← call_grad (wrap_grad k) current grad_d;
       other_grad ← call_grad (wrap_grad k) other other_grad;
       for_range (dim k) (fun d =>
         g ← index (grad_d !! d);
         add_at current d (alpha k * clip g);;
         og ← index (other_grad !! d);
         add_at other d (alpha k * clip og))
     else
       for_range (dim k) (fun d =>
         c ← getc current d; o ← getc other d;
         let delta := alpha k * clip (grad_coeff * (c - o)) in
         add_at current d delta;;
         add_at other d (- delta)));;
    call_idx_pt (wrap_idx_pt k) j current;;
    call_idx_pt (wrap_idx_pt k) kk other;;
    call_pt (wrap_pt k) current;;
    call_pt (wrap_pt k) other
  else
    (if grad_mods k then
       grad_d ← fill_slice (scratch_len (dim k)) (dim k) (fun d =>
         c ← getc current d; o ← getc other d;
         mret (grad_coeff * (c - o)));
       grad_d ← call_idx_grad (wrap_idx_grad k) j current grad_d;
       grad_d ← call_grad (wrap_grad k) current grad_d;
       apply_clipped k current grad_d
     else
       for_range (dim k) (fun d =>
         c ← getc current d; o ← getc other d;
         add_at current d (alpha k * clip (grad_coeff * (c - o)))));;
    call_idx_pt (wrap_idx_pt k) j current;;
    call_pt (wrap_pt k) current.

(** The push of a negative sample in the parallel kernel; the branch under
    [if False:] never runs.  [grad_d] is the scratch slice the positive
    update left in scope. *)
Definition repel_para (k : kparams) (j : nat) (current other : view) (grad_coeff : Qc)
  : M state1 unit :=
  (if grad_mods k then
     grad_d ←
       (if fgt grad_coeff 0
        then fill_slice (scratch_len (dim k)) (dim k) (fun d =>
               c ← getc current d; o ← getc other d;
               mret (grad_coeff * (c - o)))
        else fill_slice (scratch_len (dim k)) (dim k) (fun _ => mret four));
     grad_d ← call_idx_grad (wrap_idx_grad k) j current grad_d;
     grad_d ← call_grad (wrap_grad k) current grad_d;
     apply_clipped k current grad_d
   else
     if fgt grad_coeff 0
     then for_range (dim k) (fun d =>
            c ← getc current d; o ← getc other d;
            add_at current d (alpha k * clip (grad_coeff * (c - o))))
     else for_range (dim k) (fun d => add_at current d (alpha k * four)));;
  call_idx_pt (wrap_idx_pt k) j current;;
  call_pt (wrap_pt k) current.

(** The body of [for p in range(n_neg_samples)] in the parallel kernel. *)
Definition negative_sample_para (k : kparams) (j : nat) (current : view)
  : M state1 unit :=
  kk ← draw_vertex (n_vertices k);
  other ← mk_view (tail_embedding k) kk;
  cur ← load current; oth ← load other;
  let dist_squared := rdist cur oth in
  if fgt dist_squared 0 then
    repel_para k j current other
      ((two * gamma k * b k)
         / ((c_0_001 + dist_squared) * (a k * fpow dist_squared (b k) + 1)))
  else if bool_decide (j = kk) then
    mret tt                                   (* continue *)
  else
    repel_para k j current other 0.

(** The body of the [prange] loop of
    [_optimize_layout_euclidean_single_epoch_para].  The thread that runs an
    iteration writes its gradients to its own rows [tmp1[thr]], [tmp2[thr]]
    of the scratch arrays. *)
Definition edge_para (k : kparams) (i : nat) : M state1 unit :=
  s ← get;
  e_i ← index (eons s !! i);
  if fgt e_i (Qc_of_nat (n k)) then
    mret tt                                   (* continue *)
  else
    j ← index (head k !! i);
    kk ← index (tail k !! i);
    current ← mk_view (head_embedding k) j;
    other ← mk_view (tail_embedding k) kk;
    cur ← load current; oth ← load other;
    let dist_squared := rdist cur oth in
    grad_coeff ← positive_coeff k i j kk dist_squared;
    attract_para k j kk current other grad_coeff;;
    bump_sample (epochs_per_sample k) i;;
    n_neg_samples ← neg_count (n k) (epochs_per_negative_sample k) i;
    if bool_decide (n_neg_samples ≤ 0)%Z then
      mret tt                                 (* continue *)
    else
      for_range (Z.to_nat n_neg_samples) (fun _ => negative_sample_para k j current);;
      bump_negative (epochs_per_negative_sample k) i n_neg_samples.

(** The iterations of the [prange] loop are run one after the other in the
    order [order], some arrangement of [range(n_edges)] chosen by the thread
    scheduler; writes of two threads that interleave inside one iteration are
    not represented. *)
Definition _optimize_layout_euclidean_single_epoch_para
    (order : list nat) (k : kparams) : M state1 unit :=
  assert_same_embedding k;;
  for_each order (edge_para k).
(** *** [apply_grad] and the kernel written with it *)

(** [apply_grad(idx, pt, alpha, grad, fn_idx_grad, fn_grad, fn_idx_pt, fn_pt)]:
    the gradient hooks, the step (clipped only if a gradient hook is there),
    the point hooks.  The loops run over [range(pt.shape[0])]. *)
Definition apply_grad (idx : nat) (pt : view) (alpha : Qc) (grad : row)
    (fn_idx_grad fn_grad fn_idx_pt fn_pt : option pyfn) : M state1 unit :=
  grad ← call_idx_grad fn_idx_grad idx pt grad;
  grad ← call_grad fn_grad pt grad;
  let _doclip := is_not_None fn_idx_grad || is_not_None fn_grad in
  p ← load pt;
  (if _doclip then
     for_range (length p) (fun d =>
       g ← index (grad !! d);
       add_at pt d (alpha * clip g))
   else
     for_range (length p) (fun d =>
       g ← index (grad !! d);
       add_at pt d (alpha * g)));;
  call_idx_pt fn_idx_pt idx pt;;
  call_pt fn_pt pt.

(** One negative sample in [_optimize_layout_euclidean_single_epoch_applygrad]:
    here [move_other] does move the sampled point. *)
Definition negative_sample_applygrad (k : kparams) (j : nat) (current : view)
  : M state1 unit :=
  kk ← draw_vertex (n_vertices k);
  other ← mk_view (tail_embedding k) kk;
  cur ← load current; oth ← load other;
  let dist_squared := rdist cur oth in
  let push (grad_coeff : Qc) : M state1 unit :=
    grad_d ←
      (if fgt grad_coeff 0
       then fill (dim k) (fun d =>
              c ← getc current d; o ← getc other d;
              mret (clip (grad_coeff * (c - o))))
       else fill (dim k) (fun _ => mret four));
    let other_grad := (fun g => - g) <$> grad_d in
    apply_grad j current (alpha k) grad_d
      (wrap_idx_grad k) (wrap_grad k) (wrap_idx_pt k) (wrap_pt k);;
    if move_other k then
      apply_grad kk other (alpha k) other_grad
        (wrap_idx_grad k) (wrap_grad k) (wrap_idx_pt k) (wrap_pt k)
    else mret tt in
  if fgt dist_squared 0 then
    push ((two * gamma k * b k)
            / ((c_0_001 + dist_squared) * (a k * fpow dist_squared (b k) + 1)))
  else if bool_decide (j = kk) then
    mret tt                                   (* continue *)
  else push 0.

(** The body of the edge loop of
    [_optimize_layout_euclidean_single_epoch_applygrad]. *)
Definition edge_applygrad (k : kparams) (i : nat) : M state1 unit :=
  s ← get;
  e_i ← index (eons s !! i);
  if fle e_i (Qc_of_nat (n k)) then
    j ← index (head k !! i);
    kk ← index (tail k !! i);
    current ← mk_view (head_embedding k) j;
    other ← mk_view (tail_embedding k) kk;
    cur ← load current; oth ← load other;
    let dist_squared := rdist cur oth in
    grad_coeff ← positive_coeff k i j kk dist_squared;
    grad_d ← fill (dim k) (fun d =>
      c ← getc current d; o ← getc other d;
      mret (clip (grad_coeff * (c - o))));
    let other_grad := (fun g => - g) <$> grad_d in
    apply_grad j current (alpha k) grad_d
      (wrap_idx_grad k) (wrap_grad k) (wrap_idx_pt k) (wrap_pt k);;
    (if move_other k then
       apply_grad kk other (alpha k) other_grad
         (wrap_idx_grad k) (wrap_grad k) (wrap_idx_pt k) (wrap_pt k)
     else mret tt);;
    bump_sample (epochs_per_sample k) i;;
    n_neg_samples ← neg_count (n k) (epochs_per_negative_sample k) i;
    if bool_decide (0 < n_neg_samples)%Z then
      for_range (Z.to_nat n_neg_samples) (fun _ => negative_sample_applygrad k j current);;
      bump_negative (epochs_per_negative_sample k) i n_neg_samples
    else mret tt
  else mret tt.

Definition _optimize_layout_euclidean_single_epoch_applygrad (k : kparams)
  : M state1 unit :=
  for_range (length (epochs_per_sample k)) (edge_applygrad k).

(** ** The epoch driver [optimize_layout_euclidean] *)

(** A numpy array of any rank: its shape and its elements in C order. *)
Record ndarray := mkNd { nd_shape : list nat; nd_data : list Qc }.

(** The [pin_mask] argument: [None], a dictionary of constraints (in
    insertion order), or an array of weights. *)
Inductive pin_mask_arg :=
  | PinNone
  | PinDict (d : list (string * pyfn))
  | PinArray (m : ndarray).

Record densmap_kwds_t := mkDk {
  dk_lambda : Qc;
  dk_frac : Qc;
  dk_var_shift : Qc;
  dk_mu_sum : list Qc;
  dk_mu : list Qc;
  dk_R : list Qc;
}.

Record args := mkArgs {
  in_head_embedding : loc;
  in_tail_embedding : loc;
  in_head : list nat;
  in_tail : list nat;
  n_epochs : nat;
  in_n_vertices : nat;
  in_epochs_per_sample : list Qc;
  in_a : Qc;
  in_b : Qc;
  in_gamma : Qc;
  initial_alpha : Qc;
  negative_sample_rate : Qc;
  parallel : bool;
  (* the order in which the threads happen to take the edges at each epoch *)
  thread_order : nat -> list nat;
  densmap : bool;
  densmap_kwds : densmap_kwds_t;
  in_move_other : bool;
  output_constrain : option (list (string * pyfn));
  pin_mask : pin_mask_arg;
}.

(** Modelled from the spec: [con.pinindexed_grad] of [umap/constraints.py],
    which is not among the sources.  Section 4.6: a 1-D pin mask is "built
    into an idx_grad hook that zeroes the gradient at pinned indices". *)
Definition pinindexed_grad (idx : nat) (pt grad : row) (fixed_pos_idxs : list nat)
  : row * row :=
  if bool_decide (idx ∈ fixed_pos_idxs) then (pt, (fun _ => 0) <$> grad)
  else (pt, grad).

(** Modelled from the spec: [con.freeinf_grad] of [umap/constraints.py],
    which is not among the sources.  Section 4.6: the sentinel array carries
    the original coordinate at pinned dimensions and an "unconstrained"
    marker (here [None], [np.inf] in the source) at free ones; the hook
    "forces the gradient to zero at pinned coordinates and leaves free
    coordinates untouched". *)
Definition freeinf_grad (idx : nat) (pt grad : row) (freeinf_arg : list (list (option Qc)))
  : row * row :=
  match freeinf_arg !! idx with
  | Some marks =>
      (pt, zip_with (fun g c => match c with Some _ => 0 | None => g end) grad marks)
  | None => (pt, grad)
  end.

(** [idxs]: the positions [i] with [pin_mask[i] == 0.0]. *)
Fixpoint zero_positions (i : nat) (w : list Qc) : list nat :=
  match w with
  | [] => []
  | x :: w' => if feq x 0 then i :: zero_positions (S i) w' else zero_positions (S i) w'
  end.

(** [np.where(pin_mask == 0.0, head_embedding, np.inf)] for a mask with
    [ncols] columns. *)
Definition freeinf_of (ncols : nat) (mask : list Qc) (emb : matrix) : list (list (option Qc)) :=
  imap (fun i r =>
          imap (fun d x =>
                  match mask !! (i * ncols + d)%nat with
                  | Some w => if feq w 0 then Some x else None
                  | None => None
                  end) r) emb.

Definition show_nat (x : nat) : string := pretty x.

(** The constraint dictionary: [for kk,k in enumerate(pin_mask.keys())].
    The name [recognized] that the last [print] mentions is bound nowhere in
    the module, so evaluating it raises [NameError]. *)
Fixpoint read_pin_dict (d : list (string * pyfn)) (fns_idx_pt fns_idx_grad : list pyfn)
  : M state1 (list pyfn * list pyfn) :=
  match d with
  | [] => mret (fns_idx_pt, fns_idx_grad)
  | (k, v) :: d' =>
      if String.eqb k "idx_pt" then read_pin_dict d' [v] fns_idx_grad
      else if String.eqb k "idx_grad" then read_pin_dict d' fns_idx_pt [v]
      else
        print (" Warning: unrecognized constraints key " ++ k);;
        (* print(" Allowed constraint keys:", recognized) *)
        _ ← raise (A:=unit) NameError;
        read_pin_dict d' fns_idx_pt fns_idx_grad
  end.

(** The array form of [pin_mask]. *)
Definition read_pin_array (emb : matrix) (m : ndarray) : M state1 (list pyfn * list pyfn) :=
  print ("pin_mask " ++ show_nat (length (nd_data m)));;
  match nd_shape m with
  | [n0] =>
      assert (bool_decide (n0 = (shape2 emb).1));;
      let fixed_pos_idxs := zero_positions 0 (nd_data m) in
      mret ([], [FnIdxGrad (fun idx pt grad => pinindexed_grad idx pt grad fixed_pos_idxs)])
  | [n0; n1] =>
      assert (bool_decide ((n0, n1) = shape2 emb));;
      let freeinf_arg := freeinf_of n1 (nd_data m) emb in
      mret ([], [FnIdxGrad (fun idx pt grad => freeinf_grad idx pt grad freeinf_arg)])
  | _ => raise ValueError
  end.

Record out_hooks := mkOut {
  outconstrain_pt : option pyfn;
  outconstrain_grad : option pyfn;
  outconstrain_epoch_pt : option pyfn;
  outconstrain_final_pt : option pyfn;
}.

(** [for k in output_constrain: fn = output_constrain[k]; if k == 'pt': ...] *)
Fixpoint read_output_constrain (d : list (string * pyfn)) (o : out_hooks) : out_hooks :=
  match d with
  | [] => o
  | (k, fn) :: d' =>
      let o := if String.eqb k "pt"
               then mkOut (Some fn) (outconstrain_grad o) (outconstrain_epoch_pt o)
                      (outconstrain_final_pt o) else o in
      let o := if String.eqb k "grad"
               then mkOut (outconstrain_pt o) (Some fn) (outconstrain_epoch_pt o)
                      (outconstrain_final_pt o) else o in
      let o := if String.eqb k "epoch_pt"
               then mkOut (outconstrain_pt o) (outconstrain_grad o) (Some fn)
                      (outconstrain_final_pt o) else o in
      let o := if String.eqb k "final_pt"
               then mkOut (outconstrain_pt o) (outconstrain_grad o)
                      (outconstrain_epoch_pt o) (Some fn) else o in
      read_output_constrain d' o
  end.

Definition no_hooks : out_hooks := mkOut None None None None.

(** The four output-side hooks: all [None] unless [output_constrain] is a
    dictionary that names them. *)
Definition out_of (output_constrain : option (list (string * pyfn))) : out_hooks :=
  match output_constrain with
  | None => no_hooks
  | Some d => read_output_constrain d no_hooks
  end.

(** *** densMAP statistics *)

Definition np_sum (x : list Qc) : Qc := foldr Qcplus 0 x.
Definition np_mean (x : list Qc) : Qc := np_sum x / Qc_of_nat (length x).
Definition np_var (x : list Qc) : Qc :=
  let m := np_mean x in np_mean ((fun v => (v - m) * (v - m)) <$> x).
Definition np_dot (x y : list Qc) : Qc := np_sum (zip_with Qcmult x y).

(** The edge loop of [_optimize_layout_euclidean_densmap_epoch_init]. *)
Fixpoint densmap_edges (head_embedding tail_embedding : loc) (head tail : list nat)
    (a b : Qc) (edges : list nat) (re_sum phi_sum : list Qc)
  : M state1 (list Qc * list Qc) :=
  match edges with
  | [] => mret (re_sum, phi_sum)
  | i :: edges' =>
      j ← index (head !! i);
      k ← index (tail !! i);
      current ← mk_view head_embedding j;
      other ← mk_view tail_embedding k;
      cur ← load current; oth ← load other;
      let dist_squared := rdist cur oth in
      let phi := 1 / (1 + a * fpow dist_squared b) in
      x ← index (re_sum !! j);
      let re_sum := <[j := x + phi * dist_squared]> re_sum in
      x ← index (re_sum !! k);
      let re_sum := <[k := x + phi * dist_squared]> re_sum in
      x ← index (phi_sum !! j);
      let phi_sum := <[j := x + phi]> phi_sum in
      x ← index (phi_sum !! k);
      let phi_sum := <[k := x + phi]> phi_sum in
      densmap_edges head_embedding tail_embedding head tail a b edges' re_sum phi_sum
  end.

(** [_optimize_layout_euclidean_densmap_epoch_init]: the two arrays are
    cleared, filled from the edges, and [re_sum] is turned into the log
    radius.  They have one length, [n_vertices], in the driver. *)
Definition _optimize_layout_euclidean_densmap_epoch_init
    (head_embedding tail_embedding : loc) (head tail : list nat) (a b : Qc)
    (re_sum phi_sum : list Qc) : M state1 (list Qc * list Qc) :=
  let re_sum := (fun _ => 0) <$> re_sum in
  let phi_sum := (fun _ => 0) <$> phi_sum in
  '(re_sum, phi_sum) ← densmap_edges head_embedding tail_embedding head tail a b
                          (seq 0 (length head)) re_sum phi_sum;
  let epsilon := c_1e_8 in
  mret (zip_with (fun r p => flog (epsilon + r / p)) re_sum phi_sum, phi_sum).

(** *** The loop *)

(** The variables of the driver that change from epoch to epoch. *)
Record locals := mkL {
  l_alpha : Qc;
  l_dens_phi_sum : list Qc;
  l_dens_re_sum : list Qc;
  l_dens_re_std : Qc;
  l_dens_re_mean : Qc;
  l_dens_re_cov : Qc;
}.

(** What the driver has fixed before the loop starts. *)
Record setup := mkSetup {
  su_dim : nat;
  su_epochs_per_negative_sample : list Qc;
  su_wrap_idx_pt : option pyfn;
  su_wrap_idx_grad : option pyfn;
  su_out : out_hooks;
  su_dens_mu_tot : Qc;
  su_dens_lambda : Qc;
  su_dens_R : list Qc;
  su_dens_mu : list Qc;
}.

Definition kernel_params (A : args) (c : setup) (n : nat) (densmap_flag : bool)
    (v : locals) : kparams :=
  mkK (in_head_embedding A) (in_tail_embedding A) (in_head A) (in_tail A)
      (in_n_vertices A) (in_epochs_per_sample A) (in_a A) (in_b A) (in_gamma A)
      (su_dim c) (in_move_other A) (l_alpha v) (su_epochs_per_negative_sample c) n
      (su_wrap_idx_pt c) (su_wrap_idx_grad c)
      (outconstrain_pt (su_out c)) (outconstrain_grad (su_out c))
      densmap_flag (l_dens_phi_sum v) (l_dens_re_sum v)
      (l_dens_re_cov v) (l_dens_re_std v) (l_dens_re_mean v)
      (su_dens_lambda c) (su_dens_R c) (su_dens_mu c) (su_dens_mu_tot c).

(** [optimize_fn = opt_euclidean_para if parallel else opt_euclidean],
    called with the arguments [k]: what is recorded of the entry is read
    from [k] itself. *)
Definition optimize_fn (A : args) (k : kparams) : M state1 unit :=
  enter (n k) (alpha k);;
  if parallel A then _optimize_layout_euclidean_single_epoch_para (thread_order A (n k)) k
  else _optimize_layout_euclidean_single_epoch k.

(** The body of [for n in tqdm(range(n_epochs))]. *)
Definition epoch (A : args) (c : setup) (n : nat) (v : locals) : M state1 locals :=
  let densmap_flag :=
    densmap A
    && fgt (dk_lambda (densmap_kwds A)) 0
    && fgt (Qc_of_nat (n + 1) / Qc_of_nat (n_epochs A)) (1 - dk_frac (densmap_kwds A)) in
  v ← (if densmap_flag then
         '(re_sum, phi_sum) ←
           _optimize_layout_euclidean_densmap_epoch_init
             (in_head_embedding A) (in_tail_embedding A) (in_head A) (in_tail A)
             (in_a A) (in_b A) (l_dens_re_sum v) (l_dens_phi_sum v);
         mret (mkL (l_alpha v) phi_sum re_sum
                 (fsqrt (np_var re_sum + dk_var_shift (densmap_kwds A)))
                 (np_mean re_sum)
                 (np_dot re_sum (su_dens_R c) / (Qc_of_nat (in_n_vertices A) - 1)))
       else mret v);
  optimize_fn A (kernel_params A c n densmap_flag v);;
  (* if outconstrain_epoch_pt is not None: outconstrain_final_pt(head_embedding) *)
  (if is_not_None (outconstrain_epoch_pt (su_out c))
   then call_emb (outconstrain_final_pt (su_out c)) (in_head_embedding A)
   else mret tt);;
  let alpha := initial_alpha A * (1 - Qc_of_nat n / Qc_of_nat (n_epochs A)) in
  mret (mkL alpha (l_dens_phi_sum v) (l_dens_re_sum v)
          (l_dens_re_std v) (l_dens_re_mean v) (l_dens_re_cov v)).

Fixpoint epoch_loop (A : args) (c : setup) (epochs : list nat) (v : locals)
  : M state1 locals :=
  match epochs with
  | [] => mret v
  | n :: epochs' => v' ← epoch A c n v; epoch_loop A c epochs' v'
  end.

Definition zeros (n : nat) : list Qc := replicate n 0.

(** Everything [optimize_layout_euclidean] does before its loop. *)
Definition configure (A : args) : M state1 (setup * locals) :=
  s ← get;
  let emb := deref (heap s) (in_head_embedding A) in
  let dim := (shape2 emb).2 in
  let alpha := initial_alpha A in
  let epochs_per_negative_sample :=
    (fun e => e / negative_sample_rate A) <$> in_epochs_per_sample A in
  modify (set_eonns (fun _ => epochs_per_negative_sample));;
  modify (set_eons (fun _ => in_epochs_per_sample A));;
  '(fns_idx_pt, fns_idx_grad) ←
    match pin_mask A with
    | PinNone => read_pin_dict [] [] []
    | PinDict d => read_pin_dict d [] []
    | PinArray m => read_pin_array emb m
    end;
  let wrap_idx_pt := fns_idx_pt !! 0%nat in
  let wrap_idx_grad := fns_idx_grad !! 0%nat in
  let out := out_of (output_constrain A) in
  let c :=
    if densmap A then
      mkSetup dim epochs_per_negative_sample wrap_idx_pt wrap_idx_grad out
        (np_sum (dk_mu_sum (densmap_kwds A)) / two)
        (dk_lambda (densmap_kwds A)) (dk_R (densmap_kwds A)) (dk_mu (densmap_kwds A))
    else
      mkSetup dim epochs_per_negative_sample wrap_idx_pt wrap_idx_grad out
        0 0 (zeros 1) (zeros 1) in
  let v :=
    if densmap A
    then mkL alpha (zeros (in_n_vertices A)) (zeros (in_n_vertices A)) 0 0 0
    else mkL alpha (zeros 1) (zeros 1) 0 0 0 in
  mret (c, v).

Definition optimize_layout_euclidean (A : args) : M state1 loc :=
  '(c, v) ← configure A;
  _ ← epoch_loop A c (seq 0 (n_epochs A)) v;
  (if is_not_None (outconstrain_final_pt (su_out c))
   then call_emb (outconstrain_final_pt (su_out c)) (in_head_embedding A)
   else mret tt);;
  mret (in_head_embedding A).

(** ** The Generic kernel *)

Record gparams := mkG {
  g_head_embedding : loc;
  g_tail_embedding : loc;
  g_head : list nat;
  g_tail : list nat;
  g_n_vertices : nat;
  g_epochs_per_sample : list Qc;
  g_a : Qc;
  g_b : Qc;
  g_gamma : Qc;
  g_dim : nat;
  g_move_other : bool;
  g_alpha : Qc;
  g_epochs_per_negative_sample : list Qc;
  g_n : nat;
}.

(** [for d in range(dim): pt[d] += clip(grad_coeff * grad[d]) * alpha] *)
Definition push_along {T} (dim : nat) (alpha grad_coeff : Qc) (pt : view) (grad : row)
  : M (state T) unit :=
  for_range dim (fun d =>
    g ← index (grad !! d);
    add_at pt d (clip (grad_coeff * g) * alpha)).

(** The body of the edge loop of [_optimize_layout_generic_single_epoch]. *)
Definition edge_generic (k : gparams) (i : nat) : M state1 unit :=
  s ← get;
  e_i ← index (eons s !! i);
  if fle e_i (Qc_of_nat (g_n k)) then
    j ← index (g_head k !! i);
    kk ← index (g_tail k !! i);
    current ← mk_view (g_head_embedding k) j;
    other ← mk_view (g_tail_embedding k) kk;
    cur ← load current; oth ← load other;
    let '(dist_output, grad_dist_output) := output_metric cur oth in
    let '(_, rev_grad_dist_output) := output_metric oth cur in
    let w_l :=
      if fgt dist_output 0
      then fpow (1 + g_a k * fpow dist_output (two * g_b k)) (- (1))
      else 1 in
    let grad_coeff := two * g_b k * (w_l - 1) / (dist_output + c_1e_6) in
    for_range (g_dim k) (fun d =>
      g ← index (grad_dist_output !! d);
      add_at current d (clip (grad_coeff * g) * g_alpha k);;
      if g_move_other k then
        g ← index (rev_grad_dist_output !! d);
        add_at other d (clip (grad_coeff * g) * g_alpha k)
      else mret tt);;
    bump_sample (g_epochs_per_sample k) i;;
    n_neg_samples ← neg_count (g_n k) (g_epochs_per_negative_sample k) i;
    for_range (Z.to_nat n_neg_samples) (fun _ =>
      kk ← draw_vertex (g_n_vertices k);
      other ← mk_view (g_tail_embedding k) kk;
      cur ← load current; oth ← load other;
      let '(dist_output, grad_dist_output) := output_metric cur oth in
      if fgt dist_output 0 then
        let w_l := fpow (1 + g_a k * fpow dist_output (two * g_b k)) (- (1)) in
        push_along (g_dim k) (g_alpha k)
          (g_gamma k * two * g_b k * w_l / (dist_output + c_1e_6)) current grad_dist_output
      else if bool_decide (j = kk) then
        mret tt                               (* continue *)
      else
        push_along (g_dim k) (g_alpha k)
          (g_gamma k * two * g_b k * 1 / (dist_output + c_1e_6)) current grad_dist_output);;
    bump_negative (g_epochs_per_negative_sample k) i n_neg_samples
  else mret tt.

Definition _optimize_layout_generic_single_epoch (k : gparams) : M state1 unit :=
  for_range (length (g_epochs_per_sample k)) (edge_generic k).

(** The arguments the three single-embedding drivers besides the Euclidean
    one share. *)
Record gargs := mkGArgs {
  ga_head_embedding : loc;
  ga_tail_embedding : loc;
  ga_head : list nat;
  ga_tail : list nat;
  ga_n_epochs : nat;
  ga_n_vertices : nat;
  ga_epochs_per_sample : list Qc;
  ga_a : Qc;
  ga_b : Qc;
  ga_gamma : Qc;
  ga_initial_alpha : Qc;
  ga_negative_sample_rate : Qc;
  ga_move_other : bool;
}.

(** The opening of every driver:
    [epochs_per_negative_sample = epochs_per_sample / negative_sample_rate],
    then both "next" arrays start as copies. *)
Definition init_schedule (epochs_per_sample : list Qc) (negative_sample_rate : Qc)
  : M state1 (list Qc) :=
  let epochs_per_negative_sample :=
    (fun e => e / negative_sample_rate) <$> epochs_per_sample in
  modify (set_eonns (fun _ => epochs_per_negative_sample));;
  modify (set_eons (fun _ => epochs_per_sample));;
  mret epochs_per_negative_sample.

(** A driver loop [for n in range(n_epochs): kernel(alpha, n); alpha = ...]. *)
Fixpoint anneal_loop {T} (kernel : nat -> Qc -> M (state T) unit)
    (initial_alpha : Qc) (n_epochs : nat) (epochs : list nat) (alpha : Qc)
  : M (state T) unit :=
  match epochs with
  | [] => mret tt
  | n :: epochs' =>
      kernel n alpha;;
      anneal_loop kernel initial_alpha n_epochs epochs'
        (initial_alpha * (1 - Qc_of_nat n / Qc_of_nat n_epochs))
  end.

(** The kernel as the driver calls it at epoch [n]; what is recorded of the
    entry is read from the arguments [k] the kernel receives. *)
Definition generic_kernel (A : gargs) (dim : nat) (epochs_per_negative_sample : list Qc)
    (n : nat) (alpha : Qc) : M state1 unit :=
  let k :=
    mkG (ga_head_embedding A) (ga_tail_embedding A) (ga_head A) (ga_tail A)
        (ga_n_vertices A) (ga_epochs_per_sample A) (ga_a A) (ga_b A) (ga_gamma A)
        dim (ga_move_other A) alpha epochs_per_negative_sample n in
  enter (g_n k) (g_alpha k);;
  _optimize_layout_generic_single_epoch k.

Definition optimize_layout_generic (A : gargs) : M state1 loc :=
  s ← get;
  let dim := (shape2 (deref (heap s) (ga_head_embedding A))).2 in
  epochs_per_negative_sample ←
    init_schedule (ga_epochs_per_sample A) (ga_negative_sample_rate A);
  anneal_loop (generic_kernel A dim epochs_per_negative_sample)
    (ga_initial_alpha A) (ga_n_epochs A) (seq 0 (ga_n_epochs A)) (ga_initial_alpha A);;
  mret (ga_head_embedding A).

(** *** [optimize_layout_generic_original] *)

(** The body of the edge loop of [optimize_layout_generic_original]: with
    [move_other] the tail point takes the step of the head point. *)
Definition edge_generic_original (A : gargs) (dim : nat)
    (epochs_per_negative_sample : list Qc) (n : nat) (alpha : Qc) (i : nat)
  : M state1 unit :=
  s ← get;
  e_i ← index (eons s !! i);
  if fle e_i (Qc_of_nat n) then
    j ← index (ga_head A !! i);
    kk ← index (ga_tail A !! i);
    current ← mk_view (ga_head_embedding A) j;
    other ← mk_view (ga_tail_embedding A) kk;
    cur ← load current; oth ← load other;
    let '(dist_output, grad_dist_output) := output_metric cur oth in
    let w_l :=
      if fgt dist_output 0
      then fpow (1 + ga_a A * fpow dist_output (two * ga_b A)) (- (1))
      else 1 in
    let grad_coeff := two * ga_b A * (w_l - 1) / (dist_output + c_1e_6) in
    for_range dim (fun d =>
      g ← index (grad_dist_output !! d);
      let grad_d := clip (grad_coeff * g) in
      add_at current d (grad_d * alpha);;
      if ga_move_other A then add_at other d (grad_d * alpha) else mret tt);;
    bump_sample (ga_epochs_per_sample A) i;;
    n_neg_samples ← neg_count n epochs_per_negative_sample i;
    for_range (Z.to_nat n_neg_samples) (fun _ =>
      kk ← draw_vertex (ga_n_vertices A);
      other ← mk_view (ga_tail_embedding A) kk;
      cur ← load current; oth ← load other;
      let '(dist_output, grad_dist_output) := output_metric cur oth in
      if fgt dist_output 0 then
        let w_l := fpow (1 + ga_a A * fpow dist_output (two * ga_b A)) (- (1)) in
        push_along dim alpha
          (ga_gamma A * two * ga_b A * w_l / (dist_output + c_1e_6)) current grad_dist_output
      else if bool_decide (j = kk) then
        mret tt                               (* continue *)
      else
        push_along dim alpha
          (ga_gamma A * two * ga_b A * 1 / (dist_output + c_1e_6)) current grad_dist_output);;
    bump_negative epochs_per_negative_sample i n_neg_samples
  else mret tt.

(** [print("\tcompleted ", n, " / ", n_epochs, "epochs")] *)
Definition completed_message (n n_epochs : nat) : string :=
  String (Ascii.ascii_of_nat 9) "completed " ++ " " ++ show_nat n ++ " " ++ " / " ++ " "
    ++ show_nat n_epochs ++ " " ++ "epochs".

(** The loop of [optimize_layout_generic_original].  [n % int(n_epochs / 10)]
    divides by zero when [n_epochs < 10]. *)
Fixpoint original_loop (A : gargs) (verbose : bool) (dim : nat)
    (epochs_per_negative_sample : list Qc) (epochs : list nat) (alpha : Qc)
  : M state1 unit :=
  match epochs with
  | [] => mret tt
  | n :: epochs' =>
      for_range (length (ga_epochs_per_sample A))
        (edge_generic_original A dim epochs_per_negative_sample n alpha);;
      let alpha := ga_initial_alpha A * (1 - Qc_of_nat n / Qc_of_nat (ga_n_epochs A)) in
      (if verbose then
         if bool_decide (ga_n_epochs A / 10 = 0)%nat then raise ZeroDivisionError
         else if bool_decide (n mod (ga_n_epochs A / 10) = 0)%nat
              then print (completed_message n (ga_n_epochs A))
              else mret tt
       else mret tt);;
      original_loop A verbose dim epochs_per_negative_sample epochs' alpha
  end.

Definition optimize_layout_generic_original (A : gargs) (verbose : bool)
  : M state1 loc :=
  s ← get;
  let dim := (shape2 (deref (heap s) (ga_head_embedding A))).2 in
  epochs_per_negative_sample ←
    init_schedule (ga_epochs_per_sample A) (ga_negative_sample_rate A);
  original_loop A verbose dim epochs_per_negative_sample
    (seq 0 (ga_n_epochs A)) (ga_initial_alpha A);;
  mret (ga_head_embedding A).

(** ** The Inverse kernel *)

Record iparams := mkI {
  i_base : gparams;
  i_weight : list Qc;
  i_sigmas : list Qc;
  i_rhos : list Qc;
}.

Definition fmax (x y : Qc) : Qc := if fgt x y then x else y.

(** The body of the edge loop of [_optimize_layout_inverse_single_epoch]. *)
Definition edge_inverse (p : iparams) (i : nat) : M state1 unit :=
  let k := i_base p in
  s ← get;
  e_i ← index (eons s !! i);
  if fle e_i (Qc_of_nat (g_n k)) then
    j ← index (g_head k !! i);
    kk ← index (g_tail k !! i);
    current ← mk_view (g_head_embedding k) j;
    other ← mk_view (g_tail_embedding k) kk;
    cur ← load current; oth ← load other;
    let '(dist_output, grad_dist_output) := output_metric cur oth in
    w_l ← index (i_weight p !! i);
    sigma_k ← index (i_sigmas p !! kk);
    let grad_coeff := - (1 / (w_l * sigma_k + c_1e_6)) in
    for_range (g_dim k) (fun d =>
      g ← index (grad_dist_output !! d);
      let grad_d := clip (grad_coeff * g) in
      add_at current d (grad_d * g_alpha k);;
      if g_move_other k then add_at other d (- grad_d * g_alpha k) else mret tt);;
    bump_sample (g_epochs_per_sample k) i;;
    n_neg_samples ← neg_count (g_n k) (g_epochs_per_negative_sample k) i;
    for_range (Z.to_nat n_neg_samples) (fun _ =>
      kk ← draw_vertex (g_n_vertices k);
      other ← mk_view (g_tail_embedding k) kk;
      cur ← load current; oth ← load other;
      let '(dist_output, grad_dist_output) := output_metric cur oth in
      rho_k ← index (i_rhos p !! kk);
      sigma_k ← index (i_sigmas p !! kk);
      let w_h := fexp (- fmax (dist_output - rho_k) c_1e_6 / (sigma_k + c_1e_6)) in
      let grad_coeff := - g_gamma k * ((0 - w_h) / ((1 - w_h) * sigma_k + c_1e_6)) in
      push_along (g_dim k) (g_alpha k) grad_coeff current grad_dist_output);;
    bump_negative (g_epochs_per_negative_sample k) i n_neg_samples
  else mret tt.

Definition _optimize_layout_inverse_single_epoch (p : iparams) : M state1 unit :=
  for_range (length (g_epochs_per_sample (i_base p))) (edge_inverse p).

Definition inverse_kernel (A : gargs) (weight sigmas rhos : list Qc) (dim : nat)
    (epochs_per_negative_sample : list Qc) (n : nat) (alpha : Qc) : M state1 unit :=
  let p :=
    mkI (mkG (ga_head_embedding A) (ga_tail_embedding A) (ga_head A) (ga_tail A)
           (ga_n_vertices A) (ga_epochs_per_sample A) (ga_a A) (ga_b A)
           (ga_gamma A) dim (ga_move_other A) alpha epochs_per_negative_sample n)
        weight sigmas rhos in
  enter (g_n (i_base p)) (g_alpha (i_base p));;
  _optimize_layout_inverse_single_epoch p.

Definition optimize_layout_inverse (A : gargs) (weight sigmas rhos : list Qc)
  : M state1 loc :=
  s ← get;
  let dim := (shape2 (deref (heap s) (ga_head_embedding A))).2 in
  epochs_per_negative_sample ←
    init_schedule (ga_epochs_per_sample A) (ga_negative_sample_rate A);
  anneal_loop (inverse_kernel A weight sigmas rhos dim epochs_per_negative_sample)
    (ga_initial_alpha A) (ga_n_epochs A) (seq 0 (ga_n_epochs A)) (ga_initial_alpha A);;
  mret (ga_head_embedding A).

(** ** The Aligned kernel *)

Abbreviation stateN := (state (list (list Qc))).

Record aparams := mkA {
  a_head_embeddings : list loc;
  a_tail_embeddings : list loc;
  a_heads : list (list nat);
  a_tails : list (list nat);
  a_epochs_per_sample : list (list Qc);
  a_a : Qc;
  a_b : Qc;
  a_regularisation_weights : list (list (list Qc));
  a_relations : list (list (list Z));
  a_relations_shape1 : nat;                 (* relations.shape[1] *)
  a_gamma : Qc;
  a_lambda_ : Qc;
  a_dim : nat;
  a_move_other : bool;
  a_alpha : Qc;
  a_epochs_per_negative_sample : list (list Qc);
  a_n : nat;
}.

(** [x[m][i]] of a list of arrays. *)
Definition at2 {A} (x : list (list A)) (m i : nat) : option A :=
  r ← x !! m; r !! i.

(** [x[m, o, j]] of a three-dimensional array. *)
Definition at3 {A} (x : list (list (list A))) (m o j : nat) : option A :=
  p ← x !! m; r ← p !! o; r !! j.

(** [range(lo, hi)] over the integers. *)
Definition zrange (lo hi : Z) : list Z :=
  (fun i => (lo + Z.of_nat i)%Z) <$> seq 0 (Z.to_nat (hi - lo)).

Definition window_size (k : aparams) : Z := ((Z.of_nat (a_relations_shape1 k) - 1) / 2)%Z.

(** The inner [for offset in range(-window_size, window_size)] loop: what it
    subtracts from [grad_d] for vertex [v] of embedding [m] whose coordinate
    [d] is [x]. *)
Fixpoint regularise (k : aparams) (m v d : nat) (x : Qc) (offsets : list Z) (acc : Qc)
  : M stateN Qc :=
  match offsets with
  | [] => mret acc
  | offset :: offsets' =>
      let neighbor_m := (Z.of_nat m + offset)%Z in
      if bool_decide (neighbor_m < Z.of_nat (length (a_heads k)))%Z
         && bool_decide (0 ≤ neighbor_m)%Z
         && bool_decide (0 ≠ offset)%Z
      then
        let o := Z.to_nat (offset + window_size k) in
        identified_index ← index (at3 (a_relations k) m o v);
        if bool_decide (0 ≤ identified_index)%Z then
          w ← index (at3 (a_regularisation_weights k) m o v);
          arr ← index (a_head_embeddings k !! Z.to_nat neighbor_m);
          y ← getc (arr, Z.to_nat identified_index) d;
          regularise k m v d x offsets'
            (acc - clip ((a_lambda_ k * fexp (Qc_of_Z (- (Z.abs offset - 1)))) * w * (x - y)))
        else regularise k m v d x offsets' acc
      else regularise k m v d x offsets' acc
  end.

Definition offsets (k : aparams) : list Z := zrange (- window_size k) (window_size k).

Definition bump2 (x : list (list Qc)) (m i : nat) (y : Qc) : list (list Qc) :=
  match x !! m with
  | Some r => <[m := <[i := y]> r]> x
  | None => x
  end.

(** The body of [for m in embedding_order] for edge index [i]. *)
Definition edge_aligned (k : aparams) (i m : nat) : M stateN unit :=
  s ← get;
  eons_m ← index (eons s !! m);
  if bool_decide (i < length eons_m)%nat then
    e_i ← index (eons_m !! i);
    if fle e_i (Qc_of_nat (a_n k)) then
      j ← index (at2 (a_heads k) m i);
      kk ← index (at2 (a_tails k) m i);
      head_m ← index (a_head_embeddings k !! m);
      tail_m ← index (a_tail_embeddings k !! m);
      current ← mk_view head_m j;
      other ← mk_view tail_m kk;
      cur ← load current; oth ← load other;
      let dist_squared := rdist cur oth in
      let grad_coeff :=
        if fgt dist_squared 0 then
          (- two * a_a k * a_b k * fpow dist_squared (a_b k - 1))
            / (a_a k * fpow dist_squared (a_b k) + 1)
        else 0 in
      for_range (a_dim k) (fun d =>
        c ← getc current d; o ← getc other d;
        grad_d ← regularise k m j d c (offsets k) (clip (grad_coeff * (c - o)));
        add_at current d (clip grad_d * a_alpha k);;
        if a_move_other k then
          o ← getc other d; c ← getc current d;
          let other_grad_d := clip (grad_coeff * (o - c)) in
          (* the loop below subtracts from [grad_d], which is not read again *)
          _ ← regularise k m kk d o (offsets k) grad_d;
          add_at other d (clip other_grad_d * a_alpha k)
        else mret tt);;
      s ← get;
      e ← index (at2 (eons s) m i);
      eps ← index (at2 (a_epochs_per_sample k) m i);
      modify (set_eons (fun x => bump2 x m i (e + eps)));;
      epns ← index (at2 (a_epochs_per_negative_sample k) m i);
      n_neg_samples ←
        (if fgt epns 0 then
           s ← get;
           e ← index (at2 (eonns s) m i);
           mret (Qc_trunc ((Qc_of_nat (a_n k) - e) / epns))
         else mret 0%Z);
      for_range (Z.to_nat n_neg_samples) (fun _ =>
        s ← get;
        kk ← draw_vertex (shape2 (deref (heap s) tail_m)).1;
        other ← mk_view tail_m kk;
        cur ← load current; oth ← load other;
        let dist_squared := rdist cur oth in
        let push (grad_coeff : Qc) : M stateN unit :=
          for_range (a_dim k) (fun d =>
            c ← getc current d;
            g ← (if fgt grad_coeff 0
                 then o ← getc other d; mret (clip (grad_coeff * (c - o)))
                 else mret four);
            grad_d ← regularise k m j d c (offsets k) g;
            add_at current d (clip grad_d * a_alpha k)) in
        if fgt dist_squared 0 then
          push ((two * a_gamma k * a_b k)
                  / ((c_0_001 + dist_squared) * (a_a k * fpow dist_squared (a_b k) + 1)))
        else if bool_decide (j = kk) then
          mret tt                             (* continue *)
        else push 0);;
      s ← get;
      e ← index (at2 (eonns s) m i);
      epns ← index (at2 (a_epochs_per_negative_sample k) m i);
      modify (set_eonns (fun x => bump2 x m i (e + Qc_of_Z n_neg_samples * epns)))
    else mret tt
  else mret tt.

Definition max_n_edges (epochs_per_sample : list (list Qc)) : nat :=
  foldl (fun acc e_p_s => if bool_decide (acc ≤ length e_p_s)%nat then length e_p_s else acc)
        0%nat epochs_per_sample.

Definition _optimize_layout_aligned_euclidean_single_epoch (k : aparams) : M stateN unit :=
  let n_embeddings := length (a_heads k) in
  s ← get;
  let embedding_order := np_shuffle (Z.abs (rng_word0 (rng s))) (seq 0 n_embeddings) in
  for_range (max_n_edges (a_epochs_per_sample k)) (fun i =>
    for_each embedding_order (edge_aligned k i)).

Record aargs := mkAArgs {
  aa_head_embeddings : list loc;
  aa_tail_embeddings : list loc;
  aa_heads : list (list nat);
  aa_tails : list (list nat);
  aa_n_epochs : nat;
  aa_epochs_per_sample : list (list Qc);
  aa_regularisation_weights : list (list (list Qc));
  aa_relations : list (list (list Z));
  aa_relations_shape1 : nat;
  aa_a : Qc;
  aa_b : Qc;
  aa_gamma : Qc;
  aa_lambda_ : Qc;
  aa_initial_alpha : Qc;
  aa_negative_sample_rate : Qc;
  aa_move_other : bool;
}.

(** [for m in range(len(heads))]: the three per-embedding lists are built
    from [epochs_per_sample[m]]. *)
Fixpoint aligned_schedule (epochs_per_sample : list (list Qc)) (negative_sample_rate : Qc)
    (ms : list nat) : M stateN (list (list Qc)) :=
  match ms with
  | [] => mret []
  | m :: ms' =>
      e_p_s ← index (epochs_per_sample !! m);
      let epns := (fun e => e / negative_sample_rate) <$> e_p_s in
      modify (set_eonns (fun x => x ++ [epns]));;
      modify (set_eons (fun x => x ++ [e_p_s]));;
      rest ← aligned_schedule epochs_per_sample negative_sample_rate ms';
      mret (epns :: rest)
  end.

Definition aligned_kernel (A : aargs) (dim : nat)
    (epochs_per_negative_sample : list (list Qc)) (n : nat) (alpha : Qc)
  : M stateN unit :=
  let k :=
    mkA (aa_head_embeddings A) (aa_tail_embeddings A) (aa_heads A) (aa_tails A)
        (aa_epochs_per_sample A) (aa_a A) (aa_b A)
        (aa_regularisation_weights A) (aa_relations A) (aa_relations_shape1 A)
        (aa_gamma A) (aa_lambda_ A) dim (aa_move_other A) alpha
        epochs_per_negative_sample n in
  enter (a_n k) (a_alpha k);;
  _optimize_layout_aligned_euclidean_single_epoch k.

Definition optimize_layout_aligned_euclidean (A : aargs) : M stateN (list loc) :=
  s ← get;
  head0 ← index (aa_head_embeddings A !! 0%nat);
  let dim := (shape2 (deref (heap s) head0)).2 in
  modify (set_eonns (fun _ => []));;
  modify (set_eons (fun _ => []));;
  epochs_per_negative_sample ←
    aligned_schedule (aa_epochs_per_sample A) (aa_negative_sample_rate A)
      (seq 0 (length (aa_heads A)));
  anneal_loop (aligned_kernel A dim epochs_per_negative_sample)
    (aa_initial_alpha A) (aa_n_epochs A) (seq 0 (aa_n_epochs A)) (aa_initial_alpha A);;
  mret (aa_head_embeddings A).

End Layouts.

Arguments mkState {ext T} _ _ _ _ _.
Arguments heap {ext T} _.
Arguments eons {ext T} _.
Arguments eonns {ext T} _.
Arguments rng {ext T} _.
Arguments log {ext T} _.

Abbreviation state1 := (state (list Qc)).
Abbreviation stateN := (state (list (list Qc))).

(** * A concrete instance, for running the model

    A counter stands for the generator, the shuffle leaves the order as it
    is, and [pow] is exact on the natural exponents the examples use. *)

Definition demo_pow (x e : Qc) : Qc :=
  if bool_decide (Qden (this e) = 1%positive) && bool_decide (0 ≤ Qnum (this e))%Z
  then Qcpower x (Z.to_nat (Qnum (this e)))
  else 1.

Definition demo : Externals := {|
  RS := Z;
  tau_rand_int := fun st => (st, (st + 1)%Z);
  rng_word0 := fun st => st;
  np_shuffle := fun _ order => order;
  fpow := demo_pow;
  fexp := fun _ => 1;
  flog := fun x => x;
  fsqrt := fun x => x;
  output_metric := fun x y => (rdist x y, zip_with Qcminus x y);
|}.

Definition q (z : Z) : Qc := Qc_of_Z z.

(** A state holding the arrays [h], with empty schedule and log. *)
Definition start (h : gmap loc matrix) : state (ext:=demo) (list Qc) :=
  @mkState demo (list Qc) h [] [] 0%Z [].

(** What is compared when a run is evaluated: the rows as fractions. *)
Definition fractions (x : list Qc) : list Q := map this x.
Definition rows_of {T} (arr : loc) (s : state (ext:=demo) T) : list (list Q) :=
  map fractions (deref (heap s) arr).


(** Two points on a line in one array, which serves as head and as tail
    embedding, and two edges between them. *)
Definition line2 : gmap loc matrix := {[ 1%positive := [[q 0]; [q 1]] ]}.

Definition kp (move_other : bool) : kparams :=
  mkK 1%positive 1%positive [0; 1]%nat [1; 0]%nat 2 [q 1; q 5] 1 1 1 1%nat
      move_other 1 [q 1; q 5] 1 None None None None
      false [] [] 0 0 0 0 [] [] 0.

(** The state at the start of epoch 1: both schedule arrays still hold
    their initial copies. *)
Definition at_epoch1 : state (ext:=demo) (list Qc) :=
  @mkState demo (list Qc) line2 [q 1; q 5] [q 1; q 5] 0%Z [].

(** A head embedding and a tail embedding in two arrays with different
    contents. *)
Definition two_arrays : gmap loc matrix :=
  {[ 1%positive := [[q 0]; [q 1]]; 2%positive := [[q 0]; [q 2]] ]}.

Definition at_two_arrays : state (ext:=demo) (list Qc) :=
  @mkState demo (list Qc) two_arrays [q 1; q 5] [q 1; q 5] 0%Z [].

Definition kp_two_arrays : kparams :=
  mkK 1%positive 2%positive [0; 1]%nat [1; 0]%nat 2 [q 1; q 5] 1 1 1 1%nat
      false 1 [q 1; q 5] 1 None None None None
      false [] [] 0 0 0 0 [] [] 0.

(** Arguments of a driver run on [line2]: [n_epochs] epochs, unit learning
    rate and negative-sample rate, no densMAP, sequential. *)
Definition no_dens : densmap_kwds_t := mkDk 0 0 0 [] [] [].

Definition run_args (n_epochs : nat) (move_other : bool)
    (output_constrain : option (list (string * pyfn))) (pin_mask : pin_mask_arg) : args :=
  mkArgs 1%positive 1%positive [0; 1]%nat [1; 0]%nat n_epochs 2 [q 1; q 5] 1 1 1 1 1
         false (fun _ => []) false no_dens move_other output_constrain pin_mask.

(** A whole-embedding hook that adds [c] to every coordinate. *)
Definition shift (c : Qc) : pyfn := FnEmb (fun m => map (map (fun x => x + c)) m).

(** A point hook that adds [c] to every coordinate of the point. *)
Definition shift_pt (c : Qc) : pyfn := FnPt (map (fun x => x + c)).

(** The exception a run ended with, if any. *)
Definition error_of {S A} (r : res S A) : option exn :=
  match r with Ok _ _ => None | Err e _ => Some e end.

(** The entries into the epoch kernel recorded in a log: epoch number and
    learning rate. *)
Definition kernel_calls (l : list event) : list (nat * Qc) :=
  omap (fun e => match e with EvKernel n alpha => Some (n, alpha) | _ => None end) l.

Definition call_fractions (l : list event) : list (nat * Q) :=
  map (fun c => (c.1, this c.2)) (kernel_calls l).

(** * Reasoning about runs *)

(** ** A relation that every step of a computation respects

    [keeps R m]: from any state, [m] ends (returning or raising) in a state
    related by [R] to the one it started in; [Qv] constrains the value it
    returns. *)

Definition hoare {S A} (R : S -> S -> Prop) (Qv : A -> Prop) (m : M S A) : Prop :=
  forall s, match m s with
            | Ok a s' => R s s' /\ Qv a
            | Err _ s' => R s s'
            end.

Definition keeps {S A} (R : S -> S -> Prop) (m : M S A) : Prop :=
  hoare R (fun _ => True) m.

Lemma keeps_final {S A} (R : S -> S -> Prop) (m : M S A) :
  keeps R m -> forall s, R s (final (m s)).
Proof.
  intros Hm s. specialize (Hm s). destruct (m s); simpl; tauto.
Qed.

Lemma hoare_keeps {S A} (R : S -> S -> Prop) (Qv : A -> Prop) (m : M S A) :
  hoare R Qv m -> keeps R m.
Proof.
  intros Hm s. specialize (Hm s). destruct (m s); tauto.
Qed.

Section Rules.
Context {S : Type} (R : S -> S -> Prop) `{!PreOrder R}.

Lemma hoare_ret {A} (Qv : A -> Prop) (a : A) : Qv a -> hoare R Qv (mret a).
Proof. intros Ha s. simpl. split; [reflexivity | exact Ha]. Qed.

Lemma keeps_ret {A} (a : A) : keeps R (mret a : M S A).
Proof. by apply hoare_ret. Qed.

Lemma hoare_raise {A} (Qv : A -> Prop) (e : exn) : hoare R Qv (raise e).
Proof. intros s. simpl. reflexivity. Qed.

Lemma keeps_raise {A} (e : exn) : keeps R (raise e : M S A).
Proof. apply hoare_raise. Qed.

Lemma hoare_bind {A B} (Qa : A -> Prop) (Qb : B -> Prop) (m : M S A) (f : A -> M S B) :
  hoare R Qa m -> (forall a, Qa a -> hoare R Qb (f a)) -> hoare R Qb (m ≫= f).
Proof.
  intros Hm Hf s. unfold mbind, M_bind, bind. specialize (Hm s).
  destruct (m s) as [a s1|e s1]; [|exact Hm].
  destruct Hm as [H1 Ha]. specialize (Hf a Ha s1).
  destruct (f a s1) as [b s2|e s2].
  - destruct Hf as [H2 Hb]. split; [by transitivity s1 | exact Hb].
  - by transitivity s1.
Qed.

Lemma keeps_bind {A B} (m : M S A) (f : A -> M S B) :
  keeps R m -> (forall a, keeps R (f a)) -> keeps R (m ≫= f).
Proof.
  intros Hm Hf. apply (hoare_bind (fun _ => True)); [exact Hm | intros a _; apply Hf].
Qed.

Lemma hoare_weaken {A} (Q Q' : A -> Prop) (m : M S A) :
  hoare R Q m -> (forall a, Q a -> Q' a) -> hoare R Q' m.
Proof.
  intros Hm HQ s. specialize (Hm s). destruct (m s); [|done].
  destruct Hm. split; auto.
Qed.

Lemma keeps_get : keeps R (get : M S S).
Proof. intros s. simpl. split; [reflexivity | done]. Qed.

Lemma keeps_index {A} (o : option A) : keeps R (index o : M S A).
Proof. destruct o; [apply keeps_ret | apply keeps_raise]. Qed.

Lemma keeps_assert (b : bool) : keeps R (assert b : M S unit).
Proof. destruct b; [apply keeps_ret | apply keeps_raise]. Qed.

Lemma keeps_modify (f : S -> S) : (forall s, R s (f s)) -> keeps R (modify f).
Proof. intros Hf s. simpl. split; [apply Hf | done]. Qed.

Lemma keeps_for_each {A} (xs : list A) (body : A -> M S unit) :
  (forall x, keeps R (body x)) -> keeps R (for_each xs body).
Proof.
  intros Hb. induction xs as [|x xs IH]; simpl.
  - apply keeps_ret.
  - apply keeps_bind; [apply Hb | intros _; exact IH].
Qed.

Lemma keeps_for_range (n : nat) (body : nat -> M S unit) :
  (forall i, keeps R (body i)) -> keeps R (for_range n body).
Proof. apply keeps_for_each. Qed.

End Rules.

Lemma keeps_mono {S A} (R1 R2 : S -> S -> Prop) (m : M S A) :
  (forall s s', R1 s s' -> R2 s s') -> keeps R1 m -> keeps R2 m.
Proof.
  intros Hsub Hm s. specialize (Hm s). destruct (m s); [|by apply Hsub].
  destruct Hm. split; [by apply Hsub | done].
Qed.

(** [arr[j]] either raises, with the state as it was, or is the view
    [(arr, j)]. *)
Lemma keeps_bind_mk_view {ext : Externals} {T B} (R : state T -> state T -> Prop)
    `{!PreOrder R} (arr : loc) (j : nat) (f : view -> M (state T) B) :
  keeps R (f (arr, j)) -> keeps R (mk_view arr j ≫= f).
Proof.
  intros Hf s. unfold mk_view, mbind, M_bind, bind, get, index; simpl.
  destruct (read_view (heap s) (arr, j)); simpl; [apply Hf | reflexivity].
Qed.

(** A lookup either raises, with the state as it was, or yields the entry. *)
Lemma keeps_bind_index {S A B} (R : S -> S -> Prop) `{!PreOrder R}
    (o : option A) (f : A -> M S B) :
  (forall a, o = Some a -> keeps R (f a)) -> keeps R (index o ≫= f).
Proof.
  intros Hf s. destruct o as [a|]; unfold mbind, M_bind, bind, index; simpl.
  - by apply Hf.
  - reflexivity.
Qed.

Lemma keeps_bind_ret {S A B} (R : S -> S -> Prop) (a : A) (f : A -> M S B) :
  keeps R (f a) -> keeps R (mret a ≫= f).
Proof. intros Hf s. exact (Hf s). Qed.

(** Discharges the [PreOrder] side goal an [apply] may leave. *)
Ltac po := try lazymatch goal with |- PreOrder _ => typeclasses eauto end.

(** The structural part of a [keeps] proof. *)
Ltac keeps_tidy :=
  lazymatch goal with
  | |- PreOrder _ => typeclasses eauto
  | |- forall _, _ => intros ?
  | |- _ => idtac
  end.

Ltac keeps_step :=
  match goal with
  | |- keeps _ (mbind _ (mk_view _ _)) => apply keeps_bind_mk_view; keeps_tidy; cbv beta
  | |- keeps _ (mbind _ (index _)) => apply keeps_bind_index; po; intros ? ?
  | |- keeps _ (mbind _ (mret _)) => apply keeps_bind_ret; cbv beta
  | |- keeps _ (mbind _ _) => apply keeps_bind; keeps_tidy
  | |- keeps _ (mret _) => apply keeps_ret; keeps_tidy
  | |- keeps _ (raise _) => apply keeps_raise; keeps_tidy
  | |- keeps _ get => apply keeps_get; keeps_tidy
  | |- keeps _ (index _) => apply keeps_index; keeps_tidy
  | |- keeps _ (assert _) => apply keeps_assert; keeps_tidy
  | |- keeps _ (for_range _ _) => apply keeps_for_range; keeps_tidy
  | |- keeps _ (for_each _ _) => apply keeps_for_each; keeps_tidy
  | |- keeps _ (if ?c then _ else _) => destruct c
  | |- keeps _ (let '(_, _) := ?p in _) => destruct p
  | |- keeps _ (match ?x with _ => _ end) => destruct x
  end.

Ltac keeps_auto := repeat keeps_step.

(** ** Arithmetic of canonical rationals, through [Q] *)

Lemma this_plus (x y : Qc) : (this (x + y) == this x + this y)%Q.
Proof. apply Qred_correct. Qed.
Lemma this_mult (x y : Qc) : (this (x * y) == this x * this y)%Q.
Proof. apply Qred_correct. Qed.
Lemma this_opp (x : Qc) : (this (- x) == - this x)%Q.
Proof. apply Qred_correct. Qed.
Lemma this_minus (x y : Qc) : (this (x - y) == this x - this y)%Q.
Proof. unfold Qcminus. rewrite this_plus, this_opp. reflexivity. Qed.
Lemma this_inv (x : Qc) : (this (/ x) == / this x)%Q.
Proof. apply Qred_correct. Qed.
Lemma this_div (x y : Qc) : (this (x / y) == this x / this y)%Q.
Proof. unfold Qcdiv. rewrite this_mult, this_inv. reflexivity. Qed.

Lemma Qc_eq_Qeq (x y : Qc) : x = y -> (this x == this y)%Q.
Proof. intros ->. reflexivity. Qed.

(** Turns a goal about [Qc] into one about [Q], where [lra] applies. *)
Ltac to_Q :=
  unfold Qclt, Qcle in *;
  repeat match goal with
  | H : @eq Qc _ _ |- _ => apply Qc_eq_Qeq in H
  | |- @eq Qc _ _ => apply Qc_is_canon
  end;
  repeat first
    [ rewrite this_plus in * | rewrite this_minus in * | rewrite this_mult in *
    | rewrite this_div in * | rewrite this_opp in * | rewrite this_inv in * ];
  change (this (Q2Qc 0)) with 0%Q in *;
  change (this (Q2Qc 1)) with 1%Q in *.

Lemma Qc_of_nat_lt (m n : nat) : (m < n)%nat -> Qc_of_nat m < Qc_of_nat n.
Proof.
  intros Hlt. unfold Qc_of_nat, Qclt.
  change (inject_Z (Z.of_nat m) < inject_Z (Z.of_nat n))%Q. rewrite <- Zlt_Qlt. lia.
Qed.

Lemma Qc_of_nat_nonneg (m : nat) : 0 ≤ Qc_of_nat m.
Proof.
  unfold Qc_of_nat, Qcle.
  change (inject_Z 0 <= inject_Z (Z.of_nat m))%Q. rewrite <- Zle_Qle. lia.
Qed.

Lemma Qc_of_nat_0 : Qc_of_nat 0 = 0.
Proof. apply Qc_is_canon. reflexivity. Qed.

Lemma Qc_of_nat_inj (m n : nat) : Qc_of_nat m = Qc_of_nat n -> m = n.
Proof.
  intros Heq. apply (f_equal this) in Heq. unfold Qc_of_nat in Heq. simpl in Heq.
  injection Heq as Heq. lia.
Qed.

(** ** Frames: what a piece of the kernels can and cannot touch *)

(** Two states agree on an observation [π]. *)
Definition same_on {S X} (π : S -> X) : S -> S -> Prop := fun s s' => π s' = π s.

Global Instance same_on_preorder {S X} (π : S -> X) : PreOrder (same_on π).
Proof.
  split.
  - intros s. reflexivity.
  - intros s1 s2 s3 H12 H23. unfold same_on in *. congruence.
Qed.

Lemma read_write_view_ne (h : gmap loc matrix) (v v' : view) (r : row) :
  v ≠ v' -> read_view (write_view h v r) v' = read_view h v'.
Proof.
  intros Hne. unfold read_view, write_view.
  destruct v as [l j], v' as [l' j']; simpl.
  destruct (decide (l = l')) as [->|Hl].
  - rewrite lookup_alter_eq. destruct (h !! l') as [m|]; simpl; [|done].
    apply list_lookup_insert_ne. congruence.
  - by rewrite lookup_alter_ne.
Qed.

Lemma read_write_view_id (h : gmap loc matrix) (v v' : view) (r : row) :
  read_view h v = Some r -> read_view (write_view h v r) v' = read_view h v'.
Proof.
  intros Hr. unfold read_view, write_view in *.
  destruct v as [l j], v' as [l' j']; simpl in *.
  destruct (decide (l = l')) as [->|Hl].
  - rewrite lookup_alter_eq. destruct (h !! l') as [m|]; simpl in *; [|done].
    by rewrite list_insert_id.
  - by rewrite lookup_alter_ne.
Qed.

Section Frames.
Context {ext : Externals} {T : Type}.
Context (R : state T -> state T -> Prop) `{!PreOrder R}.

(** [R] is indifferent to what is written through the view [v]. *)
Definition StoreOk (v : view) : Prop :=
  forall s r, R s (set_heap (fun h => write_view h v r) s).
(** [R] is indifferent to the contents of the array [arr]. *)
Definition ArrayOk (arr : loc) : Prop :=
  forall s f, R s (set_heap (fun h => alter f arr h) s).
(** [R] is indifferent to the generator state. *)
Definition RngOk : Prop := forall s r, R s (set_rng r s).
(** [R] is indifferent to what is printed. *)
Definition PrintOk : Prop := forall s msg, R s (emit (EvPrint msg) s).

Lemma keeps_mk_view arr j : keeps R (mk_view arr j).
Proof. unfold mk_view. keeps_auto. Qed.

Lemma keeps_load v : keeps R (load v).
Proof. unfold load. keeps_auto. Qed.

Lemma keeps_getc v d : keeps R (getc v d).
Proof. unfold getc. keeps_auto. apply keeps_load. Qed.

Lemma keeps_store v r : StoreOk v -> keeps R (store v r).
Proof. intros Hv. apply keeps_modify; keeps_tidy. apply Hv. Qed.

Lemma keeps_setc v d x : StoreOk v -> keeps R (setc v d x).
Proof.
  intros Hv. unfold setc. keeps_auto; [apply keeps_load | by apply keeps_store].
Qed.

Lemma keeps_add_at v d x : StoreOk v -> keeps R (add_at v d x).
Proof.
  intros Hv. unfold add_at. keeps_auto; [apply keeps_getc | by apply keeps_setc].
Qed.

Lemma keeps_fill_from ds (f : nat -> M (state T) Qc) :
  (forall d, keeps R (f d)) -> keeps R (fill_from ds f).
Proof.
  intros Hf. induction ds as [|d ds IH]; simpl; keeps_auto; auto.
Qed.

Lemma keeps_fill n (f : nat -> M (state T) Qc) :
  (forall d, keeps R (f d)) -> keeps R (fill n f).
Proof. apply keeps_fill_from. Qed.

Lemma keeps_fill_slice_from len ds (f : nat -> M (state T) Qc) :
  (forall d, keeps R (f d)) -> keeps R (fill_slice_from len ds f).
Proof.
  intros Hf. induction ds as [|d ds IH]; simpl; keeps_auto; auto.
Qed.

Lemma keeps_fill_slice len n (f : nat -> M (state T) Qc) :
  (forall d, keeps R (f d)) -> keeps R (fill_slice len n f).
Proof. apply keeps_fill_slice_from. Qed.

(** A kernel call preceded by the record of its entry. *)
Lemma keeps_entered n alpha (m : M (state T) unit) :
  (forall s, R s (emit (EvKernel n alpha) s)) -> keeps R m ->
  keeps R (enter n alpha;; m).
Proof.
  intros Henter Hm. apply keeps_bind; [done| |by intros _].
  unfold enter. apply keeps_modify. exact Henter.
Qed.

Lemma keeps_print msg : PrintOk -> keeps R (print msg).
Proof. intros Hp. apply keeps_modify; keeps_tidy. apply Hp. Qed.

Lemma keeps_next_random : RngOk -> keeps R next_random.
Proof.
  intros Hr. unfold next_random. keeps_auto.
  apply keeps_modify; keeps_tidy. apply Hr.
Qed.

Lemma keeps_draw_vertex nv : RngOk -> keeps R (draw_vertex nv).
Proof. intros Hr. unfold draw_vertex. keeps_auto. by apply keeps_next_random. Qed.

Lemma keeps_call_idx_grad fn idx pt grad :
  StoreOk pt -> keeps R (call_idx_grad fn idx pt grad).
Proof.
  intros Hv. unfold call_idx_grad. keeps_auto;
    first [apply keeps_load | by apply keeps_store].
Qed.

Lemma keeps_call_grad fn pt grad : StoreOk pt -> keeps R (call_grad fn pt grad).
Proof.
  intros Hv. unfold call_grad. keeps_auto;
    first [apply keeps_load | by apply keeps_store].
Qed.

Lemma keeps_call_idx_pt fn idx pt : StoreOk pt -> keeps R (call_idx_pt fn idx pt).
Proof.
  intros Hv. unfold call_idx_pt. keeps_auto;
    first [apply keeps_load | by apply keeps_store].
Qed.

Lemma keeps_call_pt fn pt : StoreOk pt -> keeps R (call_pt fn pt).
Proof.
  intros Hv. unfold call_pt. keeps_auto;
    first [apply keeps_load | by apply keeps_store].
Qed.

Lemma keeps_call_emb fn arr : ArrayOk arr -> keeps R (call_emb fn arr).
Proof.
  intros Ha. unfold call_emb. keeps_auto.
  apply keeps_modify; keeps_tidy. apply Ha.
Qed.

Lemma keeps_push_along dim alpha c pt grad :
  StoreOk pt -> keeps R (push_along dim alpha c pt grad).
Proof. intros Hv. unfold push_along. keeps_auto. by apply keeps_add_at. Qed.

End Frames.

(** Facts of the form "[R] does not look at this part of the state". *)
Create HintDb frames discriminated.

Ltac frame_side :=
  lazymatch goal with
  | |- keeps _ _ => idtac
  | |- PreOrder _ => typeclasses eauto
  | |- _ => first [ assumption | solve [eauto 3 with frames] | idtac ]
  end.

(** The store primitives, each by its own lemma. *)
Ltac keeps_prim :=
  lazymatch goal with
  | |- keeps _ (mk_view _ _) => apply keeps_mk_view
  | |- keeps _ (load _) => apply keeps_load
  | |- keeps _ (getc _ _) => apply keeps_getc
  | |- keeps _ (store _ _) => apply keeps_store
  | |- keeps _ (setc _ _ _) => apply keeps_setc
  | |- keeps _ (add_at _ _ _) => apply keeps_add_at
  | |- keeps _ (fill _ _) => apply keeps_fill; keeps_tidy
  | |- keeps _ (fill_slice _ _ _) => apply keeps_fill_slice; keeps_tidy
  | |- keeps _ (enter _ _) => unfold enter; apply keeps_modify; keeps_tidy
  | |- keeps _ (print _) => apply keeps_print
  | |- keeps _ next_random => apply keeps_next_random
  | |- keeps _ (draw_vertex _) => apply keeps_draw_vertex
  | |- keeps _ (call_idx_grad _ _ _ _) => apply keeps_call_idx_grad
  | |- keeps _ (call_grad _ _ _) => apply keeps_call_grad
  | |- keeps _ (call_idx_pt _ _ _) => apply keeps_call_idx_pt
  | |- keeps _ (call_pt _ _) => apply keeps_call_pt
  | |- keeps _ (call_emb _ _) => apply keeps_call_emb
  | |- keeps _ (push_along _ _ _ _ _) => apply keeps_push_along
  | |- keeps _ (modify _) => apply keeps_modify; keeps_tidy
  end; frame_side.

(** Lemmas about larger pieces are added to this tactic as they are proved. *)
Ltac keeps_more := fail.

Ltac keeps_solve :=
  repeat first [ keeps_step | keeps_prim | keeps_more ].

(** ** Frames of the Euclidean kernels *)

Section EuclidFrames.
Context {ext : Externals}.
Context (R : state1 -> state1 -> Prop) `{!PreOrder R}.

(** [R] is indifferent to the two schedule arrays. *)
Definition EonsOk : Prop := forall s f, R s (set_eons f s).
Definition EonnsOk : Prop := forall s f, R s (set_eonns f s).

Lemma keeps_bump_sample eps i : EonsOk -> keeps R (bump_sample eps i).
Proof.
  intros He. unfold bump_sample. keeps_solve.
Qed.

Lemma keeps_neg_count n epns i : keeps R (neg_count n epns i).
Proof. unfold neg_count. keeps_solve. Qed.

Lemma keeps_bump_negative epns i c : EonnsOk -> keeps R (bump_negative epns i c).
Proof.
  intros He. unfold bump_negative. keeps_solve.
Qed.

Lemma keeps_grad_cor_coeff k i j kk d : keeps R (grad_cor_coeff k i j kk d).
Proof. unfold grad_cor_coeff. keeps_solve. Qed.

Lemma keeps_positive_coeff k i j kk d : keeps R (positive_coeff k i j kk d).
Proof. unfold positive_coeff. keeps_solve. apply keeps_grad_cor_coeff. Qed.

Lemma keeps_apply_clipped k pt grad :
  StoreOk R pt -> keeps R (apply_clipped k pt grad).
Proof. intros Hv. unfold apply_clipped. keeps_solve. Qed.

Lemma keeps_attract k j kk current other c :
  StoreOk R current -> StoreOk R other -> keeps R (attract k j kk current other c).
Proof.
  intros Hc Ho. unfold attract.
  keeps_solve; by apply keeps_apply_clipped.
Qed.

Lemma keeps_repel k j current other c :
  StoreOk R current -> keeps R (repel k j current other c).
Proof.
  intros Hc. unfold repel.
  keeps_solve; by apply keeps_apply_clipped.
Qed.

Lemma keeps_negative_sample k j current :
  StoreOk R current -> RngOk R -> keeps R (negative_sample k j current).
Proof.
  intros Hc Hr. unfold negative_sample.
  keeps_solve; by apply keeps_repel.
Qed.

Lemma keeps_attract_para k j kk current other c :
  StoreOk R current -> StoreOk R other ->
  keeps R (attract_para k j kk current other c).
Proof.
  intros Hc Ho. unfold attract_para.
  keeps_solve; by apply keeps_apply_clipped.
Qed.

Lemma keeps_repel_para k j current other c :
  StoreOk R current -> keeps R (repel_para k j current other c).
Proof.
  intros Hc. unfold repel_para.
  keeps_solve; by apply keeps_apply_clipped.
Qed.

Lemma keeps_negative_sample_para k j current :
  StoreOk R current -> RngOk R -> keeps R (negative_sample_para k j current).
Proof.
  intros Hc Hr. unfold negative_sample_para.
  keeps_solve; by apply keeps_repel_para.
Qed.

End EuclidFrames.

Ltac keeps_more ::=
  lazymatch goal with
  | |- keeps _ (attract_para _ _ _ _ _ _) => apply keeps_attract_para
  | |- keeps _ (repel_para _ _ _ _ _) => apply keeps_repel_para
  | |- keeps _ (negative_sample_para _ _ _) => apply keeps_negative_sample_para
  | |- keeps _ (bump_sample _ _) => apply keeps_bump_sample
  | |- keeps _ (neg_count _ _ _) => apply keeps_neg_count
  | |- keeps _ (bump_negative _ _ _) => apply keeps_bump_negative
  | |- keeps _ (grad_cor_coeff _ _ _ _ _) => apply keeps_grad_cor_coeff
  | |- keeps _ (positive_coeff _ _ _ _ _) => apply keeps_positive_coeff
  | |- keeps _ (apply_clipped _ _ _) => apply keeps_apply_clipped
  | |- keeps _ (attract _ _ _ _ _ _) => apply keeps_attract
  | |- keeps _ (repel _ _ _ _ _) => apply keeps_repel
  | |- keeps _ (negative_sample _ _ _) => apply keeps_negative_sample
  end; frame_side.

(** ** Frames of a whole epoch of the Euclidean kernels

    What a kernel keeps, given what its positive update and its negative
    sample keep when they are handed the views the kernel hands them. *)

Section KernelFrames.
Context {ext : Externals}.
Context (R : state1 -> state1 -> Prop) `{!PreOrder R}.
Context (k : kparams).
Hypothesis Hattract : forall j kk c,
  keeps R (attract k j kk (head_embedding k, j) (tail_embedding k, kk) c).
Hypothesis Hnegative : forall j, keeps R (negative_sample k j (head_embedding k, j)).
Hypothesis Heons : EonsOk R.
Hypothesis Heonns : EonnsOk R.

Lemma keeps_edge_seq_with i : keeps R (edge_seq k i).
Proof.
  unfold edge_seq.
  repeat first [ apply Hattract | apply Hnegative | keeps_step | keeps_prim | keeps_more ].
Qed.

Lemma keeps_assert_same_embedding : keeps R (assert_same_embedding k).
Proof. unfold assert_same_embedding. keeps_solve. Qed.

Lemma keeps_kernel_seq_with : keeps R (_optimize_layout_euclidean_single_epoch k).
Proof.
  unfold _optimize_layout_euclidean_single_epoch. keeps_solve.
  - apply keeps_assert_same_embedding.
  - apply keeps_edge_seq_with.
Qed.

End KernelFrames.

Section KernelFramesPara.
Context {ext : Externals}.
Context (R : state1 -> state1 -> Prop) `{!PreOrder R}.
Context (k : kparams).
Hypothesis Hattract : forall j kk c,
  keeps R (attract_para k j kk (head_embedding k, j) (tail_embedding k, kk) c).
Hypothesis Hnegative : forall j,
  keeps R (negative_sample_para k j (head_embedding k, j)).
Hypothesis Heons : EonsOk R.
Hypothesis Heonns : EonnsOk R.

Lemma keeps_edge_para_with i : keeps R (edge_para k i).
Proof.
  unfold edge_para.
  repeat first [ apply Hattract | apply Hnegative | keeps_step | keeps_prim | keeps_more ].
Qed.

Lemma keeps_kernel_para_with order :
  keeps R (_optimize_layout_euclidean_single_epoch_para order k).
Proof.
  unfold _optimize_layout_euclidean_single_epoch_para. keeps_solve.
  - by apply keeps_assert_same_embedding.
  - apply keeps_edge_para_with.
Qed.

End KernelFramesPara.

(** ** Relations that do not look at the arrays at all *)

Section Blind.
Context {ext : Externals}.
Context (R : state1 -> state1 -> Prop) `{!PreOrder R}.

Definition HeapOk : Prop := forall s f, R s (set_heap f s).

Lemma HeapOk_store (v : view) : HeapOk -> StoreOk R v.
Proof. intros Hh s r. apply Hh. Qed.

Lemma HeapOk_array (arr : loc) : HeapOk -> ArrayOk R arr.
Proof. intros Hh s f. apply Hh. Qed.

Hypothesis Hheap : HeapOk.
Hypothesis Hrng : RngOk R.
Hypothesis Heons : EonsOk R.
Hypothesis Heonns : EonnsOk R.

Lemma keeps_kernel_seq k : keeps R (_optimize_layout_euclidean_single_epoch k).
Proof.
  apply keeps_kernel_seq_with; try done.
  - intros. apply keeps_attract; [done | by apply HeapOk_store..].
  - intros. apply keeps_negative_sample; [done | by apply HeapOk_store | done].
Qed.

Lemma keeps_kernel_para order k :
  keeps R (_optimize_layout_euclidean_single_epoch_para order k).
Proof.
  apply keeps_kernel_para_with; try done.
  - intros. apply keeps_attract_para; [done | by apply HeapOk_store..].
  - intros. apply keeps_negative_sample_para; [done | by apply HeapOk_store | done].
Qed.

(** A call of the kernel keeps [R] if recording the entry does. *)
Lemma keeps_optimize_fn A k :
  (forall s, R s (emit (EvKernel (n k) (alpha k)) s)) -> keeps R (optimize_fn A k).
Proof.
  intros Henter. unfold optimize_fn. apply keeps_bind; [done| |].
  - unfold enter. apply keeps_modify. exact Henter.
  - intros _. destruct (parallel A);
      [apply keeps_kernel_para | apply keeps_kernel_seq].
Qed.

Lemma keeps_densmap_edges he te hd tl a b edges re_sum phi_sum :
  keeps R (densmap_edges he te hd tl a b edges re_sum phi_sum).
Proof.
  revert re_sum phi_sum. induction edges as [|i edges IH]; intros re_sum phi_sum;
    simpl; keeps_solve. apply IH.
Qed.

Lemma keeps_densmap_epoch_init he te hd tl a b re_sum phi_sum :
  keeps R (_optimize_layout_euclidean_densmap_epoch_init he te hd tl a b re_sum phi_sum).
Proof.
  unfold _optimize_layout_euclidean_densmap_epoch_init. keeps_solve.
  apply keeps_densmap_edges.
Qed.

End Blind.

(** ** Running a computation by hand *)

Lemma bind_ok {S A B} (m : M S A) (f : A -> M S B) s a s1 :
  m s = Ok a s1 -> (m ≫= f) s = f a s1.
Proof. intros Hm. unfold mbind, M_bind, bind. by rewrite Hm. Qed.

Lemma bind_err {S A B} (m : M S A) (f : A -> M S B) s e s1 :
  m s = Err e s1 -> (m ≫= f) s = Err e s1.
Proof. intros Hm. unfold mbind, M_bind, bind. by rewrite Hm. Qed.

Lemma rdist_from_diag (x : list Qc) (acc : Qc) : rdist_from acc x x = acc.
Proof.
  revert acc. induction x as [|xd x IH]; intros acc; simpl; [done|].
  rewrite IH. unfold Qcminus. rewrite Qcplus_opp_r, Qcmult_0_l. apply Qcplus_0_r.
Qed.

(** [squared_distance(x, x) == 0]. *)
Lemma rdist_diag (x : list Qc) : rdist x x = 0.
Proof. apply rdist_from_diag. Qed.

Lemma fgt_irrefl (x : Qc) : fgt x x = false.
Proof.
  unfold fgt. apply bool_decide_eq_false. intros Hlt. by apply Qclt_not_eq in Hlt.
Qed.

Section Partner.
Context {ext : Externals}.

(** The row seen through [v] is the same in both states. *)
Definition unch (v : view) : state1 -> state1 -> Prop :=
  same_on (fun s => read_view (heap s) v).

Lemma unch_store_other (v v' : view) : v ≠ v' -> StoreOk (unch v') v.
Proof.
  intros Hne s r. unfold unch, same_on, set_heap; simpl.
  by apply read_write_view_ne.
Qed.

Lemma unch_rng (v : view) : RngOk (unch v).
Proof. intros s r. reflexivity. Qed.

Lemma draw_vertex_heap (nv : nat) (s s1 : state1) (kk : nat) :
  draw_vertex nv s = Ok kk s1 -> heap s1 = heap s.
Proof.
  intros Hd.
  pose proof (keeps_final (same_on heap) _
                (keeps_draw_vertex (same_on heap) nv (fun s r => eq_refl)) s) as Hk.
  rewrite Hd in Hk. exact Hk.
Qed.

(** C6.  A negative sample of the Euclidean kernels leaves the coordinates
    of the vertex it drew as they were: whatever the kernel parameters are,
    [move_other] among them, the row of [tail_embedding] at the sampled
    index reads the same after the update as before it, in the sequential
    kernel and in the parallel kernel alike. *)
Theorem negative_sample_leaves_partner (k : kparams) (j kk : nat) (s s1 : state1) :
  draw_vertex (n_vertices k) s = Ok kk s1 ->
  read_view (heap (final (negative_sample k j (head_embedding k, j) s)))
            (tail_embedding k, kk)
  = read_view (heap s) (tail_embedding k, kk) /\
  read_view (heap (final (negative_sample_para k j (head_embedding k, j) s)))
            (tail_embedding k, kk)
  = read_view (heap s) (tail_embedding k, kk).
Proof.
  intros Hdraw. pose proof (draw_vertex_heap _ _ _ _ Hdraw) as Hheap.
  unfold negative_sample, negative_sample_para.
  rewrite !(bind_ok _ _ _ _ _ Hdraw). rewrite <- Hheap.
  set (other := (tail_embedding k, kk)). set (current := (head_embedding k, j)).
  assert (Hrepel : forall c, current ≠ other ->
            read_view (heap (final (repel k j current other c s1))) other
            = read_view (heap s1) other).
  { intros c Hne.
    apply (keeps_final (unch other)).
    apply keeps_repel; [typeclasses eauto | by apply unch_store_other]. }
  assert (Hrepel_para : forall c, current ≠ other ->
            read_view (heap (final (repel_para k j current other c s1))) other
            = read_view (heap s1) other).
  { intros c Hne.
    apply (keeps_final (unch other)).
    apply keeps_repel_para; [typeclasses eauto | by apply unch_store_other]. }
  unfold mk_view, load, get, index.
  unfold mbind, M_bind, bind; simpl.
  fold other.
  destruct (read_view (heap s1) other) as [oth|] eqn:Hoth; simpl; [|by rewrite Hoth].
  destruct (read_view (heap s1) current) as [cur|] eqn:Hcur; simpl; [|done].
  rewrite Hoth; simpl.
  destruct (fgt (rdist cur oth) 0) eqn:Hd.
  - assert (Hne : current ≠ other).
    { intros Heq. rewrite Heq, Hoth in Hcur.
      injection Hcur as ->. by rewrite rdist_diag, fgt_irrefl in Hd. }
    by rewrite Hrepel, Hrepel_para.
  - destruct (bool_decide (j = kk)) eqn:Hjk; simpl; [done|].
    assert (Hne : current ≠ other).
    { intros Heq. apply bool_decide_eq_false in Hjk. apply Hjk.
      unfold current, other in Heq. congruence. }
    by rewrite Hrepel, Hrepel_para.
Qed.

End Partner.

(** The witness of C6: vertex 0 is drawn for the edge whose head is vertex 1. *)
Lemma negative_sample_leaves_partner_witness :
  draw_vertex (ext:=demo) 2 at_epoch1 = Ok 0%nat (@set_rng demo (list Qc) 1%Z at_epoch1) /\
  read_view (heap (final (negative_sample (ext:=demo) (kp true) 1 (1%positive, 1%nat)
                            at_epoch1))) (1%positive, 0%nat)
  = read_view (heap at_epoch1) (1%positive, 0%nat) /\
  read_view (heap (final (negative_sample_para (ext:=demo) (kp true) 1 (1%positive, 1%nat)
                            at_epoch1))) (1%positive, 0%nat)
  = read_view (heap at_epoch1) (1%positive, 0%nat).
Proof.
  split; [reflexivity|].
  exact (negative_sample_leaves_partner (ext:=demo) (kp true) 1 0 at_epoch1 _ eq_refl).
Defined.

(** ** The opening assertions of the Euclidean kernels *)

Lemma forallb_zip_lookup {A B} (f : A * B -> bool) (l1 : list A) (l2 : list B) i a b :
  forallb f (zip l1 l2) = true -> l1 !! i = Some a -> l2 !! i = Some b -> f (a, b) = true.
Proof.
  revert l2 i. induction l1 as [|a1 l1 IH]; intros [|b1 l2] [|i]; simpl; try done.
  - intros Hf [= ->] [= ->]. by apply andb_true_iff in Hf as [? _].
  - intros Hf H1 H2. apply andb_true_iff in Hf as [_ Hf]. by eapply IH.
Qed.

Lemma np_all_eq_lookup (x y : matrix) i d (u v : Qc) :
  np_all_eq x y = true ->
  x !! i ≫= (.!! d) = Some u -> y !! i ≫= (.!! d) = Some v -> u = v.
Proof.
  intros Hall Hx Hy.
  destruct (x !! i) as [r1|] eqn:H1; simpl in Hx; [|done].
  destruct (y !! i) as [r2|] eqn:H2; simpl in Hy; [|done].
  pose proof (forallb_zip_lookup _ _ _ _ _ _ Hall H1 H2) as Hrow. simpl in Hrow.
  pose proof (forallb_zip_lookup _ _ _ _ _ _ Hrow Hx Hy) as Hxy. simpl in Hxy.
  by apply bool_decide_eq_true in Hxy.
Qed.

Lemma forallb_zip_diag {A} (f : A * A -> bool) (l : list A) :
  (forall a, f (a, a) = true) -> forallb f (zip l l) = true.
Proof. intros Hf. induction l as [|a l IH]; simpl; [done|]. by rewrite Hf, IH. Qed.

Lemma np_all_eq_diag (x : matrix) : np_all_eq x x = true.
Proof.
  apply forallb_zip_diag. intros r. simpl.
  apply forallb_zip_diag. intros u. simpl. by apply bool_decide_eq_true.
Qed.

Section Assertions.
Context {ext : Externals}.

Lemma assert_same_embedding_differ (k : kparams) (s : state1) i d (x y : Qc) :
  deref (heap s) (head_embedding k) !! i ≫= (.!! d) = Some x ->
  deref (heap s) (tail_embedding k) !! i ≫= (.!! d) = Some y ->
  x ≠ y ->
  assert_same_embedding k s = Err AssertionError s.
Proof.
  intros Hx Hy Hne. unfold assert_same_embedding.
  unfold mbind, M_bind, bind, get; simpl.
  destruct (bool_decide _); simpl; [|done].
  destruct (np_all_eq _ _) eqn:Hall; simpl; [|done].
  exfalso. apply Hne. by eapply np_all_eq_lookup.
Qed.

(** C5, as the code has it.  The two Euclidean kernels take a head and a
    tail embedding that name the same array: their opening assertions then
    pass.  When the two arrays differ in some coordinate, both kernels stop
    at the assertion with [AssertionError], with nothing written; the
    docstring of [optimize_layout_euclidean] offers a separate
    [tail_embedding] as "the existing embedding to embed with respect to",
    and the Generic and Inverse kernels take one. *)
Theorem euclidean_kernels_need_equal_embeddings (k : kparams) (order : list nat)
    (s : state1) :
  (head_embedding k = tail_embedding k -> assert_same_embedding k s = Ok tt s) /\
  (forall i d (x y : Qc),
     deref (heap s) (head_embedding k) !! i ≫= (.!! d) = Some x ->
     deref (heap s) (tail_embedding k) !! i ≫= (.!! d) = Some y ->
     x ≠ y ->
     _optimize_layout_euclidean_single_epoch k s = Err AssertionError s /\
     _optimize_layout_euclidean_single_epoch_para order k s = Err AssertionError s).
Proof.
  split.
  - intros Heq. unfold assert_same_embedding.
    unfold mbind, M_bind, bind, get; simpl. rewrite Heq.
    rewrite bool_decide_eq_true_2 by done. simpl.
    by rewrite np_all_eq_diag.
  - intros i d x y Hx Hy Hne.
    pose proof (assert_same_embedding_differ k s i d x y Hx Hy Hne) as Ha.
    unfold _optimize_layout_euclidean_single_epoch,
      _optimize_layout_euclidean_single_epoch_para.
    by rewrite !(bind_err _ _ _ _ _ Ha).
Qed.

End Assertions.

(** The witness of C5: one array under both names passes the assertions,
    two arrays that differ at point 1 do not. *)
Lemma euclidean_kernels_need_equal_embeddings_witness :
  assert_same_embedding (ext:=demo) (kp true) at_epoch1 = Ok tt at_epoch1 /\
  _optimize_layout_euclidean_single_epoch (ext:=demo) kp_two_arrays at_two_arrays
  = Err AssertionError at_two_arrays /\
  _optimize_layout_euclidean_single_epoch_para (ext:=demo) [0; 1]%nat kp_two_arrays
    at_two_arrays
  = Err AssertionError at_two_arrays.
Proof.
  split.
  - exact (proj1 (euclidean_kernels_need_equal_embeddings (ext:=demo) (kp true) []
                    at_epoch1) eq_refl).
  - refine (proj2 (euclidean_kernels_need_equal_embeddings (ext:=demo) kp_two_arrays
                     [0; 1]%nat at_two_arrays) 1%nat 0%nat (q 1) (q 2) eq_refl eq_refl _).
    intros Heq. discriminate Heq.
Defined.

(** C5 at a particular input: with a head and a tail embedding in two
    arrays of different contents, both kernels raise [AssertionError] at
    once. *)
Lemma distinct_embeddings_abort :
  error_of (_optimize_layout_euclidean_single_epoch (ext:=demo) kp_two_arrays
              at_two_arrays) = Some AssertionError
  /\
  error_of (_optimize_layout_euclidean_single_epoch_para (ext:=demo) [0; 1]%nat
              kp_two_arrays at_two_arrays) = Some AssertionError.
Proof. split; vm_compute; reflexivity. Qed.

(** * What the code does at particular inputs *)

(** C1.  At epoch 1 only edge 0 is due (its entry is 1, that of edge 1 is
    5).  With [move_other] the sequential kernel, after the update of edge 0
    from vertex 0 to vertex 1, also executes
    [epoch_of_next_sample[k] += epochs_per_sample[k]] with [k] the tail
    vertex, so the entry of edge 1 goes from 5 to 10 although edge 1 did not
    fire.  Without [move_other], and in the parallel kernel, only entry 0
    changes. *)
Theorem firing_edge_bumps_tail_entry :
  fractions (eons at_epoch1) = [1; 5]%Q /\
  fractions (eons (final (_optimize_layout_euclidean_single_epoch (ext:=demo)
                            (kp true) at_epoch1))) = [2; 10]%Q /\
  fractions (eons (final (_optimize_layout_euclidean_single_epoch (ext:=demo)
                            (kp false) at_epoch1))) = [2; 5]%Q /\
  fractions (eons (final (_optimize_layout_euclidean_single_epoch_para (ext:=demo)
                            [0; 1]%nat (kp true) at_epoch1))) = [2; 5]%Q.
Proof. repeat split; vm_compute; reflexivity. Qed.

(** C8.  With only an [epoch_pt] hook registered, the first epoch ends in
    [TypeError]: the driver tests [outconstrain_epoch_pt] and then calls
    [outconstrain_final_pt], which is [None]; the embedding is as it was, so
    the hook (which would add 1) has not run.  With both hooks registered
    (adding 1 and 100), one epoch leaves every coordinate 200 higher: the
    [final_pt] hook ran after the epoch and again at the end, the [epoch_pt]
    hook never. *)
Theorem epoch_pt_hook_is_not_called :
  let only_epoch := run_args 1 false (Some [("epoch_pt", shift 1)]) PinNone in
  let both := run_args 1 false
                (Some [("epoch_pt", shift 1); ("final_pt", shift (q 100))]) PinNone in
  error_of (optimize_layout_euclidean (ext:=demo) only_epoch (start line2))
    = Some TypeError /\
  rows_of 1 (final (optimize_layout_euclidean (ext:=demo) only_epoch (start line2)))
    = [[0]; [1]]%Q /\
  error_of (optimize_layout_euclidean (ext:=demo) both (start line2)) = None /\
  rows_of 1 (final (optimize_layout_euclidean (ext:=demo) both (start line2)))
    = [[200]; [201]]%Q.
Proof. repeat split; vm_compute; reflexivity. Qed.

(** C10.  A constraint dictionary with the key ["foo"]: the warning is
    printed, and the next statement, which prints the unbound name
    [recognized], raises [NameError]; no epoch runs. *)
Theorem unrecognized_key_raises :
  let A := run_args 3 false None (PinDict [("foo", shift_pt 1)]) in
  error_of (optimize_layout_euclidean (ext:=demo) A (start line2)) = Some NameError /\
  log (final (optimize_layout_euclidean (ext:=demo) A (start line2)))
    = [EvPrint " Warning: unrecognized constraints key foo"].
Proof. repeat split; vm_compute; reflexivity. Qed.

(** * The driver *)

Lemma kernel_calls_app (l1 l2 : list event) :
  kernel_calls (l1 ++ l2) = kernel_calls l1 ++ kernel_calls l2.
Proof. unfold kernel_calls. apply omap_app. Qed.

Lemma kernel_calls_print (l : list event) (msg : string) :
  kernel_calls (l ++ [EvPrint msg]) = kernel_calls l.
Proof. rewrite kernel_calls_app. simpl. apply app_nil_r. Qed.

Section Configuration.
Context {ext : Externals}.

(** What a malformed pin-mask array does to the configuration. *)
Lemma configure_malformed_pin_mask (A : args) (m : ndarray) (s : state1) :
  pin_mask A = PinArray m ->
  nd_shape m ≠ [(shape2 (deref (heap s) (in_head_embedding A))).1] ->
  nd_shape m ≠ [(shape2 (deref (heap s) (in_head_embedding A))).1;
                (shape2 (deref (heap s) (in_head_embedding A))).2] ->
  exists e s1,
    configure A s = Err e s1 /\
    (e = AssertionError \/ e = ValueError) /\
    heap s1 = heap s /\
    kernel_calls (log s1) = kernel_calls (log s).
Proof.
  intros Hpin H1 H2. unfold configure. rewrite Hpin.
  unfold read_pin_array, print.
  unfold mbind, M_bind, bind, get, modify, assert; simpl.
  destruct (nd_shape m) as [|n0 [|n1 [|n2 sh]]] eqn:Hsh; simpl.
  - eexists _, _. split; [reflexivity|]. simpl.
    split; [by right|]. split; [done | apply kernel_calls_print].
  - rewrite bool_decide_eq_false_2.
    + simpl. eexists _, _. split; [reflexivity|]. simpl.
      split; [by left|]. split; [done | apply kernel_calls_print].
    + intros Heq. apply H1. f_equal. exact Heq.
  - rewrite bool_decide_eq_false_2.
    + simpl. eexists _, _. split; [reflexivity|]. simpl.
      split; [by left|]. split; [done | apply kernel_calls_print].
    + intros Heq. apply H2.
      change (length (deref (heap s) (in_head_embedding A)),
              length (hd [] (deref (heap s) (in_head_embedding A))))
        with (shape2 (deref (heap s) (in_head_embedding A))) in Heq.
      destruct (shape2 _) as [a1 a2]. simpl. congruence.
  - eexists _, _. split; [reflexivity|]. simpl.
    split; [by right|]. split; [done | apply kernel_calls_print].
Qed.

(** C9.  A pin-mask array whose shape is neither [(n_points,)] nor
    [(n_points, dim)] makes [optimize_layout_euclidean] raise at once
    ([AssertionError] for a one- or two-dimensional mask of the wrong
    extent, [ValueError] for any other rank): the arrays in the store are
    as they were and the epoch kernel has not been entered. *)
Theorem malformed_pin_mask_is_fatal (A : args) (m : ndarray) (s : state1) :
  pin_mask A = PinArray m ->
  nd_shape m ≠ [(shape2 (deref (heap s) (in_head_embedding A))).1] ->
  nd_shape m ≠ [(shape2 (deref (heap s) (in_head_embedding A))).1;
                (shape2 (deref (heap s) (in_head_embedding A))).2] ->
  (error_of (optimize_layout_euclidean A s) = Some AssertionError \/
   error_of (optimize_layout_euclidean A s) = Some ValueError) /\
  heap (final (optimize_layout_euclidean A s)) = heap s /\
  kernel_calls (log (final (optimize_layout_euclidean A s))) = kernel_calls (log s).
Proof.
  intros Hpin H1 H2.
  destruct (configure_malformed_pin_mask A m s Hpin H1 H2)
    as (e & s1 & Hc & He & Hh & Hl).
  unfold optimize_layout_euclidean. rewrite (bind_err _ _ _ _ _ Hc). simpl.
  repeat split; try done. destruct He as [-> | ->]; auto.
Qed.

End Configuration.

(** The witness of C9: a mask of three weights for an embedding of two
    points. *)
Lemma malformed_pin_mask_is_fatal_witness :
  let A := run_args 3 false None (PinArray (mkNd [3%nat] [q 0; q 1; q 1])) in
  (error_of (optimize_layout_euclidean (ext:=demo) A (start line2)) = Some AssertionError \/
   error_of (optimize_layout_euclidean (ext:=demo) A (start line2)) = Some ValueError) /\
  heap (final (optimize_layout_euclidean (ext:=demo) A (start line2))) = heap (start line2) /\
  kernel_calls (log (final (optimize_layout_euclidean (ext:=demo) A (start line2))))
  = kernel_calls (log (start line2)).
Proof.
  intros A.
  refine (malformed_pin_mask_is_fatal (ext:=demo) A (mkNd [3%nat] [q 0; q 1; q 1])
            (start line2) eq_refl _ _).
  - intros Heq. discriminate Heq.
  - intros Heq. discriminate Heq.
Defined.

(** ** What the configuration fixes *)

Section DriverFrames.
Context {ext : Externals}.
Context (R : state1 -> state1 -> Prop) `{!PreOrder R}.
Hypothesis Hprint : PrintOk R.
Hypothesis Heons : EonsOk R.
Hypothesis Heonns : EonnsOk R.

Lemma keeps_read_pin_dict d f1 f2 : keeps R (read_pin_dict d f1 f2).
Proof.
  revert f1 f2. induction d as [|[key v] d IH]; intros f1 f2; simpl; keeps_solve;
    apply IH.
Qed.

Lemma keeps_read_pin_array emb m : keeps R (read_pin_array emb m).
Proof. unfold read_pin_array. keeps_solve. Qed.

(** The configuration returns the hooks of [output_constrain] and the
    initial learning rate. *)
Lemma configure_spec (A : args) :
  hoare R (fun cv => su_out cv.1 = out_of (output_constrain A)
                     /\ l_alpha cv.2 = initial_alpha A)
    (configure A).
Proof.
  unfold configure.
  apply (hoare_bind R (fun _ => True)); [apply keeps_get; typeclasses eauto|].
  intros s _.
  apply (hoare_bind R (fun _ => True)); [by apply keeps_modify|]. intros _ _.
  apply (hoare_bind R (fun _ => True)); [by apply keeps_modify|]. intros _ _.
  apply (hoare_bind R (fun _ => True)).
  - destruct (pin_mask A);
      [apply keeps_read_pin_dict | apply keeps_read_pin_dict | apply keeps_read_pin_array].
  - intros [f1 f2] _. apply hoare_ret; [typeclasses eauto|].
    destruct (densmap A); simpl; auto.
Qed.

Lemma keeps_configure (A : args) : keeps R (configure A).
Proof. eapply hoare_keeps. apply configure_spec. Qed.

End DriverFrames.



Section ZeroEpochs.
Context {ext : Externals}.


End ZeroEpochs.



(** ** The learning rate *)

(** The learning rate the loop holds when it enters epoch [n]: the initial
    one at epochs 0 and 1, afterwards the value assigned at the end of epoch
    [n - 1]. *)
Definition alpha_at (initial_alpha : Qc) (n_epochs n : nat) : Qc :=
  initial_alpha * (1 - Qc_of_nat (pred n) / Qc_of_nat n_epochs).

Lemma alpha_at_0 (a0 : Qc) (N : nat) : alpha_at a0 N 0 = a0.
Proof.
  unfold alpha_at. simpl. rewrite Qc_of_nat_0.
  unfold Qcdiv, Qcminus. rewrite Qcmult_0_l.
  assert (Hopp : - (0 : Qc) = 0) by (apply Qc_is_canon; reflexivity).
  by rewrite Hopp, Qcplus_0_r, Qcmult_1_r.
Qed.

Lemma alpha_at_pos (a0 : Qc) (N n : nat) :
  0 < a0 -> (n < N)%nat -> 0 < alpha_at a0 N n.
Proof.
  intros Ha Hn. unfold alpha_at.
  assert (Hm : Qc_of_nat (pred n) < Qc_of_nat N) by (apply Qc_of_nat_lt; lia).
  assert (HN : 0 < Qc_of_nat N).
  { eapply Qcle_lt_trans; [apply (Qc_of_nat_nonneg (pred n)) | exact Hm]. }
  to_Q.
  assert (Hq : (this (Qc_of_nat (pred n)) / this (Qc_of_nat N) < 1)%Q).
  { apply Qlt_shift_div_r; lra. }
  generalize dependent (this (Qc_of_nat (pred n)) / this (Qc_of_nat N))%Q.
  intros t Ht. apply Qmult_lt_0_compat; lra.
Qed.

Lemma anneal_zero_only_at_end (a0 : Qc) (N m : nat) :
  a0 ≠ 0 -> (0 < N)%nat -> a0 * (1 - Qc_of_nat m / Qc_of_nat N) = 0 -> m = N.
Proof.
  intros Ha HN Hz. apply Qcmult_integral_l in Hz; [|done].
  assert (HN0 : Qc_of_nat N ≠ 0).
  { intros H0. rewrite <- Qc_of_nat_0 in H0.
    apply Qc_of_nat_inj in H0. lia. }
  assert (H1 : Qc_of_nat m / Qc_of_nat N = 1).
  { rewrite <- (Qcplus_0_r (Qc_of_nat m / Qc_of_nat N)), <- Hz. ring. }
  apply Qc_of_nat_inj.
  rewrite <- (Qcmult_div_r (Qc_of_nat m) (Qc_of_nat N) HN0), H1. ring.
Qed.

Section Entered.
Context {ext : Externals} {T : Type}.

(** The record of kernel entries has grown by the one entry [(n, alpha)]. *)
Definition entered (n : nat) (alpha : Qc) (s s' : state T) : Prop :=
  kernel_calls (log s') = kernel_calls (log s) ++ [(n, alpha)].

(** A kernel that records its entry from its own arguments and then leaves
    the record alone. *)
Lemma entered_then (n : nat) (alpha : Qc) (m : M (state T) unit) :
  keeps (same_on log) m -> keeps (entered n alpha) (enter n alpha;; m).
Proof.
  intros Hm s. unfold enter.
  rewrite (bind_ok (modify _) _ s tt _ eq_refl).
  specialize (Hm (emit (EvKernel n alpha) s)). unfold same_on in Hm.
  assert (Hgrow : forall s', log s' = log (emit (EvKernel n alpha) s) ->
                             entered n alpha s s').
  { intros s' Hs'. unfold entered. rewrite Hs'. simpl. by rewrite kernel_calls_app. }
  destruct (m (emit (EvKernel n alpha) s)) as [[] s'|e s'].
  - split; [|done]. apply Hgrow, Hm.
  - apply Hgrow, Hm.
Qed.

End Entered.

Section Anneal.
Context {ext : Externals}.
Context (A : args).

(** Every recorded entry into the kernel carries the learning rate
    [alpha_at] of its epoch. *)
Definition calls_ok (l : list event) : Prop :=
  forall n alpha, (n, alpha) ∈ kernel_calls l ->
    (n < n_epochs A)%nat /\ alpha = alpha_at (initial_alpha A) (n_epochs A) n.

Definition calls_stay_ok : state1 -> state1 -> Prop :=
  fun s s' => calls_ok (log s) -> calls_ok (log s').

Global Instance calls_stay_ok_preorder : PreOrder calls_stay_ok.
Proof.
  split.
  - intros s Hs. exact Hs.
  - intros s1 s2 s3 H12 H23 Hs. apply H23, H12, Hs.
Qed.

Lemma calls_stay_ok_same_log (s s' : state1) : log s' = log s -> calls_stay_ok s s'.
Proof. intros Hl Hs. by rewrite Hl. Qed.

Lemma calls_heap : HeapOk calls_stay_ok.
Proof. intros s f. by apply calls_stay_ok_same_log. Qed.
Lemma calls_rng : RngOk calls_stay_ok.
Proof. intros s r. by apply calls_stay_ok_same_log. Qed.
Lemma calls_eons : EonsOk calls_stay_ok.
Proof. intros s f. by apply calls_stay_ok_same_log. Qed.
Lemma calls_eonns : EonnsOk calls_stay_ok.
Proof. intros s f. by apply calls_stay_ok_same_log. Qed.
Lemma calls_print : PrintOk calls_stay_ok.
Proof.
  intros s msg Hs n alpha Hin. apply Hs.
  simpl in Hin. by rewrite kernel_calls_print in Hin.
Qed.

Lemma calls_emit (s : state1) (n : nat) :
  (n < n_epochs A)%nat ->
  calls_stay_ok s (emit (EvKernel n (alpha_at (initial_alpha A) (n_epochs A) n)) s).
Proof.
  intros Hn Hs m alpha Hin. simpl in Hin.
  rewrite kernel_calls_app in Hin. apply elem_of_app in Hin as [Hin|Hin].
  - by apply Hs.
  - simpl in Hin. apply list_elem_of_singleton in Hin. injection Hin as -> ->. done.
Qed.

(** The kernel records its entry from its own arguments and nothing else. *)
Lemma entered_optimize_fn (k : kparams) :
  keeps (entered (n k) (alpha k)) (optimize_fn A k).
Proof.
  unfold optimize_fn. apply entered_then.
  destruct (parallel A); [apply keeps_kernel_para | apply keeps_kernel_seq]; po;
    intros s f; reflexivity.
Qed.

Lemma epoch_spec (c : setup) (n : nat) (v : locals) :
  (n < n_epochs A)%nat ->
  l_alpha v = alpha_at (initial_alpha A) (n_epochs A) n ->
  hoare calls_stay_ok
    (fun v' => l_alpha v' = alpha_at (initial_alpha A) (n_epochs A) (S n))
    (epoch A c n v).
Proof.
  intros Hn Hv. unfold epoch.
  set (flag := _ && _ && _).
  apply (hoare_bind _ (fun v1 => l_alpha v1 = l_alpha v)); po.
  { destruct flag.
    - apply (hoare_bind _ (fun _ => True)); po.
      + apply keeps_densmap_epoch_init; po.
      + intros [re_sum phi_sum] _. by apply hoare_ret; po.
    - by apply hoare_ret; po. }
  intros v1 Hv1.
  apply (hoare_bind _ (fun _ => True)); po.
  { apply keeps_optimize_fn; po;
      [apply calls_heap | apply calls_rng | apply calls_eons | apply calls_eonns |].
    intros s. change (emit (EvKernel _ _) s) with (emit (EvKernel n (l_alpha v1)) s).
    rewrite Hv1, Hv. by apply calls_emit. }
  intros _ _.
  apply (hoare_bind _ (fun _ => True)); po.
  { destruct (is_not_None _).
    - apply keeps_call_emb; po. apply HeapOk_array, calls_heap.
    - apply keeps_ret; po. }
  intros _ _. apply hoare_ret; po. reflexivity.
Qed.

Lemma epoch_loop_spec (c : setup) (len n0 : nat) (v : locals) :
  (n0 + len <= n_epochs A)%nat ->
  l_alpha v = alpha_at (initial_alpha A) (n_epochs A) n0 ->
  keeps calls_stay_ok (epoch_loop A c (seq n0 len) v).
Proof.
  revert n0 v. induction len as [|len IH]; intros n0 v Hle Hv; simpl.
  - apply keeps_ret; po.
  - apply (hoare_bind _
             (fun v' => l_alpha v' = alpha_at (initial_alpha A) (n_epochs A) (S n0))); po.
    + apply epoch_spec; [lia | done].
    + intros v' Hv'. apply IH; [lia | done].
Qed.

Lemma driver_calls_ok : keeps calls_stay_ok (optimize_layout_euclidean A).
Proof.
  unfold optimize_layout_euclidean.
  apply (hoare_bind _ (fun cv => su_out cv.1 = out_of (output_constrain A)
                                 /\ l_alpha cv.2 = initial_alpha A)); po.
  { apply configure_spec; po;
      [apply calls_print | apply calls_eons | apply calls_eonns]. }
  intros [c v] [_ Hv]. simpl in Hv.
  apply keeps_bind; po.
  { apply epoch_loop_spec; [lia|]. by rewrite alpha_at_0. }
  intros _. apply keeps_bind; po.
  { destruct (is_not_None _).
    - apply keeps_call_emb; po. apply HeapOk_array, calls_heap.
    - apply keeps_ret; po. }
  intros _. apply keeps_ret; po.
Qed.

End Anneal.

Section LearningRate.
Context {ext : Externals}.

(** C3, as the code has it.  What the record of a run holds of the kernel
    is what the kernel was given: a call [optimize_fn A k] adds to it the one
    entry [(n k, alpha k)], read from the arguments [k] of the call.  In a
    run whose record starts empty, an entry for epoch [ep] with learning
    rate [lr] is for an epoch below [n_epochs], and
    [lr = initial_alpha * (1 - (ep-1)/n_epochs)], with [ep-1] read as 0 at
    [ep = 0]: epochs 0 and 1 both use [initial_alpha], because [alpha] is
    recomputed from [n] at the end of epoch [n].  For a positive
    [initial_alpha] it is strictly positive at every epoch, the last one
    included; and the annealing expression
    [initial_alpha * (1 - m/n_epochs)] of a nonzero [initial_alpha] is 0 only
    for [m = n_epochs], which no epoch of the loop reaches. *)
Theorem learning_rate_of_each_epoch (A : args) (s : state1) (ep : nat) (lr : Qc) :
  kernel_calls (log s) = [] ->
  (ep, lr) ∈ kernel_calls (log (final (optimize_layout_euclidean A s))) ->
  (forall k s0,
     kernel_calls (log (final (optimize_fn A k s0)))
     = kernel_calls (log s0) ++ [(n k, alpha k)]) /\
  (ep < n_epochs A)%nat /\
  lr = initial_alpha A * (1 - Qc_of_nat (pred ep) / Qc_of_nat (n_epochs A)) /\
  (0 < initial_alpha A -> 0 < lr) /\
  (forall m, initial_alpha A ≠ 0 ->
     initial_alpha A * (1 - Qc_of_nat m / Qc_of_nat (n_epochs A)) = 0 ->
     m = n_epochs A).
Proof.
  intros Hlog Hin.
  pose proof (keeps_final _ _ (driver_calls_ok A) s) as Hk.
  assert (Hs : calls_ok A (log s)).
  { intros m a Hm. rewrite Hlog in Hm. by apply elem_of_nil in Hm. }
  destruct (Hk Hs ep lr Hin) as [Hn Ha].
  split; [|split; [exact Hn|]; split; [exact Ha|]; split].
  - intros k s0. apply (keeps_final _ _ (entered_optimize_fn A k) s0).
  - intros Hpos. rewrite Ha. by apply alpha_at_pos.
  - intros m H0 Hz. apply (anneal_zero_only_at_end _ _ _ H0); [lia | exact Hz].
Qed.

End LearningRate.

(** The witness of C3: epoch 1 of a run of two epochs. *)
Lemma learning_rate_of_each_epoch_witness :
  let A := run_args 2 false None PinNone in
  (1 < n_epochs A)%nat /\ 0 < alpha_at (initial_alpha A) (n_epochs A) 1.
Proof.
  intros A.
  assert (Hin : (1%nat, alpha_at (initial_alpha A) (n_epochs A) 1)
                ∈ kernel_calls (log (final (optimize_layout_euclidean (ext:=demo) A
                                              (start line2))))).
  { apply (bool_decide_eq_true_1 _). vm_compute. reflexivity. }
  destruct (learning_rate_of_each_epoch (ext:=demo) A (start line2) 1
              (alpha_at (initial_alpha A) (n_epochs A) 1) eq_refl Hin)
    as (_ & Hn & _ & Hpos & _).
  split; [exact Hn | apply Hpos]. reflexivity.
Defined.

(** C3 as stated fails: in a run of two epochs with [initial_alpha = 1] the
    kernel is entered with learning rate 1 at epoch 0 and again 1 at epoch 1,
    where [initial_alpha * (1 - n/n_epochs)] is 1/2. *)
Lemma learning_rate_lags_one_epoch :
  let A := run_args 2 false None PinNone in
  call_fractions (log (final (optimize_layout_euclidean (ext:=demo) A (start line2))))
  = [(0%nat, 1%Q); (1%nat, 1%Q)] /\
  this (initial_alpha A * (1 - Qc_of_nat 1 / Qc_of_nat (n_epochs A))) = (1 # 2)%Q.
Proof. split; vm_compute; reflexivity. Qed.

(** ** Pinned points *)

Lemma clip_0 : clip 0 = 0.
Proof. apply Qc_is_canon. reflexivity. Qed.

Lemma zero_positions_lookup (w : list Qc) (base i : nat) :
  w !! i = Some 0 -> (base + i)%nat ∈ zero_positions base w.
Proof.
  revert base i. induction w as [|x w IH]; intros base [|i]; simpl; try done.
  - intros [= ->]. unfold feq. rewrite bool_decide_eq_true_2 by done.
    rewrite Nat.add_0_r. by left.
  - intros Hi. specialize (IH (S base) i Hi).
    replace (base + S i)%nat with (S base + i)%nat by lia.
    destruct (feq x 0); [by right | done].
Qed.

Section Pinned.
Context {ext : Externals}.
Context (fixed : list nat) (arr : loc) (p : nat).
Hypothesis Hp : p ∈ fixed.

(** The hook a one-dimensional pin mask is turned into. *)
Definition pin_hook : pyfn :=
  FnIdxGrad (fun idx pt grad => pinindexed_grad idx pt grad fixed).

(** The gradient is zero at every coordinate. *)
Definition all_zero (g : list Qc) : Prop := forall d x, g !! d = Some x -> x = 0.

Lemma unch_add_zero (v v' : view) (d : nat) (x : Qc) :
  x = 0 -> keeps (unch v') (add_at v d x).
Proof.
  intros -> s. unfold add_at, getc, setc, load, store, get, index, modify.
  unfold mbind, M_bind, bind; simpl.
  destruct (read_view (heap s) v) as [r|] eqn:Hr; simpl; [|done].
  destruct (r !! d) as [c|] eqn:Hc; simpl; [|done].
  rewrite Hr; simpl.
  rewrite bool_decide_eq_true_2 by (by eapply lookup_lt_Some).
  simpl. split; [|done]. unfold unch, same_on; simpl.
  rewrite Qcplus_0_r, list_insert_id by done.
  by apply read_write_view_id.
Qed.

(** Adding to a coordinate leaves the pinned row alone when the view is
    another row, or when what is added is zero. *)
Lemma unch_add_at_pinned (v : view) (d : nat) (x : Qc) :
  (v = (arr, p) -> x = 0) -> keeps (unch (arr, p)) (add_at v d x).
Proof.
  intros Hx. destruct (decide (v = (arr, p))) as [Heq|Hne].
  - by apply unch_add_zero, Hx.
  - apply keeps_add_at; po. by apply unch_store_other.
Qed.

Lemma hoare_pin_hook (v' : view) (idx : nat) (pt : view) (g : list Qc) :
  hoare (unch v') (fun g' => idx ∈ fixed -> all_zero g')
    (call_idx_grad (Some pin_hook) idx pt g).
Proof.
  intros s. unfold call_idx_grad, pin_hook, load, store, get, index, modify.
  unfold mbind, M_bind, bind; simpl.
  destruct (read_view (heap s) pt) as [r|] eqn:Hr; simpl; [|done].
  unfold pinindexed_grad. destruct (bool_decide (idx ∈ fixed)) eqn:Hidx; simpl.
  - split; [by apply read_write_view_id|].
    intros _ d x Hd. rewrite list_lookup_fmap in Hd.
    destruct (g !! d); simpl in Hd; congruence.
  - split; [by apply read_write_view_id|].
    intros Hin. apply bool_decide_eq_false in Hidx. done.
Qed.

Lemma unch_add_clipped (alpha : Qc) (v : view) (idx : nat) (g : list Qc) (d : nat) (x : Qc) :
  (idx ∈ fixed -> all_zero g) -> (v = (arr, p) -> idx = p) -> g !! d = Some x ->
  keeps (unch (arr, p)) (add_at v d (alpha * clip x)).
Proof.
  intros Hz Hv Hx. apply unch_add_at_pinned. intros Heq.
  rewrite (Hz ltac:(by rewrite (Hv Heq)) d x Hx). by rewrite clip_0, Qcmult_0_r.
Qed.

Context (k : kparams).
Hypothesis Hidx_grad : wrap_idx_grad k = Some pin_hook.
Hypothesis Hgrad : wrap_grad k = None.
Hypothesis Hidx_pt : wrap_idx_pt k = None.
Hypothesis Hpt : wrap_pt k = None.

Lemma grad_mods_pinned : grad_mods k = true.
Proof. unfold grad_mods. by rewrite Hidx_grad. Qed.

(** The positive update of an edge leaves the pinned row as it was. *)
Lemma pinned_attract (j kk : nat) (tl : loc) (c : Qc) :
  keeps (unch (arr, p)) (attract k j kk (arr, j) (tl, kk) c).
Proof.
  unfold attract. rewrite grad_mods_pinned, Hidx_grad, Hgrad, Hidx_pt, Hpt.
  unfold call_grad, call_idx_pt, call_pt.
  destruct (move_other k).
  - apply keeps_bind; po.
    2:{ intros _. keeps_solve. }
    apply keeps_bind; po. { keeps_solve. }
    intros g0.
    apply (hoare_bind _ (fun g' => j ∈ fixed -> all_zero g')); po.
    { apply hoare_pin_hook. }
    intros g1 Hg1.
    apply (hoare_bind _ (fun g' => kk ∈ fixed -> all_zero g')); po.
    { apply hoare_pin_hook. }
    intros g2 Hg2.
    do 2 (apply keeps_bind_ret; cbv beta).
    apply keeps_for_range; po. intros d.
    apply keeps_bind_index; po. intros x Hx.
    apply keeps_bind; po.
    + apply (unch_add_clipped _ _ j g1 d x); [done | congruence | done].
    + intros _. apply keeps_bind_index; po. intros y Hy.
      apply (unch_add_clipped _ _ kk g2 d y); [done | congruence | done].
  - apply keeps_bind; po.
    2:{ intros _. keeps_solve. }
    apply keeps_bind; po. { keeps_solve. }
    intros g0.
    apply (hoare_bind _ (fun g' => j ∈ fixed -> all_zero g')); po.
    { apply hoare_pin_hook. }
    intros g1 Hg1.
    apply keeps_bind_ret; cbv beta.
    unfold apply_clipped. apply keeps_for_range; po. intros d.
    apply keeps_bind_index; po. intros x Hx.
    apply (unch_add_clipped _ _ j g1 d x); [done | congruence | done].
Qed.

(** So does the push of a negative sample. *)
Lemma pinned_repel (j : nat) (other : view) (c : Qc) :
  keeps (unch (arr, p)) (repel k j (arr, j) other c).
Proof.
  unfold repel. rewrite grad_mods_pinned, Hidx_grad, Hgrad, Hidx_pt, Hpt.
  unfold call_grad, call_idx_pt, call_pt.
  apply keeps_bind; po.
  2:{ intros _. keeps_solve. }
  apply keeps_bind; po. { keeps_solve. }
  intros g0.
  apply (hoare_bind _ (fun g' => j ∈ fixed -> all_zero g')); po.
  { apply hoare_pin_hook. }
  intros g1 Hg1.
  apply keeps_bind_ret; cbv beta.
  unfold apply_clipped. apply keeps_for_range; po. intros d.
  apply keeps_bind_index; po. intros x Hx.
  apply (unch_add_clipped _ _ j g1 d x); [done | congruence | done].
Qed.

Lemma pinned_negative_sample (j : nat) :
  keeps (unch (arr, p)) (negative_sample k j (arr, j)).
Proof.
  unfold negative_sample.
  repeat first [ apply pinned_repel | keeps_step | keeps_prim ].
  apply unch_rng.
Qed.

(** One epoch of the sequential kernel on the array [arr] leaves the pinned
    row as it was. *)
Lemma pinned_kernel :
  head_embedding k = arr ->
  keeps (unch (arr, p)) (_optimize_layout_euclidean_single_epoch k).
Proof.
  intros Hhead. apply keeps_kernel_seq_with; po.
  - intros j kk c. rewrite Hhead. apply pinned_attract.
  - intros j. rewrite Hhead. apply pinned_negative_sample.
  - intros s f. reflexivity.
  - intros s f. reflexivity.
Qed.

End Pinned.

Section PinnedRun.
Context {ext : Externals}.
Context (A : args) (n0 : nat) (w : list Qc) (p : nat).
Hypothesis Hmask : pin_mask A = PinArray (mkNd [n0] w).
Hypothesis Hweight : w !! p = Some 0.
Hypothesis Hout : output_constrain A = None.
Hypothesis Hseq : parallel A = false.

Local Abbreviation arr := (in_head_embedding A).
Local Abbreviation fixed := (zero_positions 0 w).

Lemma pinned_in_fixed : p ∈ fixed.
Proof. apply (zero_positions_lookup w 0 p Hweight). Qed.

Lemma unch_print (v : view) : PrintOk (unch v).
Proof. intros s msg. reflexivity. Qed.

(** The configuration of such a run: the only hook is the pin hook. *)
Lemma pinned_configure :
  hoare (unch (arr, p))
    (fun cv => su_wrap_idx_grad cv.1 = Some (pin_hook fixed)
               /\ su_wrap_idx_pt cv.1 = None
               /\ su_out cv.1 = no_hooks)
    (configure A).
Proof.
  unfold configure. rewrite Hmask, Hout.
  apply (hoare_bind _ (fun _ => True)); po. { apply keeps_get; po. }
  intros s _.
  apply (hoare_bind _ (fun _ => True)); po. { by apply keeps_modify; po. }
  intros _ _.
  apply (hoare_bind _ (fun _ => True)); po. { by apply keeps_modify; po. }
  intros _ _.
  apply (hoare_bind _ (fun fns => fns = ([], [pin_hook fixed]))); po.
  - unfold read_pin_array. simpl.
    apply (hoare_bind _ (fun _ => True)); po.
    { apply keeps_print; po. apply unch_print. }
    intros _ _.
    apply (hoare_bind _ (fun _ => True)); po. { apply keeps_assert; po. }
    intros _ _. by apply hoare_ret; po.
  - intros fns ->. apply hoare_ret; po.
    destruct (densmap A); simpl; auto.
Qed.

Lemma pinned_epoch (c : setup) (n : nat) (v : locals) :
  su_wrap_idx_grad c = Some (pin_hook fixed) ->
  su_wrap_idx_pt c = None ->
  su_out c = no_hooks ->
  keeps (unch (arr, p)) (epoch A c n v).
Proof.
  intros Hg Hi Ho. unfold epoch. rewrite Ho. simpl.
  set (flag := _ && _ && _).
  apply keeps_bind; po.
  { destruct flag; [|apply keeps_ret; po].
    apply keeps_bind; po.
    - apply keeps_densmap_epoch_init; po.
    - intros [re_sum phi_sum]. apply keeps_ret; po. }
  intros v1. apply keeps_bind; po.
  { unfold optimize_fn, enter. rewrite Hseq.
    apply keeps_bind; po. { by apply keeps_modify; po. }
    intros _.
    apply (pinned_kernel fixed arr p pinned_in_fixed); simpl; try done.
    all: by rewrite Ho. }
  intros _. apply keeps_bind_ret. apply keeps_ret; po.
Qed.

Lemma pinned_epoch_loop (c : setup) (epochs : list nat) (v : locals) :
  su_wrap_idx_grad c = Some (pin_hook fixed) ->
  su_wrap_idx_pt c = None ->
  su_out c = no_hooks ->
  keeps (unch (arr, p)) (epoch_loop A c epochs v).
Proof.
  intros Hg Hi Ho. revert v. induction epochs as [|n epochs IH]; intros v; simpl.
  - apply keeps_ret; po.
  - apply keeps_bind; po; [by apply pinned_epoch | intros v'; apply IH].
Qed.

End PinnedRun.

Section PinnedClaim.
Context {ext : Externals}.

(** C7, as the code has it.  In a sequential run of
    [optimize_layout_euclidean] with a one-dimensional pin mask in which
    point [p] has weight 0, and with no [output_constrain] hooks, the row of
    point [p] in the head embedding is the same when the run ends (by
    returning or by raising) as when it started, whatever the number of
    epochs. *)
Theorem pinned_point_does_not_move (A : args) (s : state1) (n0 : nat) (w : list Qc)
    (p : nat) :
  pin_mask A = PinArray (mkNd [n0] w) ->
  w !! p = Some 0 ->
  output_constrain A = None ->
  parallel A = false ->
  read_view (heap (final (optimize_layout_euclidean A s))) (in_head_embedding A, p)
  = read_view (heap s) (in_head_embedding A, p).
Proof.
  intros Hmask Hweight Hout Hseq.
  apply (keeps_final (unch (in_head_embedding A, p))).
  unfold optimize_layout_euclidean.
  apply (hoare_bind _ (fun cv => su_wrap_idx_grad cv.1 = Some (pin_hook (zero_positions 0 w))
                                 /\ su_wrap_idx_pt cv.1 = None
                                 /\ su_out cv.1 = no_hooks)); po.
  { by apply (pinned_configure A n0 w p). }
  intros [c v] (Hg & Hi & Ho). simpl in Hg, Hi, Ho.
  apply keeps_bind; po.
  { by apply (pinned_epoch_loop A w p). }
  intros _. rewrite Ho. simpl. apply keeps_bind_ret. apply keeps_ret; po.
Qed.

End PinnedClaim.

(** The witness of C7: two epochs with point 0 pinned and [move_other], so
    that the edge from 0 to 1 and the edge from 1 to 0 both reach point 0. *)
Lemma pinned_point_does_not_move_witness :
  let A := run_args 6 true None (PinArray (mkNd [2%nat] [0; 1])) in
  read_view (heap (final (optimize_layout_euclidean (ext:=demo) A (start line2))))
            (in_head_embedding A, 0%nat)
  = read_view (heap (start line2)) (in_head_embedding A, 0%nat).
Proof.
  intros A.
  exact (pinned_point_does_not_move (ext:=demo) A (start line2) 2 [0; 1] 0
           eq_refl eq_refl eq_refl eq_refl).
Defined.

(** C7 as stated fails: point 0 has weight 0 in the pin mask, but a [pt]
    output constraint that adds 10 is registered too; when the edge from
    point 0 fires at epoch 1 its gradient is zeroed and the hook then moves
    the point from 0 to 10. *)
Lemma pinned_point_moved_by_pt_hook :
  let A := run_args 2 false (Some [("pt", shift_pt (q 10))])
             (PinArray (mkNd [2%nat] [q 0; q 1])) in
  rows_of 1 (start line2) = [[0]; [1]]%Q /\
  error_of (optimize_layout_euclidean (ext:=demo) A (start line2)) = None /\
  rows_of 1 (final (optimize_layout_euclidean (ext:=demo) A (start line2)))
  = [[10]; [1]]%Q.
Proof. repeat split; vm_compute; reflexivity. Qed.

(** * The schedule arrays never go down *)

(** ** Truncation and the negative-sample counter *)

Lemma Qle_inject_l (t : Z) (x : Q) :
  (inject_Z t <= x)%Q <-> (t * Z.pos (Qden x) <= Qnum x)%Z.
Proof. unfold Qle. simpl. rewrite Z.mul_1_r. reflexivity. Qed.

Lemma Qle_inject_r (t : Z) (x : Q) :
  (x <= inject_Z t)%Q <-> (Qnum x <= t * Z.pos (Qden x))%Z.
Proof. unfold Qle. simpl. rewrite Z.mul_1_r. reflexivity. Qed.

Lemma Qle_0_num (x : Q) : (0 <= x)%Q <-> (0 <= Qnum x)%Z.
Proof. unfold Qle. simpl. rewrite Z.mul_1_r. reflexivity. Qed.

Lemma Qle_num_0 (x : Q) : (x <= 0)%Q <-> (Qnum x <= 0)%Z.
Proof. unfold Qle. simpl. rewrite Z.mul_1_r. reflexivity. Qed.

Lemma this_Qc_of_Z (z : Z) : this (Qc_of_Z z) = inject_Z z.
Proof. reflexivity. Qed.

(** [int(x)] of a non-negative [x] lies between 0 and [x]. *)
Lemma trunc_nonneg (x : Qc) :
  0 ≤ x -> (0 <= Qc_trunc x)%Z /\ Qc_of_Z (Qc_trunc x) ≤ x.
Proof.
  unfold Qcle, Qc_trunc. change (this 0) with 0%Q.
  rewrite this_Qc_of_Z, Qle_0_num, Qle_inject_l.
  intros Ha. split.
  - apply Z.quot_pos; lia.
  - rewrite Z.mul_comm. apply Z.mul_quot_le; lia.
Qed.

(** [int(x)] of a non-positive [x] lies between [x] and 0. *)
Lemma trunc_nonpos (x : Qc) :
  x ≤ 0 -> (Qc_trunc x <= 0)%Z /\ x ≤ Qc_of_Z (Qc_trunc x).
Proof.
  unfold Qcle, Qc_trunc. change (this 0) with 0%Q.
  rewrite this_Qc_of_Z, Qle_num_0, Qle_inject_r.
  intros Ha. split.
  - rewrite <- (Z.opp_involutive (Qnum x)), Z.quot_opp_l by lia.
    assert (0 <= - Qnum x ÷ Z.pos (Qden x))%Z by (apply Z.quot_pos; lia). lia.
  - rewrite Z.mul_comm. apply Z.mul_quot_ge; lia.
Qed.

Lemma trunc_small (x : Qc) : - (1) < x -> x < 1 -> Qc_trunc x = 0%Z.
Proof.
  unfold Qclt, Qc_trunc. intros Hlo Hhi.
  assert (Hl : (- Z.pos (Qden x) < Qnum x)%Z).
  { unfold Qlt in Hlo. simpl in Hlo. lia. }
  assert (Hh : (Qnum x < Z.pos (Qden x))%Z).
  { unfold Qlt in Hhi. simpl in Hhi. lia. }
  destruct (Z_le_gt_dec 0 (Qnum x)).
  - apply Z.quot_small. lia.
  - rewrite <- (Z.opp_involutive (Qnum x)), Z.quot_opp_l by lia.
    rewrite Z.quot_small; lia.
Qed.

Lemma Qc_of_Z_nonneg (z : Z) : (0 <= z)%Z -> 0 ≤ Qc_of_Z z.
Proof.
  intros Hz. unfold Qcle. change (inject_Z 0 <= inject_Z z)%Q. by rewrite <- Zle_Qle.
Qed.

Lemma Qc_of_Z_nonpos (z : Z) : (z <= 0)%Z -> Qc_of_Z z ≤ 0.
Proof.
  intros Hz. unfold Qcle. change (inject_Z z <= inject_Z 0)%Q. by rewrite <- Zle_Qle.
Qed.

Lemma Qc_of_Z_0 : Qc_of_Z 0 = 0.
Proof. apply Qc_is_canon. reflexivity. Qed.

Lemma div_sign_pos (y d : Qc) : 0 ≤ y -> 0 < d -> 0 ≤ y / d.
Proof. intros Hy Hd. to_Q. apply Qle_shift_div_l; lra. Qed.

Lemma div_sign_neg (y d : Qc) : 0 ≤ y -> d < 0 -> y / d ≤ 0.
Proof.
  intros Hy Hd.
  assert (Hd0 : d ≠ 0) by (by apply Qclt_not_eq).
  assert (Heq : y / d = - (y / - d)).
  { field. split; [|done]. intros H0. apply Hd0.
    rewrite <- (Qcopp_involutive d), H0. apply Qc_is_canon. reflexivity. }
  assert (Hpos : 0 ≤ y / - d).
  { apply div_sign_pos; [done|]. to_Q. lra. }
  rewrite Heq. to_Q. lra.
Qed.

(** An entry [e] that is due ([e <= n]) moves, by
    [e += int((n - e) / d) * d], to a value between [e] and [n]. *)
Lemma trunc_step (n e d : Qc) :
  e ≤ n ->
  e ≤ e + Qc_of_Z (Qc_trunc ((n - e) / d)) * d /\
  e + Qc_of_Z (Qc_trunc ((n - e) / d)) * d ≤ n.
Proof.
  intros Hle.
  assert (Hy : 0 ≤ n - e) by (to_Q; lra).
  destruct (Qc_dec 0 d) as [[Hd|Hd]|Hd].
  - pose proof (div_sign_pos _ _ Hy Hd) as Hx.
    destruct (trunc_nonneg _ Hx) as [Ht HT].
    apply Qc_of_Z_nonneg in Ht.
    assert (Hxd : d * ((n - e) / d) = n - e).
    { apply Qcmult_div_r. intros ->. by apply Qclt_not_eq in Hd. }
    set (x := (n - e) / d) in *. set (T := Qc_of_Z (Qc_trunc x)) in *.
    clearbody T x. to_Q. split; nra.
  - pose proof (div_sign_neg _ _ Hy Hd) as Hx.
    destruct (trunc_nonpos _ Hx) as [Ht HT].
    apply Qc_of_Z_nonpos in Ht.
    assert (Hxd : d * ((n - e) / d) = n - e).
    { apply Qcmult_div_r. intros ->. by apply Qclt_not_eq in Hd. }
    set (x := (n - e) / d) in *. set (T := Qc_of_Z (Qc_trunc x)) in *.
    clearbody T x. to_Q. split; nra.
  - subst d. unfold Qcdiv.
    assert (Hinv : / (0 : Qc) = 0) by (apply Qc_is_canon; reflexivity).
    rewrite Hinv, !Qcmult_0_r, Qcplus_0_r. split; [apply Qcle_refl | done].
Qed.

(** An entry that still holds its initial value [d], above the epoch
    number [n > 0], is left where it is: the counter is 0. *)
Lemma trunc_step_initial (n d : Qc) :
  0 < n -> n < d -> Qc_trunc ((n - d) / d) = 0%Z.
Proof.
  intros Hn Hd.
  assert (Hd0 : 0 < d) by (eapply Qclt_trans; eauto).
  apply trunc_small.
  - to_Q. change (this (- (1))) with (-1)%Q. apply Qlt_shift_div_l; lra.
  - to_Q. apply Qlt_shift_div_r; lra.
Qed.

(** ** Schedules as partial maps from edges to epochs *)

(** The entry of edge [k]: an index for one array, embedding and index for
    a list of arrays. *)
Class Schedule (T K : Type) := look : T -> K -> option Qc.

Global Instance schedule_array : Schedule (list Qc) nat := fun l i => l !! i.
Global Instance schedule_arrays : Schedule (list (list Qc)) (nat * nat) :=
  fun l k => at2 l k.1 k.2.

Section ScheduleOrder.
Context {T K : Type} `{Schedule T K}.

(** Every entry of [X] is still there in [X'], and not smaller. *)
Definition le_on (X X' : T) : Prop :=
  forall k e, look X k = Some e -> exists e', look X' k = Some e' /\ e ≤ e'.

Lemma le_on_refl (X : T) : le_on X X.
Proof. intros k e He. exists e. split; [done | apply Qcle_refl]. Qed.

Lemma le_on_trans (X Y Z : T) : le_on X Y -> le_on Y Z -> le_on X Z.
Proof.
  intros HXY HYZ k e He.
  destruct (HXY k e He) as (e1 & He1 & Hle1).
  destruct (HYZ k e1 He1) as (e2 & He2 & Hle2).
  exists e2. split; [done | by eapply Qcle_trans].
Qed.

(** [X'] is [X] with the entry of [k] set to [v]. *)
Definition upd (X : T) (k : K) (v : Qc) (X' : T) : Prop :=
  look X' k = Some v /\ forall k', k' ≠ k -> look X' k' = look X k'.

Context `{EqDecision K}.

Lemma le_on_upd (X X' : T) (k : K) (e v : Qc) :
  look X k = Some e -> e ≤ v -> upd X k v X' -> le_on X X'.
Proof.
  intros He Hle [Hk Hother] k' e' He'.
  destruct (decide (k' = k)) as [->|Hne].
  - exists v. split; [done|]. congruence.
  - exists e'. split; [by rewrite Hother | apply Qcle_refl].
Qed.

(** Every entry is positive. *)
Definition positive_on (X : T) : Prop := forall k e, look X k = Some e -> 0 < e.

Lemma positive_on_upd (X X' : T) (k : K) (v : Qc) :
  positive_on X -> 0 < v -> upd X k v X' -> positive_on X'.
Proof.
  intros HX Hv [Hk Hother] k' e' He'.
  destruct (decide (k' = k)) as [->|Hne].
  - congruence.
  - apply (HX k'). by rewrite <- Hother.
Qed.

(** Every entry of the negative-sample array either still holds its
    initial value, the entry of [epns], or has been brought up to an epoch
    number not above [n]. *)
Definition settled (n : Qc) (epns N : T) : Prop :=
  forall k e d, look N k = Some e -> look epns k = Some d -> e = d \/ e ≤ n.

Lemma settled_mono (n n' : Qc) (epns N : T) :
  n ≤ n' -> settled n epns N -> settled n' epns N.
Proof.
  intros Hn HN k e d He Hd. destruct (HN k e d He Hd) as [->|Hle]; [by left|].
  right. by eapply Qcle_trans.
Qed.

Lemma settled_upd (n : Qc) (epns N N' : T) (k : K) (v : Qc) :
  settled n epns N -> v ≤ n -> upd N k v N' -> settled n epns N'.
Proof.
  intros HN Hv [Hk Hother] k' e' d He' Hd.
  destruct (decide (k' = k)) as [->|Hne].
  - right. congruence.
  - apply (HN k' e' d); [by rewrite <- Hother | done].
Qed.

End ScheduleOrder.

Lemma upd_insert (l : list Qc) (i : nat) (e v : Qc) :
  l !! i = Some e -> upd l i v (<[i := v]> l).
Proof.
  intros He. split.
  - unfold look, schedule_array. apply list_lookup_insert_eq. by eapply lookup_lt_Some.
  - intros i' Hne. unfold look, schedule_array. by apply list_lookup_insert_ne.
Qed.

Lemma upd_bump2 (x : list (list Qc)) (m i : nat) (e v : Qc) :
  at2 x m i = Some e -> upd x (m, i) v (bump2 x m i v).
Proof.
  unfold at2, bump2. intros He.
  destruct (x !! m) as [r|] eqn:Hr; simpl in He; [|done].
  split.
  - unfold look, schedule_arrays, at2. simpl.
    rewrite list_lookup_insert_eq by (by eapply lookup_lt_Some). simpl.
    apply list_lookup_insert_eq. by eapply lookup_lt_Some.
  - intros [m' i'] Hne. unfold look, schedule_arrays, at2. simpl.
    destruct (decide (m' = m)) as [->|Hm].
    + rewrite list_lookup_insert_eq by (by eapply lookup_lt_Some). rewrite Hr. simpl.
      apply list_lookup_insert_ne. congruence.
    + by rewrite list_lookup_insert_ne.
Qed.

(** ** States whose schedule has only moved up *)

Section Advance.
Context {ext : Externals} {T K : Type} `{Schedule T K}.

(** Pointwise order of both schedule arrays. *)
Definition sched_le (s s' : state T) : Prop :=
  le_on (eons s) (eons s') /\ le_on (eonns s) (eonns s').

Lemma sched_le_refl (s : state T) : sched_le s s.
Proof. split; apply le_on_refl. Qed.

Lemma sched_le_trans (s1 s2 s3 : state T) :
  sched_le s1 s2 -> sched_le s2 s3 -> sched_le s1 s3.
Proof. intros [? ?] [? ?]. split; by eapply le_on_trans. Qed.

Context (n : Qc) (epns : T).

(** The invariant of the schedule during epoch [n]. *)
Definition sched_inv (s : state T) : Prop :=
  positive_on (eons s) /\ settled n epns (eonns s).

(** From a state that satisfies the invariant, the invariant still holds
    and no entry has gone down. *)
Definition advances (s s' : state T) : Prop :=
  sched_inv s -> sched_inv s' /\ sched_le s s'.

Global Instance advances_preorder : PreOrder advances.
Proof.
  split.
  - intros s Hs. split; [done | apply sched_le_refl].
  - intros s1 s2 s3 H12 H23 H1.
    destruct (H12 H1) as [H2 Hle12]. destruct (H23 H2) as [H3 Hle23].
    split; [done | by eapply sched_le_trans].
Qed.

Lemma advances_same (s s' : state T) :
  eons s' = eons s -> eonns s' = eonns s -> advances s s'.
Proof.
  intros He Hn [Hpos Hset]. unfold sched_inv, sched_le. rewrite He, Hn.
  repeat split; try done; apply le_on_refl.
Qed.

Lemma advances_store (v : view) : StoreOk advances v.
Proof. intros s r. by apply advances_same. Qed.
Lemma advances_array (arr : loc) : ArrayOk advances arr.
Proof. intros s f. by apply advances_same. Qed.
Lemma advances_rng : RngOk advances.
Proof. intros s r. by apply advances_same. Qed.
Lemma advances_print : PrintOk advances.
Proof. intros s msg. by apply advances_same. Qed.
Lemma advances_emit (s : state T) (e : event) : advances s (emit e s).
Proof. by apply advances_same. Qed.

(** A computation that leaves both schedule arrays alone advances. *)
Definition sch (s : state T) : T * T := (eons s, eonns s).

Lemma advances_of_same_sch {A} (m : M (state T) A) :
  keeps (same_on sch) m -> keeps advances m.
Proof.
  apply keeps_mono. intros s s' Hs. unfold same_on, sch in Hs.
  injection Hs as He Hn. by apply advances_same.
Qed.

End Advance.

#[global] Hint Resolve advances_store advances_array advances_rng advances_print
  advances_emit : frames.

Lemma same_sch_store {ext : Externals} {T} (v : view) : StoreOk (same_on (@sch ext T)) v.
Proof. intros s r. reflexivity. Qed.
Lemma same_sch_array {ext : Externals} {T} (arr : loc) : ArrayOk (same_on (@sch ext T)) arr.
Proof. intros s f. reflexivity. Qed.
Lemma same_sch_rng {ext : Externals} {T} : RngOk (same_on (@sch ext T)).
Proof. intros s r. reflexivity. Qed.
Lemma same_sch_print {ext : Externals} {T} : PrintOk (same_on (@sch ext T)).
Proof. intros s msg. reflexivity. Qed.

#[global] Hint Resolve same_sch_store same_sch_array same_sch_rng same_sch_print : frames.

Lemma keeps_of_final {S A} (R : S -> S -> Prop) (m : M S A) :
  (forall s, R s (final (m s))) -> keeps R m.
Proof.
  intros Hm s. specialize (Hm s). destruct (m s); simpl in Hm; [by split | done].
Qed.

(** ** One array per run: the Euclidean, Generic and Inverse kernels *)

Section OneArray.
Context {ext : Externals}.
Context (n : nat) (eps epns : list Qc).
Hypothesis Heps : forall i d, eps !! i = Some d -> 0 < d.

Local Abbreviation R := (advances (T:=list Qc) (Qc_of_nat n) epns).

(** [epoch_of_next_sample[i] += epochs_per_sample[i]] moves entry [i] up. *)
Lemma advances_bump_sample (i : nat) : keeps R (bump_sample eps i).
Proof.
  apply keeps_of_final. intros s.
  unfold bump_sample, mbind, M_bind, bind, get, index, modify; simpl.
  destruct (eons s !! i) as [e|] eqn:He; simpl; [|reflexivity].
  destruct (eps !! i) as [d|] eqn:Hd; simpl; [|reflexivity].
  intros [Hpos Hset]. pose proof (Heps i d Hd) as Hd0.
  pose proof (upd_insert (eons s) i e (e + d) He) as Hupd.
  assert (He0 : 0 < e) by (by apply (Hpos i)).
  split; [split|split]; simpl.
  - eapply positive_on_upd; [exact Hpos | | exact Hupd].
    to_Q. lra.
  - exact Hset.
  - eapply le_on_upd; [exact He | | exact Hupd]. to_Q. lra.
  - apply le_on_refl.
Qed.

(** The update of the negative-sample entry with the counter computed from
    that entry. *)
Lemma advances_bump_negative (i : nat) (e d : Qc) (s : state1) :
  0 < Qc_of_nat n ->
  eonns s !! i = Some e -> epns !! i = Some d ->
  R s (final (bump_negative epns i (Qc_trunc ((Qc_of_nat n - e) / d)) s)).
Proof.
  intros Hn He Hd.
  unfold bump_negative, mbind, M_bind, bind, get, index, modify; simpl.
  rewrite He, Hd; simpl.
  intros [Hpos Hset].
  set (e' := e + Qc_of_Z (Qc_trunc ((Qc_of_nat n - e) / d)) * d).
  pose proof (upd_insert (eonns s) i e e' He) as Hupd.
  destruct (Qclt_le_dec (Qc_of_nat n) e) as [Hgt|Hle].
  - (* not yet due: the entry is the initial one and the counter is 0 *)
    destruct (Hset i e d He Hd) as [->|Hle]; [|by apply Qclt_not_le in Hgt].
    assert (He' : e' = d).
    { unfold e'. rewrite trunc_step_initial by done.
      rewrite Qc_of_Z_0, Qcmult_0_l. apply Qcplus_0_r. }
    unfold sched_inv, sched_le. simpl. rewrite He', list_insert_id by done.
    repeat split; try done; apply le_on_refl.
  - destruct (trunc_step (Qc_of_nat n) e d Hle) as [Hlo Hhi]. fold e' in Hlo, Hhi.
    split; [split|split]; simpl.
    + exact Hpos.
    + eapply settled_upd; [exact Hset | exact Hhi | exact Hupd].
    + apply le_on_refl.
    + eapply le_on_upd; [exact He | exact Hlo | exact Hupd].
Qed.

Lemma R_of_same_sch (s s' : state1) : sch s' = sch s -> R s s'.
Proof.
  intros Hs. unfold sch in Hs. injection Hs as He Hn. by apply advances_same.
Qed.

(** The end of an edge's turn in the Generic and Inverse kernels: count,
    draw the samples, move the entry. *)
Lemma advances_negative_tail (i : nat) (loop : Z -> M state1 unit) :
  0 < Qc_of_nat n ->
  (forall z, keeps (same_on sch) (loop z)) ->
  keeps R (n_neg_samples ← neg_count n epns i;
           loop n_neg_samples;;
           bump_negative epns i n_neg_samples).
Proof.
  intros Hn Hloop. apply keeps_of_final. intros s.
  unfold neg_count at 1. unfold mbind at 1 2 3 4, M_bind, bind, get, index; simpl.
  destruct (eonns s !! i) as [e|] eqn:He; simpl; [|reflexivity].
  destruct (epns !! i) as [d|] eqn:Hd; simpl; [|reflexivity].
  set (z := Qc_trunc ((Qc_of_nat n - e) / d)).
  pose proof (keeps_final _ _ (Hloop z) s) as Hsame.
  destruct (loop z s) as [[] s1|err s1]; simpl in *.
  - transitivity s1; [by apply R_of_same_sch|].
    unfold same_on, sch in Hsame. injection Hsame as He1 Hn1.
    apply advances_bump_negative; [done | by rewrite Hn1 | done].
  - by apply R_of_same_sch.
Qed.

(** The same in the Euclidean kernels, which skip the rest when the count
    is not positive. *)
Lemma advances_negative_tail_guarded (i : nat) (loop : Z -> M state1 unit) :
  0 < Qc_of_nat n ->
  (forall z, keeps (same_on sch) (loop z)) ->
  keeps R (n_neg_samples ← neg_count n epns i;
           if bool_decide (n_neg_samples ≤ 0)%Z then mret tt
           else loop n_neg_samples;;
                bump_negative epns i n_neg_samples).
Proof.
  intros Hn Hloop. apply keeps_of_final. intros s.
  unfold neg_count at 1. unfold mbind at 1 2 3, M_bind, bind, get, index; simpl.
  destruct (eonns s !! i) as [e|] eqn:He; simpl; [|reflexivity].
  destruct (epns !! i) as [d|] eqn:Hd; simpl; [|reflexivity].
  set (z := Qc_trunc ((Qc_of_nat n - e) / d)).
  destruct (bool_decide (z ≤ 0)%Z); simpl; [reflexivity|].
  pose proof (keeps_final _ _ (Hloop z) s) as Hsame.
  unfold mbind, M_bind, bind.
  destruct (loop z s) as [[] s1|err s1]; simpl in *.
  - transitivity s1; [by apply R_of_same_sch|].
    unfold same_on, sch in Hsame. injection Hsame as He1 Hn1.
    apply advances_bump_negative; [done | by rewrite Hn1 | done].
  - by apply R_of_same_sch.
Qed.

End OneArray.

(** ** One epoch of each kernel *)

Lemma final_bind_ok {S A B} (m : M S A) (f : A -> M S B) s a s1 :
  m s = Ok a s1 -> final ((m ≫= f) s) = final (f a s1).
Proof. intros Hm. by rewrite (bind_ok _ _ _ _ _ Hm). Qed.

Lemma final_bind_err {S A B} (m : M S A) (f : A -> M S B) s e s1 :
  m s = Err e s1 -> final ((m ≫= f) s) = s1.
Proof. intros Hm. by rewrite (bind_err _ _ _ _ _ Hm). Qed.

(** The steps every edge body starts with: read the entry of edge [i] and
    compare it with the epoch number. *)
Ltac open_edge s e_i He :=
  lazymatch goal with
  | |- context [final ((get ≫= ?f) s)] =>
      change (final ((get ≫= f) s)) with (final (f s s)); cbv beta
  end;
  lazymatch goal with
  | |- context [final ((index ?o ≫= ?f) s)] =>
      destruct o as [e_i|] eqn:He;
      [ change (final ((index (Some e_i) ≫= f) s)) with (final (f e_i s)); cbv beta
      | change (final ((index None ≫= f) s)) with s; reflexivity ]
  end.

Lemma epoch_positive (n : nat) (e : Qc) : 0 < e -> fle e (Qc_of_nat n) = true -> 0 < Qc_of_nat n.
Proof.
  intros He Hle. apply bool_decide_eq_true in Hle. by eapply Qclt_le_trans.
Qed.

Section KernelsAdvance.
Context {ext : Externals}.

Ltac advance_with Heps Hn :=
  repeat first
    [ apply (advances_negative_tail _ _ _ _ Hn)
    | apply (advances_negative_tail_guarded _ _ _ _ Hn)
    | apply (advances_bump_sample _ _ _ Heps)
    | lazymatch goal with |- forall _ : Z, _ => intros ? end
    | keeps_step | keeps_prim | keeps_more ].

Lemma advances_edge_generic (k : gparams) (i : nat) :
  (forall j d, g_epochs_per_sample k !! j = Some d -> 0 < d) ->
  keeps (advances (T:=list Qc) (Qc_of_nat (g_n k)) (g_epochs_per_negative_sample k))
    (edge_generic k i).
Proof.
  intros Heps. apply keeps_of_final. intros s. unfold edge_generic.
  open_edge s e_i He.
  destruct (fle e_i (Qc_of_nat (g_n k))) eqn:Hdue; [|reflexivity].
  intros Hinv.
  assert (Hn : 0 < Qc_of_nat (g_n k)).
  { eapply epoch_positive; [|exact Hdue]. by apply (proj1 Hinv i). }
  revert Hinv. apply keeps_final.
  advance_with Heps Hn.
Qed.

Lemma advances_kernel_generic (k : gparams) :
  (forall j d, g_epochs_per_sample k !! j = Some d -> 0 < d) ->
  keeps (advances (T:=list Qc) (Qc_of_nat (g_n k)) (g_epochs_per_negative_sample k))
    (_optimize_layout_generic_single_epoch k).
Proof.
  intros Heps. unfold _optimize_layout_generic_single_epoch.
  apply keeps_for_range; po. intros i. by apply advances_edge_generic.
Qed.

Lemma advances_edge_inverse (p : iparams) (i : nat) :
  (forall j d, g_epochs_per_sample (i_base p) !! j = Some d -> 0 < d) ->
  keeps (advances (T:=list Qc) (Qc_of_nat (g_n (i_base p)))
           (g_epochs_per_negative_sample (i_base p)))
    (edge_inverse p i).
Proof.
  intros Heps. apply keeps_of_final. intros s. unfold edge_inverse.
  cbv zeta.
  open_edge s e_i He.
  destruct (fle e_i (Qc_of_nat (g_n (i_base p)))) eqn:Hdue; [|reflexivity].
  intros Hinv.
  assert (Hn : 0 < Qc_of_nat (g_n (i_base p))).
  { eapply epoch_positive; [|exact Hdue]. by apply (proj1 Hinv i). }
  revert Hinv. apply keeps_final.
  advance_with Heps Hn.
Qed.

Lemma advances_kernel_inverse (p : iparams) :
  (forall j d, g_epochs_per_sample (i_base p) !! j = Some d -> 0 < d) ->
  keeps (advances (T:=list Qc) (Qc_of_nat (g_n (i_base p)))
           (g_epochs_per_negative_sample (i_base p)))
    (_optimize_layout_inverse_single_epoch p).
Proof.
  intros Heps. unfold _optimize_layout_inverse_single_epoch.
  apply keeps_for_range; po. intros i. by apply advances_edge_inverse.
Qed.

Lemma advances_edge_seq (k : kparams) (i : nat) :
  (forall j d, epochs_per_sample k !! j = Some d -> 0 < d) ->
  keeps (advances (T:=list Qc) (Qc_of_nat (n k)) (epochs_per_negative_sample k))
    (edge_seq k i).
Proof.
  intros Heps. apply keeps_of_final. intros s. unfold edge_seq.
  open_edge s e_i He.
  destruct (fle e_i (Qc_of_nat (n k))) eqn:Hdue; [|reflexivity].
  intros Hinv.
  assert (Hn : 0 < Qc_of_nat (n k)).
  { eapply epoch_positive; [|exact Hdue]. by apply (proj1 Hinv i). }
  revert Hinv. apply keeps_final.
  advance_with Heps Hn.
Qed.

Lemma advances_edge_para (k : kparams) (i : nat) :
  (forall j d, epochs_per_sample k !! j = Some d -> 0 < d) ->
  keeps (advances (T:=list Qc) (Qc_of_nat (n k)) (epochs_per_negative_sample k))
    (edge_para k i).
Proof.
  intros Heps. apply keeps_of_final. intros s. unfold edge_para.
  open_edge s e_i He.
  destruct (fgt e_i (Qc_of_nat (n k))) eqn:Hdue; [reflexivity|].
  intros Hinv.
  assert (Hn : 0 < Qc_of_nat (n k)).
  { apply bool_decide_eq_false in Hdue. apply Qcnot_lt_le in Hdue.
    eapply Qclt_le_trans; [|exact Hdue]. by apply (proj1 Hinv i). }
  revert Hinv. apply keeps_final.
  advance_with Heps Hn.
Qed.

Lemma advances_optimize_fn (A : args) (k : kparams) :
  (forall j d, epochs_per_sample k !! j = Some d -> 0 < d) ->
  keeps (advances (T:=list Qc) (Qc_of_nat (n k)) (epochs_per_negative_sample k))
    (optimize_fn A k).
Proof.
  intros Heps. unfold optimize_fn, _optimize_layout_euclidean_single_epoch_para,
    _optimize_layout_euclidean_single_epoch, assert_same_embedding.
  destruct (parallel A); keeps_solve;
    [by apply advances_edge_para | by apply advances_edge_seq].
Qed.

End KernelsAdvance.

(** ** The Aligned kernel: one array per embedding *)

Lemma bump2_id (x : list (list Qc)) (m i : nat) (e : Qc) :
  at2 x m i = Some e -> bump2 x m i e = x.
Proof.
  unfold at2, bump2. intros He.
  destruct (x !! m) as [r|] eqn:Hr; simpl in He; [|done].
  rewrite (list_insert_id r i e He). by apply list_insert_id.
Qed.

Section AlignedAdvance.
Context {ext : Externals}.

Lemma keeps_regularise (R : stateN -> stateN -> Prop) `{!PreOrder R}
    (k : aparams) (m v d : nat) (x : Qc) (offs : list Z) (acc : Qc) :
  keeps R (regularise k m v d x offs acc).
Proof.
  revert acc. induction offs as [|o offs IH]; intros acc; simpl; keeps_solve; apply IH.
Qed.

Context (k : aparams).
Hypothesis Heps : forall m i d, at2 (a_epochs_per_sample k) m i = Some d -> 0 < d.

Local Abbreviation R :=
  (advances (T:=list (list Qc)) (K:=nat * nat) (Qc_of_nat (a_n k))
     (a_epochs_per_negative_sample k)).

Lemma advances_aligned_bump_sample (m i : nat) :
  keeps R (s ← get;
           e ← index (at2 (eons s) m i);
           eps ← index (at2 (a_epochs_per_sample k) m i);
           modify (set_eons (fun x => bump2 x m i (e + eps)))).
Proof.
  apply keeps_of_final. intros s.
  unfold mbind, M_bind, bind, get, index, modify; simpl.
  destruct (at2 (eons s) m i) as [e|] eqn:He; simpl; [|reflexivity].
  destruct (at2 (a_epochs_per_sample k) m i) as [d|] eqn:Hd; simpl; [|reflexivity].
  intros [Hpos Hset]. pose proof (Heps m i d Hd) as Hd0.
  pose proof (upd_bump2 (eons s) m i e (e + d) He) as Hupd.
  assert (He0 : 0 < e) by (by apply (Hpos (m, i))).
  split; [split|split]; simpl.
  - eapply positive_on_upd; [exact Hpos | | exact Hupd]. to_Q. lra.
  - exact Hset.
  - eapply (le_on_upd _ _ (m, i)); [exact He | | exact Hupd]. to_Q. lra.
  - apply le_on_refl.
Qed.

Lemma R_of_same_schN (s s' : stateN) : sch s' = sch s -> R s s'.
Proof.
  intros Hs. unfold sch in Hs. injection Hs as He Hn. by apply advances_same.
Qed.

Lemma advances_aligned_bump_negative (m i : nat) (e d : Qc) (s : stateN) :
  0 < Qc_of_nat (a_n k) ->
  at2 (eonns s) m i = Some e ->
  at2 (a_epochs_per_negative_sample k) m i = Some d ->
  let n_neg_samples :=
    if fgt d 0 then Qc_trunc ((Qc_of_nat (a_n k) - e) / d) else 0%Z in
  R s (set_eonns (fun x => bump2 x m i (e + Qc_of_Z n_neg_samples * d)) s).
Proof.
  intros Hn He Hd n_neg_samples.
  assert (Hsame : forall z, z = 0%Z ->
            R s (set_eonns (fun x => bump2 x m i (e + Qc_of_Z z * d)) s)).
  { intros z ->. apply R_of_same_schN. unfold sch; simpl.
    rewrite Qc_of_Z_0, Qcmult_0_l, Qcplus_0_r. by rewrite bump2_id. }
  unfold n_neg_samples. destruct (fgt d 0) eqn:Hd0; [|by apply Hsame].
  intros [Hpos Hset].
  destruct (Qclt_le_dec (Qc_of_nat (a_n k)) e) as [Hgt|Hle].
  - destruct (Hset (m, i) e d He Hd) as [->|Hle]; [|by apply Qclt_not_le in Hgt].
    apply Hsame; [by apply trunc_step_initial | by split].
  - destruct (trunc_step (Qc_of_nat (a_n k)) e d Hle) as [Hlo Hhi].
    pose proof (upd_bump2 (eonns s) m i e
                  (e + Qc_of_Z (Qc_trunc ((Qc_of_nat (a_n k) - e) / d)) * d) He) as Hupd.
    split; [split|split]; simpl.
    + exact Hpos.
    + eapply settled_upd; [exact Hset | exact Hhi | exact Hupd].
    + apply le_on_refl.
    + eapply (le_on_upd _ _ (m, i)); [exact He | exact Hlo | exact Hupd].
Qed.

Lemma advances_aligned_tail (m i : nat) (loop : Z -> M stateN unit) :
  0 < Qc_of_nat (a_n k) ->
  (forall z, keeps (same_on sch) (loop z)) ->
  keeps R
    (epns ← index (at2 (a_epochs_per_negative_sample k) m i);
     n_neg_samples ←
       (if fgt epns 0 then
          s ← get;
          e ← index (at2 (eonns s) m i);
          mret (Qc_trunc ((Qc_of_nat (a_n k) - e) / epns))
        else mret 0%Z);
     loop n_neg_samples;;
     s ← get;
     e ← index (at2 (eonns s) m i);
     epns ← index (at2 (a_epochs_per_negative_sample k) m i);
     modify (set_eonns (fun x => bump2 x m i (e + Qc_of_Z n_neg_samples * epns)))).
Proof.
  intros Hn Hloop. apply keeps_of_final. intros s.
  destruct (at2 (a_epochs_per_negative_sample k) m i) as [d|] eqn:Hd;
    [|reflexivity].
  change (final ((index (Some d) ≫= ?f) s)) with (final (f d s)). cbv beta.
  assert (Hcount : forall e, at2 (eonns s) m i = Some e ->
    let z := if fgt d 0 then Qc_trunc ((Qc_of_nat (a_n k) - e) / d) else 0%Z in
    R s (final ((loop z ;;
                 s ← get;
                 e ← index (at2 (eonns s) m i);
                 epns ← index (Some d);
                 modify (set_eonns (fun x => bump2 x m i (e + Qc_of_Z z * epns)))) s))).
  { intros e He z.
    pose proof (keeps_final _ _ (Hloop z) s) as Hsame.
    unfold mbind at 1, M_bind, bind at 1.
    destruct (loop z s) as [[] s1|err s1]; simpl in Hsame |- *.
    - transitivity s1; [by apply R_of_same_schN|].
      unfold same_on, sch in Hsame. injection Hsame as He1 Hn1.
      unfold mbind, M_bind, bind, get, index, modify; simpl.
      rewrite Hn1, He; simpl.
      apply (advances_aligned_bump_negative m i e d s1 Hn); [by rewrite Hn1 | done].
    - by apply R_of_same_schN. }
  destruct (fgt d 0) eqn:Hd0.
  - destruct (at2 (eonns s) m i) as [e|] eqn:He.
    + specialize (Hcount e eq_refl). simpl in Hcount.
      erewrite final_bind_ok
        by (unfold mbind, M_bind, bind, get, index; simpl; by rewrite He).
      exact Hcount.
    + erewrite final_bind_err
        by (unfold mbind, M_bind, bind, get, index; simpl; by rewrite He).
      reflexivity.
  - destruct (at2 (eonns s) m i) as [e|] eqn:He.
    + specialize (Hcount e eq_refl). simpl in Hcount. exact Hcount.
    + unfold mbind at 1 2, M_bind, bind at 1 2; simpl.
      pose proof (keeps_final _ _ (Hloop 0%Z) s) as Hsame.
      destruct (loop 0%Z s) as [[] s1|err s1]; simpl in Hsame |- *.
      * unfold same_on, sch in Hsame. injection Hsame as He1 Hn1.
        unfold mbind, M_bind, bind, get, index; simpl. rewrite Hn1, He. simpl.
        apply R_of_same_schN. unfold sch. by rewrite He1, Hn1.
      * by apply R_of_same_schN.
Qed.
End AlignedAdvance.

Lemma keeps_ext {S A} (R : S -> S -> Prop) (m m' : M S A) :
  (forall s, m s = m' s) -> keeps R m -> keeps R m'.
Proof. intros Heq Hm s. rewrite <- Heq. apply Hm. Qed.

Section AlignedKernel.
Context {ext : Externals}.
Context (k : aparams).
Hypothesis Heps : forall m i d, at2 (a_epochs_per_sample k) m i = Some d -> 0 < d.

Local Abbreviation R :=
  (advances (T:=list (list Qc)) (K:=nat * nat) (Qc_of_nat (a_n k))
     (a_epochs_per_negative_sample k)).

Lemma advances_aligned_bump_sample_then {B} (m i : nat) (rest : M stateN B) :
  keeps R rest ->
  keeps R (s ← get;
           e ← index (at2 (eons s) m i);
           eps ← index (at2 (a_epochs_per_sample k) m i);
           modify (set_eons (fun x => bump2 x m i (e + eps)));;
           rest).
Proof.
  intros Hrest.
  apply (keeps_ext _
           ((s ← get;
             e ← index (at2 (eons s) m i);
             eps ← index (at2 (a_epochs_per_sample k) m i);
             modify (set_eons (fun x => bump2 x m i (e + eps)))) ≫= fun _ => rest)).
  - intros s. unfold mbind, M_bind, bind, get, index, modify; simpl.
    destruct (at2 (eons s) m i); simpl; [|done].
    destruct (at2 (a_epochs_per_sample k) m i); simpl; done.
  - apply keeps_bind; po; [by apply advances_aligned_bump_sample | done].
Qed.

Lemma advances_edge_aligned (i m : nat) : keeps R (edge_aligned k i m).
Proof.
  apply keeps_of_final. intros s. unfold edge_aligned.
  open_edge s eons_m Hm.
  destruct (bool_decide (i < length eons_m)%nat); [|reflexivity].
  lazymatch goal with
  | |- context [final ((index ?o ≫= ?f) s)] =>
      destruct o as [e_i|] eqn:He;
      [ change (final ((index (Some e_i) ≫= f) s)) with (final (f e_i s)); cbv beta
      | change (final ((index None ≫= f) s)) with s; reflexivity ]
  end.
  destruct (fle e_i (Qc_of_nat (a_n k))) eqn:Hdue; [|reflexivity].
  intros Hinv.
  assert (Hn : 0 < Qc_of_nat (a_n k)).
  { eapply epoch_positive; [|exact Hdue]. apply (proj1 Hinv (m, i)).
    unfold look, schedule_arrays, at2. simpl. by rewrite Hm. }
  revert Hinv. apply keeps_final.
  repeat first
    [ apply (advances_aligned_bump_sample_then)
    | apply (advances_aligned_tail k m i _ Hn)
    | apply keeps_regularise;
        first [ typeclasses eauto | exact (advances_preorder _ _)
              | exact (same_on_preorder _) ]
    | lazymatch goal with |- forall _ : Z, _ => intros ? end
    | keeps_step | keeps_prim | keeps_more ].
Qed.

Lemma advances_kernel_aligned :
  keeps R (_optimize_layout_aligned_euclidean_single_epoch k).
Proof.
  unfold _optimize_layout_aligned_euclidean_single_epoch.
  keeps_solve. apply advances_edge_aligned.
Qed.

End AlignedKernel.

(** ** From one epoch to the whole loop *)

Section LoopAdvance.
Context {ext : Externals} {T K : Type} `{Schedule T K}.
Context (epns : T).

Lemma sched_inv_mono (n n' : Qc) (s : state T) :
  n ≤ n' -> sched_inv n epns s -> sched_inv n' epns s.
Proof. intros Hn [Hpos Hset]. split; [done | by eapply settled_mono]. Qed.

Lemma Qc_of_nat_le (m n : nat) : (m <= n)%nat -> Qc_of_nat m ≤ Qc_of_nat n.
Proof.
  intros Hle. unfold Qc_of_nat, Qcle.
  change (inject_Z (Z.of_nat m) <= inject_Z (Z.of_nat n))%Q. rewrite <- Zle_Qle. lia.
Qed.

Context (kernel : nat -> Qc -> M (state T) unit).
Hypothesis Hkernel : forall n alpha, keeps (advances (Qc_of_nat n) epns) (kernel n alpha).
Context (initial_alpha : Qc) (n_epochs : nat).

Lemma anneal_loop_cons (n : nat) (l : list nat) (alpha : Qc) (s : state T) :
  anneal_loop kernel initial_alpha n_epochs (n :: l) alpha s =
  match kernel n alpha s with
  | Ok _ s2 =>
      anneal_loop kernel initial_alpha n_epochs l
        (initial_alpha * (1 - Qc_of_nat n / Qc_of_nat n_epochs)) s2
  | Err e s2 => Err e s2
  end.
Proof. reflexivity. Qed.

(** The epochs [n0, ..., n0 + len - 1], run from a state in which the
    invariant of epoch [n0] holds. *)
Lemma anneal_loop_advances (len n0 : nat) (alpha : Qc) (s : state T) :
  sched_inv (Qc_of_nat n0) epns s ->
  sched_inv (Qc_of_nat (n0 + len)) epns
    (final (anneal_loop kernel initial_alpha n_epochs (seq n0 len) alpha s)) /\
  sched_le s (final (anneal_loop kernel initial_alpha n_epochs (seq n0 len) alpha s)).
Proof.
  revert n0 alpha s. induction len as [|len IH]; intros n0 alpha s Hs.
  - simpl. split; [|apply sched_le_refl]. eapply sched_inv_mono; [|exact Hs].
    apply Qc_of_nat_le. lia.
  - change (seq n0 (S len)) with (n0 :: seq (S n0) len). rewrite anneal_loop_cons.
    pose proof (keeps_final _ _ (Hkernel n0 alpha) s Hs) as [Hs2 Hle2].
    destruct (kernel n0 alpha s) as [[] s2|e s2]; simpl in Hs2, Hle2 |- *.
    + assert (Hs2' : sched_inv (Qc_of_nat (S n0)) epns s2).
      { eapply sched_inv_mono; [|exact Hs2]. apply Qc_of_nat_le. lia. }
      destruct (IH (S n0) (initial_alpha * (1 - Qc_of_nat n0 / Qc_of_nat n_epochs)) s2 Hs2')
        as [Hs3 Hle3].
      replace (n0 + S len)%nat with (S n0 + len)%nat by lia.
      split; [exact Hs3|].
      eapply sched_le_trans; [exact Hle2 | exact Hle3].
    + split; [|exact Hle2].
      eapply sched_inv_mono; [|exact Hs2]. apply Qc_of_nat_le. lia.
Qed.

(** A longer loop continues where the shorter one stopped, or stops where
    it raised. *)
Lemma anneal_loop_app (l1 l2 : list nat) (alpha : Qc) (s : state T) :
  exists alpha',
    final (anneal_loop kernel initial_alpha n_epochs (l1 ++ l2) alpha s) =
    match anneal_loop kernel initial_alpha n_epochs l1 alpha s with
    | Ok _ s1 => final (anneal_loop kernel initial_alpha n_epochs l2 alpha' s1)
    | Err _ s1 => s1
    end.
Proof.
  revert alpha s. induction l1 as [|n l1 IH]; intros alpha s.
  - by exists alpha.
  - rewrite <- app_comm_cons, !anneal_loop_cons.
    destruct (kernel n alpha s) as [[] s2|e s2]; simpl.
    + apply IH.
    + by exists alpha.
Qed.

(** The schedule after [m'] epochs against the schedule after [m <= m']. *)
Lemma anneal_loop_monotone (m m' : nat) (alpha : Qc) (s : state T) :
  sched_inv (Qc_of_nat 0) epns s -> (m <= m')%nat ->
  sched_le (final (anneal_loop kernel initial_alpha n_epochs (seq 0 m) alpha s))
           (final (anneal_loop kernel initial_alpha n_epochs (seq 0 m') alpha s)).
Proof.
  intros Hs Hle.
  replace m' with (m + (m' - m))%nat by lia. rewrite seq_app. simpl.
  destruct (anneal_loop_app (seq 0 m) (seq m (m' - m)) alpha s) as [alpha' ->].
  destruct (anneal_loop_advances m 0 alpha s Hs) as [Hm _].
  destruct (anneal_loop kernel initial_alpha n_epochs (seq 0 m) alpha s) as [[] s1|e s1];
    simpl in Hm |- *; [|apply sched_le_refl].
  by apply anneal_loop_advances.
Qed.

End LoopAdvance.

(** ** The drivers *)

Section DriversAdvance.
Context {ext : Externals}.

Lemma sched_inv_initial (eps epns : list Qc) (s : state1) :
  (forall i d, eps !! i = Some d -> 0 < d) ->
  eons s = eps -> eonns s = epns ->
  sched_inv (T:=list Qc) (Qc_of_nat 0) epns s.
Proof.
  intros Heps He Hn. split.
  - rewrite He. intros i d. apply Heps.
  - rewrite Hn. intros i e d Hi Hd. left. congruence.
Qed.

Lemma init_schedule_ok (eps : list Qc) (rate : Qc) (s : state1) :
  exists s0,
    init_schedule eps rate s = Ok ((fun e => e / rate) <$> eps) s0 /\
    eons s0 = eps /\ eonns s0 = (fun e => e / rate) <$> eps /\ heap s0 = heap s.
Proof. eexists. split; [reflexivity|]. done. Qed.

(** The Generic and the Inverse driver: what their loop does to the
    schedule after [m] and after [m' >= m] epochs. *)
Lemma generic_loop_monotone (A : gargs) (dim : nat) (s : state1) (m m' : nat) :
  (forall i d, ga_epochs_per_sample A !! i = Some d -> 0 < d) ->
  (m <= m')%nat ->
  let epns := (fun e => e / ga_negative_sample_rate A) <$> ga_epochs_per_sample A in
  let s0 := final (init_schedule (ga_epochs_per_sample A) (ga_negative_sample_rate A) s) in
  let after n :=
    final (anneal_loop (generic_kernel A dim epns) (ga_initial_alpha A) (ga_n_epochs A)
             (seq 0 n) (ga_initial_alpha A) s0) in
  sched_le (after m) (after m').
Proof.
  intros Heps Hle epns s0 after.
  apply (anneal_loop_monotone epns); [| |done].
  - intros n alpha. unfold generic_kernel. cbv zeta.
    apply keeps_entered; po; [intros s1; apply advances_emit|].
    apply (advances_kernel_generic (mkG _ _ _ _ _ _ _ _ _ _ _ _ _ _)). exact Heps.
  - by apply (sched_inv_initial (ga_epochs_per_sample A)).
Qed.

Lemma inverse_loop_monotone (A : gargs) (weight sigmas rhos : list Qc) (dim : nat)
    (s : state1) (m m' : nat) :
  (forall i d, ga_epochs_per_sample A !! i = Some d -> 0 < d) ->
  (m <= m')%nat ->
  let epns := (fun e => e / ga_negative_sample_rate A) <$> ga_epochs_per_sample A in
  let s0 := final (init_schedule (ga_epochs_per_sample A) (ga_negative_sample_rate A) s) in
  let after n :=
    final (anneal_loop (inverse_kernel A weight sigmas rhos dim epns)
             (ga_initial_alpha A) (ga_n_epochs A) (seq 0 n) (ga_initial_alpha A) s0) in
  sched_le (after m) (after m').
Proof.
  intros Heps Hle epns s0 after.
  apply (anneal_loop_monotone epns); [| |done].
  - intros n alpha. unfold inverse_kernel. cbv zeta.
    apply keeps_entered; po; [intros s1; apply advances_emit|].
    apply (advances_kernel_inverse (mkI (mkG _ _ _ _ _ _ _ _ _ _ _ _ _ _) _ _ _)).
    exact Heps.
  - by apply (sched_inv_initial (ga_epochs_per_sample A)).
Qed.

End DriversAdvance.

Section EuclideanAdvance.
Context {ext : Externals}.
Context (A : args) (c : setup).
Hypothesis Heps : forall i d, in_epochs_per_sample A !! i = Some d -> 0 < d.

Local Abbreviation epns := (su_epochs_per_negative_sample c).

Lemma advances_epoch (n : nat) (v : locals) :
  keeps (advances (T:=list Qc) (Qc_of_nat n) epns) (epoch A c n v).
Proof.
  unfold epoch.
  repeat first
    [ apply keeps_densmap_epoch_init; po
    | apply (advances_optimize_fn A (kernel_params A c n _ _) Heps)
    | apply advances_emit
    | keeps_step | keeps_prim | keeps_more ].
Qed.

Lemma epoch_loop_cons (n : nat) (l : list nat) (v : locals) (s : state1) :
  epoch_loop A c (n :: l) v s =
  match epoch A c n v s with
  | Ok v' s2 => epoch_loop A c l v' s2
  | Err e s2 => Err e s2
  end.
Proof. reflexivity. Qed.

Lemma epoch_loop_advances (len n0 : nat) (v : locals) (s : state1) :
  sched_inv (T:=list Qc) (Qc_of_nat n0) epns s ->
  sched_inv (T:=list Qc) (Qc_of_nat (n0 + len)) epns
    (final (epoch_loop A c (seq n0 len) v s)) /\
  sched_le (T:=list Qc) s (final (epoch_loop A c (seq n0 len) v s)).
Proof.
  revert n0 v s. induction len as [|len IH]; intros n0 v s Hs.
  - simpl. split; [|apply sched_le_refl]. eapply sched_inv_mono; [|exact Hs].
    apply Qc_of_nat_le. lia.
  - change (seq n0 (S len)) with (n0 :: seq (S n0) len). rewrite epoch_loop_cons.
    pose proof (keeps_final _ _ (advances_epoch n0 v) s Hs) as [Hs2 Hle2].
    destruct (epoch A c n0 v s) as [v' s2|e s2]; simpl in Hs2, Hle2 |- *.
    + assert (Hs2' : sched_inv (T:=list Qc) (Qc_of_nat (S n0)) epns s2).
      { eapply sched_inv_mono; [|exact Hs2]. apply Qc_of_nat_le. lia. }
      destruct (IH (S n0) v' s2 Hs2') as [Hs3 Hle3].
      replace (n0 + S len)%nat with (S n0 + len)%nat by lia.
      split; [exact Hs3|]. eapply sched_le_trans; [exact Hle2 | exact Hle3].
    + split; [|exact Hle2].
      eapply sched_inv_mono; [|exact Hs2]. apply Qc_of_nat_le. lia.
Qed.

Lemma epoch_loop_app (l1 l2 : list nat) (v : locals) (s : state1) :
  final (epoch_loop A c (l1 ++ l2) v s) =
  match epoch_loop A c l1 v s with
  | Ok v1 s1 => final (epoch_loop A c l2 v1 s1)
  | Err _ s1 => s1
  end.
Proof.
  revert v s. induction l1 as [|n l1 IH]; intros v s.
  - reflexivity.
  - rewrite <- app_comm_cons, !epoch_loop_cons.
    destruct (epoch A c n v s) as [v' s2|e s2]; simpl; [apply IH | done].
Qed.

Lemma epoch_loop_monotone (m m' : nat) (v : locals) (s : state1) :
  sched_inv (T:=list Qc) (Qc_of_nat 0) epns s -> (m <= m')%nat ->
  sched_le (T:=list Qc) (final (epoch_loop A c (seq 0 m) v s))
           (final (epoch_loop A c (seq 0 m') v s)).
Proof.
  intros Hs Hle.
  replace m' with (m + (m' - m))%nat by lia. rewrite seq_app. simpl.
  rewrite epoch_loop_app.
  destruct (epoch_loop_advances m 0 v s Hs) as [Hm _].
  destruct (epoch_loop A c (seq 0 m) v s) as [v1 s1|e s1];
    simpl in Hm |- *; [|apply sched_le_refl].
  by apply epoch_loop_advances.
Qed.

End EuclideanAdvance.

(** What the configuration leaves in the schedule arrays. *)
Lemma configure_schedule {ext : Externals} (A : args) (s s0 : state1)
    (c : setup) (v : locals) :
  configure A s = Ok (c, v) s0 ->
  su_epochs_per_negative_sample c
    = (fun e => e / negative_sample_rate A) <$> in_epochs_per_sample A /\
  eons s0 = in_epochs_per_sample A /\
  eonns s0 = su_epochs_per_negative_sample c.
Proof.
  unfold configure. intros Hc.
  rewrite (bind_ok get _ s s s eq_refl) in Hc.
  rewrite (bind_ok (modify _) _ s tt _ eq_refl) in Hc.
  rewrite (bind_ok (modify _) _ _ tt _ eq_refl) in Hc.
  match type of Hc with (?pin ≫= _) ?s1 = _ =>
    assert (Hpin : keeps (same_on sch) pin);
    [ destruct (pin_mask A);
      [ apply keeps_read_pin_dict | apply keeps_read_pin_dict | apply keeps_read_pin_array ];
      po; auto with frames
    | pose proof (Hpin s1) as Hs1; destruct (pin s1) as [[f1 f2] s2|e s2] eqn:Hp ]
  end.
  - rewrite (bind_ok _ _ _ _ _ Hp) in Hc. destruct Hs1 as [Hs1 _].
    unfold same_on, sch in Hs1. simpl in Hs1. injection Hs1 as He Hn.
    destruct (densmap A); injection Hc as <- <- <-; simpl; by rewrite He, Hn.
  - by rewrite (bind_err _ _ _ _ _ Hp) in Hc.
Qed.

(** What the Aligned driver has put in the schedule arrays when its loop
    starts. *)
Lemma aligned_schedule_ok {ext : Externals} (eps : list (list Qc)) (rate : Qc)
    (ms : list nat) (s s0 : stateN) (epns : list (list Qc)) :
  aligned_schedule eps rate ms s = Ok epns s0 ->
  eonns s0 = eonns s ++ epns /\
  exists X, eons s0 = eons s ++ X /\ Forall (fun r => r ∈ eps) X.
Proof.
  revert s s0 epns. induction ms as [|m ms IH]; intros s s0 epns; simpl.
  - intros [= <- <-]. rewrite app_nil_r. split; [done|].
    exists []. by rewrite app_nil_r.
  - destruct (eps !! m) as [e_p_s|] eqn:Hm; [|discriminate].
    rewrite (bind_ok (index (Some e_p_s)) _ s e_p_s s eq_refl).
    rewrite (bind_ok (modify _) _ s tt _ eq_refl).
    rewrite (bind_ok (modify _) _ _ tt _ eq_refl).
    match goal with |- (?rest ≫= _) ?s1 = _ -> _ =>
      destruct (rest s1) as [r s2|e s2] eqn:Hrest
    end.
    + rewrite (bind_ok _ _ _ _ _ Hrest). intros [= <- <-].
      destruct (IH _ _ _ Hrest) as [Hn (X & He & HX)]. simpl in Hn, He.
      split.
      * rewrite Hn, <- app_assoc. reflexivity.
      * exists (e_p_s :: X). split.
        -- rewrite He, <- app_assoc. reflexivity.
        -- constructor; [by eapply list_elem_of_lookup_2 | done].
    + rewrite (bind_err _ _ _ _ _ Hrest). discriminate.
Qed.

Section AlignedDriver.
Context {ext : Externals}.
Context (A : aargs).
Hypothesis Heps : forall m i d, at2 (aa_epochs_per_sample A) m i = Some d -> 0 < d.

(** The part of [optimize_layout_aligned_euclidean] between reading [dim]
    and its loop. *)
Definition aligned_prelude : M stateN (list (list Qc)) :=
  modify (set_eonns (fun _ => []));;
  modify (set_eons (fun _ => []));;
  aligned_schedule (aa_epochs_per_sample A) (aa_negative_sample_rate A)
    (seq 0 (length (aa_heads A))).

Lemma aligned_prelude_inv (s s0 : stateN) (epns : list (list Qc)) :
  aligned_prelude s = Ok epns s0 ->
  sched_inv (T:=list (list Qc)) (K:=nat * nat) (Qc_of_nat 0) epns s0.
Proof.
  unfold aligned_prelude.
  rewrite (bind_ok (modify _) _ s tt _ eq_refl).
  rewrite (bind_ok (modify _) _ _ tt _ eq_refl).
  intros Hs. apply aligned_schedule_ok in Hs as [Hn (X & He & HX)]. simpl in Hn, He.
  split.
  - rewrite He. intros [m i] d. unfold look, schedule_arrays, at2. simpl.
    destruct (X !! m) as [r|] eqn:Hr; simpl; [|done]. intros Hd.
    rewrite Forall_forall in HX.
    assert (Hin : r ∈ aa_epochs_per_sample A).
    { apply HX. by eapply list_elem_of_lookup_2. }
    apply list_elem_of_lookup_1 in Hin as [m' Hm'].
    apply (Heps m' i). unfold at2. by rewrite Hm'.
  - rewrite Hn. intros k e d Hi Hd. left. congruence.
Qed.

Lemma aligned_loop_monotone (dim : nat) (s s0 : stateN) (epns : list (list Qc))
    (m m' : nat) :
  aligned_prelude s = Ok epns s0 ->
  (m <= m')%nat ->
  let after n :=
    final (anneal_loop (aligned_kernel A dim epns) (aa_initial_alpha A) (aa_n_epochs A)
             (seq 0 n) (aa_initial_alpha A) s0) in
  sched_le (T:=list (list Qc)) (K:=nat * nat) (after m) (after m').
Proof.
  intros Hs Hle after.
  apply (anneal_loop_monotone (K:=nat * nat) epns); [| |done].
  - intros n alpha. unfold aligned_kernel. cbv zeta.
    apply keeps_entered; po; [intros s1; apply advances_emit|].
    apply (advances_kernel_aligned (mkA _ _ _ _ _ _ _ _ _ _ _ _ _ _ _ _ _)). exact Heps.
  - by eapply aligned_prelude_inv.
Qed.

End AlignedDriver.

Lemma final_then_ret {S A B} (m : M S A) (b : B) (s : S) :
  final ((m ;; mret b) s) = final (m s).
Proof. unfold mbind, M_bind, bind. by destruct (m s). Qed.

Section ScheduleTheorems.
Context {ext : Externals}.

(** X1.  [optimize_layout_euclidean]: in a run whose [epochs_per_sample]
    entries are all positive (and whose negative-sample rate is not zero),
    neither [epoch_of_next_sample] nor [epoch_of_next_negative_sample] ever
    goes down: every entry after [m'] epochs of the driver's loop is at least
    what it was after [m <= m'] epochs, with either kernel and whatever
    hooks are registered; and the arrays the call ends with are those the
    loop leaves after [n_epochs] epochs. *)
Theorem schedule_monotone_euclidean (A : args) (s s0 : state1) (c : setup)
    (v : locals) (m m' : nat) :
  (forall i d, in_epochs_per_sample A !! i = Some d -> 0 < d) ->
  negative_sample_rate A ≠ 0 ->
  configure A s = Ok (c, v) s0 ->
  (m <= m')%nat ->
  sch (final (optimize_layout_euclidean A s))
    = sch (final (epoch_loop A c (seq 0 (n_epochs A)) v s0)) /\
  sched_le (T:=list Qc) (final (epoch_loop A c (seq 0 m) v s0))
                        (final (epoch_loop A c (seq 0 m') v s0)).
Proof.
  intros Heps _ Hc Hle. split.
  - unfold optimize_layout_euclidean. rewrite (bind_ok _ _ _ _ _ Hc).
    destruct (epoch_loop A c (seq 0 (n_epochs A)) v s0) as [v1 s1|e s1] eqn:Hloop.
    + rewrite (bind_ok _ _ _ _ _ Hloop). rewrite final_then_ret. simpl.
      apply (keeps_final (same_on sch)).
      destruct (is_not_None _); [|apply keeps_ret; po].
      apply keeps_call_emb; po. auto with frames.
    + by rewrite (bind_err _ _ _ _ _ Hloop).
  - destruct (configure_schedule A s s0 c v Hc) as (_ & He & Hn).
    apply epoch_loop_monotone; [done| |done].
    by apply (sched_inv_initial (in_epochs_per_sample A)).
Qed.

(** X2.  [optimize_layout_generic]: with positive [epochs_per_sample]
    entries (and a negative-sample rate that is not zero) the two schedule
    arrays never go down from one epoch to a later one, and the call ends in
    the state its loop leaves after [n_epochs] epochs. *)
Theorem schedule_monotone_generic (A : gargs) (s : state1) (m m' : nat) :
  (forall i d, ga_epochs_per_sample A !! i = Some d -> 0 < d) ->
  ga_negative_sample_rate A ≠ 0 ->
  (m <= m')%nat ->
  let dim := (shape2 (deref (heap s) (ga_head_embedding A))).2 in
  let epns := (fun e => e / ga_negative_sample_rate A) <$> ga_epochs_per_sample A in
  let s0 := final (init_schedule (ga_epochs_per_sample A) (ga_negative_sample_rate A) s) in
  let after n :=
    final (anneal_loop (generic_kernel A dim epns) (ga_initial_alpha A) (ga_n_epochs A)
             (seq 0 n) (ga_initial_alpha A) s0) in
  final (optimize_layout_generic A s) = after (ga_n_epochs A) /\
  sched_le (T:=list Qc) (after m) (after m').
Proof.
  intros Heps _ Hle dim epns s0 after. split.
  - unfold optimize_layout_generic.
    rewrite (bind_ok get _ s s s eq_refl).
    rewrite (bind_ok (init_schedule _ _) _ s epns s0 eq_refl).
    apply final_then_ret.
  - by apply generic_loop_monotone.
Qed.

(** X3.  [optimize_layout_inverse]: the same for the Inverse driver. *)
Theorem schedule_monotone_inverse (A : gargs) (weight sigmas rhos : list Qc)
    (s : state1) (m m' : nat) :
  (forall i d, ga_epochs_per_sample A !! i = Some d -> 0 < d) ->
  ga_negative_sample_rate A ≠ 0 ->
  (m <= m')%nat ->
  let dim := (shape2 (deref (heap s) (ga_head_embedding A))).2 in
  let epns := (fun e => e / ga_negative_sample_rate A) <$> ga_epochs_per_sample A in
  let s0 := final (init_schedule (ga_epochs_per_sample A) (ga_negative_sample_rate A) s) in
  let after n :=
    final (anneal_loop (inverse_kernel A weight sigmas rhos dim epns)
             (ga_initial_alpha A) (ga_n_epochs A) (seq 0 n) (ga_initial_alpha A) s0) in
  final (optimize_layout_inverse A weight sigmas rhos s) = after (ga_n_epochs A) /\
  sched_le (T:=list Qc) (after m) (after m').
Proof.
  intros Heps _ Hle dim epns s0 after. split.
  - unfold optimize_layout_inverse.
    rewrite (bind_ok get _ s s s eq_refl).
    rewrite (bind_ok (init_schedule _ _) _ s epns s0 eq_refl).
    apply final_then_ret.
  - by apply inverse_loop_monotone.
Qed.

(** X4.  [optimize_layout_aligned_euclidean]: once the per-embedding
    schedule lists are built, no entry of any of them goes down from one
    epoch to a later one, provided every [epochs_per_sample[m][i]] is
    positive (and the negative-sample rate is not zero); the call ends in
    the state its loop leaves after [n_epochs] epochs. *)
Theorem schedule_monotone_aligned (A : aargs) (s s0 : stateN) (head0 : loc)
    (epns : list (list Qc)) (m m' : nat) :
  (forall k i d, at2 (aa_epochs_per_sample A) k i = Some d -> 0 < d) ->
  aa_negative_sample_rate A ≠ 0 ->
  aa_head_embeddings A !! 0%nat = Some head0 ->
  aligned_prelude A s = Ok epns s0 ->
  (m <= m')%nat ->
  let dim := (shape2 (deref (heap s) head0)).2 in
  let after n :=
    final (anneal_loop (aligned_kernel A dim epns) (aa_initial_alpha A) (aa_n_epochs A)
             (seq 0 n) (aa_initial_alpha A) s0) in
  final (optimize_layout_aligned_euclidean A s) = after (aa_n_epochs A) /\
  sched_le (T:=list (list Qc)) (K:=nat * nat) (after m) (after m').
Proof.
  intros Heps _ Hhead Hpre Hle dim after. split.
  - unfold optimize_layout_aligned_euclidean.
    rewrite (bind_ok get _ s s s eq_refl). rewrite Hhead.
    rewrite (bind_ok (index (Some head0)) _ s head0 s eq_refl).
    unfold aligned_prelude in Hpre.
    rewrite (bind_ok (modify _) _ s tt _ eq_refl) in Hpre.
    rewrite (bind_ok (modify _) _ _ tt _ eq_refl) in Hpre.
    rewrite (bind_ok (modify _) _ s tt _ eq_refl).
    rewrite (bind_ok (modify _) _ _ tt _ eq_refl).
    rewrite (bind_ok _ _ _ _ _ Hpre).
    apply final_then_ret.
  - by apply (aligned_loop_monotone A Heps dim s s0).
Qed.

End ScheduleTheorems.

(** ** The schedule theorems at a concrete run *)

(** Arguments of the Generic and Inverse drivers on [line2]: three epochs,
    the tail point moving too. *)
Definition run_gargs (n_epochs : nat) (move_other : bool) : gargs :=
  mkGArgs 1%positive 1%positive [0; 1]%nat [1; 0]%nat n_epochs 2 [q 1; q 5] 1 1 1 1 1
          move_other.

(** Arguments of the Aligned driver: the one embedding [line2], with no
    neighbouring embedding to regularise against. *)
Definition run_aargs (n_epochs : nat) : aargs :=
  mkAArgs [1%positive] [1%positive] [[0; 1]%nat] [[1; 0]%nat] n_epochs [[q 1; q 5]]
          [] [] 1 1 1 1 1 1 1 false.

Definition startN (h : gmap loc matrix) : state (ext:=demo) (list (list Qc)) :=
  @mkState demo (list (list Qc)) h [] [] 0%Z [].

Lemma demo_epochs_positive (i : nat) (d : Qc) : [q 1; q 5] !! i = Some d -> 0 < d.
Proof.
  destruct i as [|[|i]]; simpl; intros Hd; [| |discriminate Hd];
    injection Hd as <-; reflexivity.
Defined.

Lemma one_not_zero : (1 : Qc) ≠ 0.
Proof. intros H. discriminate H. Defined.

Lemma schedule_monotone_generic_witness :
  let A := run_gargs 3 true in
  let s := start line2 in
  let dim := (shape2 (deref (heap s) (ga_head_embedding A))).2 in
  let epns := (fun e => e / ga_negative_sample_rate A) <$> ga_epochs_per_sample A in
  let s0 := final (init_schedule (ga_epochs_per_sample A) (ga_negative_sample_rate A) s) in
  let after n :=
    final (anneal_loop (generic_kernel A dim epns) (ga_initial_alpha A) (ga_n_epochs A)
             (seq 0 n) (ga_initial_alpha A) s0) in
  final (optimize_layout_generic A s) = after (ga_n_epochs A) /\
  sched_le (T:=list Qc) (after 1%nat) (after 3%nat).
Proof.
  intros A s.
  apply (schedule_monotone_generic (ext:=demo) A s 1 3);
    [exact demo_epochs_positive | exact one_not_zero | lia].
Defined.

Lemma schedule_monotone_inverse_witness :
  let A := run_gargs 3 true in
  let s := start line2 in
  let dim := (shape2 (deref (heap s) (ga_head_embedding A))).2 in
  let epns := (fun e => e / ga_negative_sample_rate A) <$> ga_epochs_per_sample A in
  let s0 := final (init_schedule (ga_epochs_per_sample A) (ga_negative_sample_rate A) s) in
  let after n :=
    final (anneal_loop (inverse_kernel A [1; 1] [1; 1] [1; 1] dim epns)
             (ga_initial_alpha A) (ga_n_epochs A) (seq 0 n) (ga_initial_alpha A) s0) in
  final (optimize_layout_inverse A [1; 1] [1; 1] [1; 1] s) = after (ga_n_epochs A) /\
  sched_le (T:=list Qc) (after 1%nat) (after 3%nat).
Proof.
  intros A s.
  apply (schedule_monotone_inverse (ext:=demo) A [1; 1] [1; 1] [1; 1] s 1 3);
    [exact demo_epochs_positive | exact one_not_zero | lia].
Defined.

Lemma schedule_monotone_euclidean_witness :
  let A := run_args 3 true None PinNone in
  let c := mkSetup 1 ((fun e => e / negative_sample_rate A) <$> in_epochs_per_sample A)
             None None no_hooks 0 0 (zeros 1) (zeros 1) in
  let v := mkL (initial_alpha A) (zeros 1) (zeros 1) 0 0 0 in
  let s0 := @mkState demo (list Qc) line2 (in_epochs_per_sample A)
              ((fun e => e / negative_sample_rate A) <$> in_epochs_per_sample A) 0%Z [] in
  sch (final (optimize_layout_euclidean (ext:=demo) A (start line2)))
    = sch (final (epoch_loop (ext:=demo) A c (seq 0 (n_epochs A)) v s0)) /\
  sched_le (T:=list Qc) (final (epoch_loop (ext:=demo) A c (seq 0 1) v s0))
                        (final (epoch_loop (ext:=demo) A c (seq 0 3) v s0)).
Proof.
  intros A c v s0.
  apply (schedule_monotone_euclidean (ext:=demo) A (start line2) s0 c v 1 3);
    [exact demo_epochs_positive | exact one_not_zero | reflexivity | lia].
Defined.

Lemma demo_epochs_positive2 (m i : nat) (d : Qc) :
  at2 [[q 1; q 5]] m i = Some d -> 0 < d.
Proof.
  destruct m as [|m]; [|by destruct m]. apply demo_epochs_positive.
Defined.

Lemma schedule_monotone_aligned_witness :
  let A := run_aargs 3 in
  let s := startN line2 in
  let epns := [(fun e => e / aa_negative_sample_rate A) <$> [q 1; q 5]] in
  let s0 := @mkState demo (list (list Qc)) line2 [[q 1; q 5]] epns 0%Z [] in
  let dim := (shape2 (deref (heap s) 1%positive)).2 in
  let after n :=
    final (anneal_loop (aligned_kernel A dim epns) (aa_initial_alpha A) (aa_n_epochs A)
             (seq 0 n) (aa_initial_alpha A) s0) in
  final (optimize_layout_aligned_euclidean A s) = after (aa_n_epochs A) /\
  sched_le (T:=list (list Qc)) (K:=nat * nat) (after 1%nat) (after 3%nat).
Proof.
  intros A s epns s0.
  apply (schedule_monotone_aligned (ext:=demo) A s s0 1%positive epns 1 3);
    [exact demo_epochs_positive2 | exact one_not_zero | reflexivity | reflexivity | lia].
Defined.

(** * The reference embedding is read, not written

    With [move_other] off, a tail embedding held in an array of its own is
    never written: every write goes through a view of the head embedding. *)

Section TailKept.
Context {ext : Externals} {T : Type}.
Context (hd tl : loc).
Hypothesis Hne : hd ≠ tl.

(** The array at [tl] is as it was. *)
Definition tail_kept : state T -> state T -> Prop :=
  same_on (fun s => heap s !! tl).

Global Instance tail_kept_preorder : PreOrder tail_kept.
Proof. unfold tail_kept. typeclasses eauto. Qed.

Lemma tail_kept_store (j : nat) : StoreOk tail_kept (hd, j).
Proof.
  intros s r. unfold tail_kept, same_on, write_view. simpl.
  by rewrite lookup_alter_ne.
Qed.

Lemma tail_kept_array : ArrayOk tail_kept hd.
Proof.
  intros s f. unfold tail_kept, same_on. simpl. by rewrite lookup_alter_ne.
Qed.

Lemma tail_kept_rng : RngOk tail_kept.
Proof. intros s r. reflexivity. Qed.

Lemma tail_kept_print : PrintOk tail_kept.
Proof. intros s msg. reflexivity. Qed.

Lemma tail_kept_emit (s : state T) (e : event) : tail_kept s (emit e s).
Proof. reflexivity. Qed.

Lemma tail_kept_eons (s : state T) (f : T -> T) : tail_kept s (set_eons f s).
Proof. reflexivity. Qed.

Lemma tail_kept_eonns (s : state T) (f : T -> T) : tail_kept s (set_eonns f s).
Proof. reflexivity. Qed.

End TailKept.

Lemma tail_kept_EonsOk {ext : Externals} (tl : loc) : EonsOk (tail_kept (T:=list Qc) tl).
Proof. intros s f. reflexivity. Qed.

Lemma tail_kept_EonnsOk {ext : Externals} (tl : loc) : EonnsOk (tail_kept (T:=list Qc) tl).
Proof. intros s f. reflexivity. Qed.

#[global] Hint Resolve tail_kept_store tail_kept_array tail_kept_rng tail_kept_print
  tail_kept_emit tail_kept_eons tail_kept_eonns tail_kept_EonsOk tail_kept_EonnsOk : frames.

(** A driver loop keeps what its kernel keeps. *)
Lemma keeps_anneal_loop {ext : Externals} {T} (R : state T -> state T -> Prop)
    `{!PreOrder R} (kernel : nat -> Qc -> M (state T) unit)
    (initial_alpha : Qc) (n_epochs : nat) (epochs : list nat) (alpha : Qc) :
  (forall n alpha, keeps R (kernel n alpha)) ->
  keeps R (anneal_loop kernel initial_alpha n_epochs epochs alpha).
Proof.
  intros Hkernel. revert alpha.
  induction epochs as [|n epochs IH]; intros alpha; simpl.
  - apply keeps_ret; po.
  - apply keeps_bind; po; [apply Hkernel|]. intros _. apply IH.
Qed.

Section TailKeptKernels.
Context {ext : Externals}.

Lemma tail_kept_edge_generic (k : gparams) (i : nat) :
  g_move_other k = false -> g_head_embedding k ≠ g_tail_embedding k ->
  keeps (tail_kept (T:=list Qc) (g_tail_embedding k)) (edge_generic k i).
Proof.
  intros Hmo Hne. unfold edge_generic. rewrite Hmo.
  pose proof (tail_kept_store (T:=list Qc) _ _ Hne) as Hstore.
  keeps_solve.
Qed.

Lemma tail_kept_edge_inverse (p : iparams) (i : nat) :
  g_move_other (i_base p) = false ->
  g_head_embedding (i_base p) ≠ g_tail_embedding (i_base p) ->
  keeps (tail_kept (T:=list Qc) (g_tail_embedding (i_base p))) (edge_inverse p i).
Proof.
  intros Hmo Hne. unfold edge_inverse. cbv zeta. rewrite Hmo.
  pose proof (tail_kept_store (T:=list Qc) _ _ Hne) as Hstore.
  keeps_solve.
Qed.

Lemma tail_kept_edge_generic_original (A : gargs) (dim : nat) (epns : list Qc)
    (n : nat) (alpha : Qc) (i : nat) :
  ga_move_other A = false -> ga_head_embedding A ≠ ga_tail_embedding A ->
  keeps (tail_kept (T:=list Qc) (ga_tail_embedding A))
    (edge_generic_original A dim epns n alpha i).
Proof.
  intros Hmo Hne. unfold edge_generic_original. rewrite Hmo.
  pose proof (tail_kept_store (T:=list Qc) _ _ Hne) as Hstore.
  keeps_solve.
Qed.

End TailKeptKernels.

(** ** Frames of [apply_grad] and of the kernel written with it *)

Section ApplyGradFrames.
Context {ext : Externals}.
Context (R : state1 -> state1 -> Prop) `{!PreOrder R}.

Lemma keeps_apply_grad idx pt alpha grad f1 f2 f3 f4 :
  StoreOk R pt -> keeps R (apply_grad idx pt alpha grad f1 f2 f3 f4).
Proof. intros Hpt. unfold apply_grad. keeps_solve. Qed.

(** With [move_other] off the positive update writes through [current]
    only. *)
Lemma keeps_attract_head_only k j kk current other c :
  move_other k = false -> StoreOk R current ->
  keeps R (attract k j kk current other c).
Proof. intros Hmo Hc. unfold attract. rewrite Hmo. keeps_solve. Qed.

Lemma keeps_attract_para_head_only k j kk current other c :
  move_other k = false -> StoreOk R current ->
  keeps R (attract_para k j kk current other c).
Proof. intros Hmo Hc. unfold attract_para. rewrite Hmo. keeps_solve. Qed.

End ApplyGradFrames.

Ltac keeps_more ::=
  lazymatch goal with
  | |- keeps _ (bump_sample _ _) => apply keeps_bump_sample
  | |- keeps _ (neg_count _ _ _) => apply keeps_neg_count
  | |- keeps _ (bump_negative _ _ _) => apply keeps_bump_negative
  | |- keeps _ (grad_cor_coeff _ _ _ _ _) => apply keeps_grad_cor_coeff
  | |- keeps _ (positive_coeff _ _ _ _ _) => apply keeps_positive_coeff
  | |- keeps _ (apply_clipped _ _ _) => apply keeps_apply_clipped
  | |- keeps _ (attract _ _ _ _ _ _) => apply keeps_attract
  | |- keeps _ (repel _ _ _ _ _) => apply keeps_repel
  | |- keeps _ (negative_sample _ _ _) => apply keeps_negative_sample
  | |- keeps _ (attract_para _ _ _ _ _ _) => apply keeps_attract_para
  | |- keeps _ (repel_para _ _ _ _ _) => apply keeps_repel_para
  | |- keeps _ (negative_sample_para _ _ _) => apply keeps_negative_sample_para
  | |- keeps _ (apply_grad _ _ _ _ _ _ _ _) => apply keeps_apply_grad
  end; frame_side.

Section TailKeptEuclidean.
Context {ext : Externals}.

Lemma tail_kept_edge_applygrad (k : kparams) (i : nat) :
  move_other k = false -> head_embedding k ≠ tail_embedding k ->
  keeps (tail_kept (T:=list Qc) (tail_embedding k)) (edge_applygrad k i).
Proof.
  intros Hmo Hne. unfold edge_applygrad, negative_sample_applygrad. rewrite Hmo.
  pose proof (tail_kept_store (T:=list Qc) _ _ Hne) as Hstore.
  keeps_solve.
Qed.

Lemma tail_kept_optimize_fn (A : args) (k : kparams) :
  move_other k = false -> head_embedding k ≠ tail_embedding k ->
  keeps (tail_kept (T:=list Qc) (tail_embedding k)) (optimize_fn A k).
Proof.
  intros Hmo Hne.
  pose proof (tail_kept_store (T:=list Qc) _ _ Hne) as Hstore.
  unfold optimize_fn. apply keeps_entered; po; [intros s; apply tail_kept_emit|].
  destruct (parallel A).
  - apply keeps_kernel_para_with; po; auto with frames.
    + intros. by apply keeps_attract_para_head_only; po.
    + intros. apply keeps_negative_sample_para; po; auto with frames.
  - apply keeps_kernel_seq_with; po; auto with frames.
    + intros. by apply keeps_attract_head_only; po.
    + intros. apply keeps_negative_sample; po; auto with frames.
Qed.

Lemma tail_kept_epoch (A : args) (c : setup) (n : nat) (v : locals) :
  in_move_other A = false -> in_head_embedding A ≠ in_tail_embedding A ->
  keeps (tail_kept (T:=list Qc) (in_tail_embedding A)) (epoch A c n v).
Proof.
  intros Hmo Hne. unfold epoch.
  pose proof (tail_kept_array (T:=list Qc) _ _ Hne) as Harr.
  repeat first
    [ apply keeps_densmap_epoch_init; po
    | apply (tail_kept_optimize_fn A (kernel_params A c n _ _) Hmo Hne)
    | apply tail_kept_emit
    | keeps_step | keeps_prim | keeps_more ].
Qed.

Lemma tail_kept_epoch_loop (A : args) (c : setup) (epochs : list nat) (v : locals) :
  in_move_other A = false -> in_head_embedding A ≠ in_tail_embedding A ->
  keeps (tail_kept (T:=list Qc) (in_tail_embedding A)) (epoch_loop A c epochs v).
Proof.
  intros Hmo Hne. revert v. induction epochs as [|n epochs IH]; intros v; simpl.
  - apply keeps_ret; po.
  - apply keeps_bind; po; [by apply tail_kept_epoch | intros v'; apply IH].
Qed.

End TailKeptEuclidean.

Section TailTheorems.
Context {ext : Externals}.

Lemma tail_kept_original_loop (A : gargs) (verbose : bool) (dim : nat) (epns : list Qc)
    (epochs : list nat) (alpha : Qc) :
  ga_move_other A = false -> ga_head_embedding A ≠ ga_tail_embedding A ->
  keeps (tail_kept (T:=list Qc) (ga_tail_embedding A))
    (original_loop A verbose dim epns epochs alpha).
Proof.
  intros Hmo Hne. revert alpha. induction epochs as [|n epochs IH]; intros alpha; simpl.
  - apply keeps_ret; po.
  - repeat first
      [ apply IH | by apply tail_kept_edge_generic_original
      | keeps_step | keeps_prim | keeps_more ].
Qed.

(** X5.  [optimize_layout_euclidean] with [move_other] off never writes a
    tail embedding that is an array of its own: whatever the kernel
    (sequential or parallel), the pin mask, the hooks, densMAP, and however
    the run ends, the tail array is exactly as it was. *)
Theorem euclidean_leaves_tail_embedding (A : args) (s : state1) :
  in_move_other A = false ->
  in_head_embedding A ≠ in_tail_embedding A ->
  heap (final (optimize_layout_euclidean A s)) !! in_tail_embedding A
  = heap s !! in_tail_embedding A.
Proof.
  intros Hmo Hne.
  apply (keeps_final (tail_kept (T:=list Qc) (in_tail_embedding A))).
  pose proof (tail_kept_array (T:=list Qc) _ _ Hne) as Harr.
  unfold optimize_layout_euclidean.
  repeat first
    [ apply keeps_configure; po; auto with frames
    | by apply tail_kept_epoch_loop
    | keeps_step | keeps_prim | keeps_more ].
Qed.

(** X6.  [optimize_layout_generic] and [optimize_layout_inverse] with
    [move_other] off never write a tail embedding that is an array of its
    own: the reference embedding of a transform is only read. *)
Theorem generic_inverse_leave_tail_embedding (A : gargs) (weight sigmas rhos : list Qc)
    (s : state1) :
  ga_move_other A = false ->
  ga_head_embedding A ≠ ga_tail_embedding A ->
  heap (final (optimize_layout_generic A s)) !! ga_tail_embedding A
    = heap s !! ga_tail_embedding A /\
  heap (final (optimize_layout_inverse A weight sigmas rhos s)) !! ga_tail_embedding A
    = heap s !! ga_tail_embedding A.
Proof.
  intros Hmo Hne. split.
  - apply (keeps_final (tail_kept (T:=list Qc) (ga_tail_embedding A))).
    unfold optimize_layout_generic, init_schedule.
    repeat first
      [ apply keeps_anneal_loop; po; intros n alpha;
        unfold generic_kernel; cbv zeta;
        apply keeps_entered; po; [intros s1; apply tail_kept_emit|];
        unfold _optimize_layout_generic_single_epoch;
        apply keeps_for_range; po; intros i;
        by apply tail_kept_edge_generic
      | keeps_step | keeps_prim | keeps_more ].
  - apply (keeps_final (tail_kept (T:=list Qc) (ga_tail_embedding A))).
    unfold optimize_layout_inverse, init_schedule.
    repeat first
      [ apply keeps_anneal_loop; po; intros n alpha;
        unfold inverse_kernel; cbv zeta;
        apply keeps_entered; po; [intros s1; apply tail_kept_emit|];
        unfold _optimize_layout_inverse_single_epoch;
        apply keeps_for_range; po; intros i;
        by apply tail_kept_edge_inverse
      | keeps_step | keeps_prim | keeps_more ].
Qed.

(** X7.  [_optimize_layout_euclidean_single_epoch_applygrad] with
    [move_other] off leaves a separate tail embedding exactly as it was,
    whatever hooks it is given. *)
Theorem applygrad_leaves_tail_embedding (k : kparams) (s : state1) :
  move_other k = false ->
  head_embedding k ≠ tail_embedding k ->
  heap (final (_optimize_layout_euclidean_single_epoch_applygrad k s)) !! tail_embedding k
  = heap s !! tail_embedding k.
Proof.
  intros Hmo Hne.
  apply (keeps_final (tail_kept (T:=list Qc) (tail_embedding k))).
  unfold _optimize_layout_euclidean_single_epoch_applygrad.
  apply keeps_for_range; po. intros i. by apply tail_kept_edge_applygrad.
Qed.

(** X8.  [optimize_layout_generic_original] with [move_other] off leaves a
    separate tail embedding exactly as it was, however the run ends. *)
Theorem generic_original_leaves_tail_embedding (A : gargs) (verbose : bool) (s : state1) :
  ga_move_other A = false ->
  ga_head_embedding A ≠ ga_tail_embedding A ->
  heap (final (optimize_layout_generic_original A verbose s)) !! ga_tail_embedding A
  = heap s !! ga_tail_embedding A.
Proof.
  intros Hmo Hne.
  apply (keeps_final (tail_kept (T:=list Qc) (ga_tail_embedding A))).
  unfold optimize_layout_generic_original, init_schedule.
  repeat first
    [ by apply tail_kept_original_loop
    | keeps_step | keeps_prim | keeps_more ].
Qed.

End TailTheorems.

(** ** The tail theorems at a concrete run *)

(** Head and tail embedding in two arrays with the same contents. *)
Definition twin_arrays : gmap loc matrix :=
  {[ 1%positive := [[q 0]; [q 1]]; 2%positive := [[q 0]; [q 1]] ]}.

Definition twin_args (n_epochs : nat) : args :=
  mkArgs 1%positive 2%positive [0; 1]%nat [1; 0]%nat n_epochs 2 [q 1; q 5] 1 1 1 1 1
         false (fun _ => []) false no_dens false None PinNone.

Definition twin_gargs (n_epochs : nat) : gargs :=
  mkGArgs 1%positive 2%positive [0; 1]%nat [1; 0]%nat n_epochs 2 [q 1; q 5] 1 1 1 1 1
          false.

Definition twin_kp : kparams :=
  mkK 1%positive 2%positive [0; 1]%nat [1; 0]%nat 2 [q 1; q 5] 1 1 1 1%nat
      false 1 [q 1; q 5] 1 None None None None
      false [] [] 0 0 0 0 [] [] 0.

Definition at_twin_epoch1 : state (ext:=demo) (list Qc) :=
  @mkState demo (list Qc) twin_arrays [q 1; q 5] [q 1; q 5] 0%Z [].

Lemma euclidean_leaves_tail_embedding_witness :
  heap (final (optimize_layout_euclidean (ext:=demo) (twin_args 3) (start twin_arrays)))
    !! 2%positive
  = heap (start twin_arrays) !! 2%positive.
Proof.
  apply (euclidean_leaves_tail_embedding (ext:=demo) (twin_args 3) (start twin_arrays));
    [reflexivity | intros H; discriminate H].
Defined.

Lemma generic_inverse_leave_tail_embedding_witness :
  heap (final (optimize_layout_generic (ext:=demo) (twin_gargs 3) (start twin_arrays)))
    !! 2%positive
    = heap (start twin_arrays) !! 2%positive /\
  heap (final (optimize_layout_inverse (ext:=demo) (twin_gargs 3) [1; 1] [1; 1] [1; 1]
                 (start twin_arrays))) !! 2%positive
    = heap (start twin_arrays) !! 2%positive.
Proof.
  apply (generic_inverse_leave_tail_embedding (ext:=demo) (twin_gargs 3)
           [1; 1] [1; 1] [1; 1] (start twin_arrays));
    [reflexivity | intros H; discriminate H].
Defined.

Lemma applygrad_leaves_tail_embedding_witness :
  heap (final (_optimize_layout_euclidean_single_epoch_applygrad (ext:=demo) twin_kp
                 at_twin_epoch1)) !! 2%positive
  = heap at_twin_epoch1 !! 2%positive.
Proof.
  apply (applygrad_leaves_tail_embedding (ext:=demo) twin_kp at_twin_epoch1);
    [reflexivity | intros H; discriminate H].
Defined.

Lemma generic_original_leaves_tail_embedding_witness :
  heap (final (optimize_layout_generic_original (ext:=demo) (twin_gargs 3) false
                 (start twin_arrays))) !! 2%positive
  = heap (start twin_arrays) !! 2%positive.
Proof.
  apply (generic_original_leaves_tail_embedding (ext:=demo) (twin_gargs 3) false
           (start twin_arrays));
    [reflexivity | intros H; discriminate H].
Defined.

(** * An edge that is not due is not touched

    Processing edge [i] writes entry [i] of the two schedule arrays and no
    other; so the entries of an edge that is not due at epoch [n] are the
    same after the epoch.  The sequential Euclidean kernel with [move_other]
    on is the exception (it also bumps the entry indexed by the tail
    vertex). *)

Section OwnEntry.
Context {ext : Externals}.

(** The two schedule entries of edge [i]. *)
Definition entry (i : nat) (s : state1) : option Qc * option Qc :=
  (eons s !! i, eonns s !! i).

Lemma entry_store (i : nat) (v : view) : StoreOk (same_on (entry i)) v.
Proof. intros s r. reflexivity. Qed.
Lemma entry_array (i : nat) (arr : loc) : ArrayOk (same_on (entry i)) arr.
Proof. intros s f. reflexivity. Qed.
Lemma entry_rng (i : nat) : RngOk (same_on (entry i)).
Proof. intros s r. reflexivity. Qed.
Lemma entry_print (i : nat) : PrintOk (same_on (entry i)).
Proof. intros s msg. reflexivity. Qed.

Lemma entry_bump_sample (i i' : nat) (eps : list Qc) :
  i ≠ i' -> keeps (same_on (entry i')) (bump_sample eps i).
Proof.
  intros Hne. unfold bump_sample. keeps_solve.
  unfold same_on, entry. simpl. by rewrite list_lookup_insert_ne.
Qed.

Lemma entry_bump_negative (i i' : nat) (epns : list Qc) (z : Z) :
  i ≠ i' -> keeps (same_on (entry i')) (bump_negative epns i z).
Proof.
  intros Hne. unfold bump_negative. keeps_solve.
  unfold same_on, entry. simpl. by rewrite list_lookup_insert_ne.
Qed.

(** The entries of the edges that are not due at epoch [n] are as they
    were. *)
Definition notdue_kept (n : nat) : state1 -> state1 -> Prop :=
  fun s s' => forall i e,
    eons s !! i = Some e -> Qc_of_nat n < e ->
    eons s' !! i = Some e /\ eonns s' !! i = eonns s !! i.

Global Instance notdue_kept_preorder (n : nat) : PreOrder (notdue_kept n).
Proof.
  split.
  - intros s i e He _. done.
  - intros s1 s2 s3 H12 H23 i e He Hlt.
    destruct (H12 i e He Hlt) as [He2 Hn2].
    destruct (H23 i e He2 Hlt) as [He3 Hn3].
    split; [done | congruence].
Qed.

(** An edge that is due changes its own entries only. *)
Lemma notdue_kept_of_entry (n i : nat) (e_i : Qc) (body : M state1 unit) (s : state1) :
  eons s !! i = Some e_i -> e_i ≤ Qc_of_nat n ->
  (forall i', i ≠ i' -> keeps (same_on (entry i')) body) ->
  notdue_kept n s (final (body s)).
Proof.
  intros He Hdue Hbody i' e' He' Hlt.
  assert (Hne : i ≠ i').
  { intros ->. rewrite He in He'. injection He' as ->.
    by apply Qcle_not_lt in Hdue. }
  pose proof (keeps_final _ _ (Hbody i' Hne) s) as Hsame.
  unfold same_on, entry in Hsame. injection Hsame as H1 H2.
  by rewrite H1, H2.
Qed.

End OwnEntry.

#[global] Hint Resolve entry_store entry_array entry_rng entry_print : frames.

Ltac own_entry Hne :=
  repeat first
    [ apply (entry_bump_sample _ _ _ Hne)
    | apply (entry_bump_negative _ _ _ _ Hne)
    | keeps_step | keeps_prim | keeps_more ].

(** Opens an edge body at state [s] and reduces the goal to the frame of
    the part that runs when the edge is due. *)
Ltac due_edge_only s :=
  let e_i := fresh "e_i" in
  let He := fresh "He" in
  let Hdue := fresh "Hdue" in
  open_edge s e_i He;
  lazymatch goal with
  | |- context [fle e_i ?n] =>
      destruct (fle e_i n) eqn:Hdue; [|reflexivity];
      apply bool_decide_eq_true in Hdue
  | |- context [fgt e_i ?n] =>
      destruct (fgt e_i n) eqn:Hdue; [reflexivity|];
      apply bool_decide_eq_false in Hdue; apply Qcnot_lt_le in Hdue
  end;
  lazymatch goal with
  | |- notdue_kept _ s (final (?body s)) =>
      apply (notdue_kept_of_entry _ _ e_i body s He Hdue)
  end;
  let i' := fresh "i'" in
  let Hne := fresh "Hne" in
  intros i' Hne; own_entry Hne.

Section OwnEntryKernels.
Context {ext : Externals}.

Lemma notdue_kept_edge_para (k : kparams) (i : nat) :
  keeps (notdue_kept (n k)) (edge_para k i).
Proof.
  apply keeps_of_final. intros s. unfold edge_para. due_edge_only s.
Qed.

Lemma notdue_kept_edge_applygrad (k : kparams) (i : nat) :
  keeps (notdue_kept (n k)) (edge_applygrad k i).
Proof.
  apply keeps_of_final. intros s. unfold edge_applygrad, negative_sample_applygrad.
  due_edge_only s.
Qed.

Lemma notdue_kept_edge_seq (k : kparams) (i : nat) :
  move_other k = false -> keeps (notdue_kept (n k)) (edge_seq k i).
Proof.
  intros Hmo. apply keeps_of_final. intros s. unfold edge_seq.
  unfold attract. rewrite Hmo. due_edge_only s.
Qed.

Lemma notdue_kept_edge_generic (k : gparams) (i : nat) :
  keeps (notdue_kept (g_n k)) (edge_generic k i).
Proof.
  apply keeps_of_final. intros s. unfold edge_generic. due_edge_only s.
Qed.

Lemma notdue_kept_edge_inverse (p : iparams) (i : nat) :
  keeps (notdue_kept (g_n (i_base p))) (edge_inverse p i).
Proof.
  apply keeps_of_final. intros s. unfold edge_inverse. cbv zeta. due_edge_only s.
Qed.

End OwnEntryKernels.

Section OwnEntryTheorems.
Context {ext : Externals}.

(** X9.  One epoch of the parallel Euclidean kernel, and of the
    [apply_grad] kernel, leaves both schedule entries of every edge that is
    not due ([epoch_of_next_sample[i] > n]) exactly as they were, with
    [move_other] on or off and however the epoch ends. *)
Theorem parallel_and_applygrad_skip_undue_edges (k : kparams) (order : list nat)
    (s : state1) (i : nat) (e : Qc) :
  eons s !! i = Some e ->
  Qc_of_nat (n k) < e ->
  (eons (final (_optimize_layout_euclidean_single_epoch_para order k s)) !! i = Some e /\
   eonns (final (_optimize_layout_euclidean_single_epoch_para order k s)) !! i
   = eonns s !! i) /\
  (eons (final (_optimize_layout_euclidean_single_epoch_applygrad k s)) !! i = Some e /\
   eonns (final (_optimize_layout_euclidean_single_epoch_applygrad k s)) !! i
   = eonns s !! i).
Proof.
  intros He Hlt. split.
  - apply (keeps_final (notdue_kept (n k))); [|done..].
    unfold _optimize_layout_euclidean_single_epoch_para.
    apply keeps_bind; po; [apply keeps_assert_same_embedding; po|]. intros _.
    apply keeps_for_each; po. intros i'. apply notdue_kept_edge_para.
  - apply (keeps_final (notdue_kept (n k))); [|done..].
    unfold _optimize_layout_euclidean_single_epoch_applygrad.
    apply keeps_for_range; po. intros i'. apply notdue_kept_edge_applygrad.
Qed.

(** X10.  With [move_other] off, one epoch of the sequential Euclidean
    kernel leaves both schedule entries of every edge that is not due
    exactly as they were. *)
Theorem sequential_skips_undue_edges (k : kparams) (s : state1) (i : nat) (e : Qc) :
  move_other k = false ->
  eons s !! i = Some e ->
  Qc_of_nat (n k) < e ->
  eons (final (_optimize_layout_euclidean_single_epoch k s)) !! i = Some e /\
  eonns (final (_optimize_layout_euclidean_single_epoch k s)) !! i = eonns s !! i.
Proof.
  intros Hmo He Hlt.
  apply (keeps_final (notdue_kept (n k))); [|done..].
  unfold _optimize_layout_euclidean_single_epoch.
  apply keeps_bind; po; [apply keeps_assert_same_embedding; po|]. intros _.
  apply keeps_for_range; po. intros i'. by apply notdue_kept_edge_seq.
Qed.

(** X11.  One epoch of the Generic kernel, and of the Inverse kernel,
    leaves both schedule entries of every edge that is not due exactly as
    they were. *)
Theorem generic_and_inverse_skip_undue_edges (p : iparams) (s : state1) (i : nat) (e : Qc) :
  eons s !! i = Some e ->
  Qc_of_nat (g_n (i_base p)) < e ->
  (eons (final (_optimize_layout_generic_single_epoch (i_base p) s)) !! i = Some e /\
   eonns (final (_optimize_layout_generic_single_epoch (i_base p) s)) !! i
   = eonns s !! i) /\
  (eons (final (_optimize_layout_inverse_single_epoch p s)) !! i = Some e /\
   eonns (final (_optimize_layout_inverse_single_epoch p s)) !! i = eonns s !! i).
Proof.
  intros He Hlt. split.
  - apply (keeps_final (notdue_kept (g_n (i_base p)))); [|done..].
    apply keeps_for_range; po. intros i'. apply notdue_kept_edge_generic.
  - apply (keeps_final (notdue_kept (g_n (i_base p)))); [|done..].
    apply keeps_for_range; po. intros i'. apply notdue_kept_edge_inverse.
Qed.

End OwnEntryTheorems.

(** Parameters of the Generic and Inverse kernels on [line2] at epoch 1. *)
Definition gp (move_other : bool) : gparams :=
  mkG 1%positive 1%positive [0; 1]%nat [1; 0]%nat 2 [q 1; q 5] 1 1 1 1%nat
      move_other 1 [q 1; q 5] 1.

Lemma parallel_and_applygrad_skip_undue_edges_witness :
  (eons (final (_optimize_layout_euclidean_single_epoch_para (ext:=demo) [0; 1]%nat
                  (kp true) at_epoch1)) !! 1%nat = Some (q 5) /\
   eonns (final (_optimize_layout_euclidean_single_epoch_para (ext:=demo) [0; 1]%nat
                   (kp true) at_epoch1)) !! 1%nat
   = eonns at_epoch1 !! 1%nat) /\
  (eons (final (_optimize_layout_euclidean_single_epoch_applygrad (ext:=demo)
                  (kp true) at_epoch1)) !! 1%nat = Some (q 5) /\
   eonns (final (_optimize_layout_euclidean_single_epoch_applygrad (ext:=demo)
                   (kp true) at_epoch1)) !! 1%nat
   = eonns at_epoch1 !! 1%nat).
Proof.
  apply (parallel_and_applygrad_skip_undue_edges (ext:=demo) (kp true) [0; 1]%nat
           at_epoch1 1 (q 5)); reflexivity.
Defined.

Lemma sequential_skips_undue_edges_witness :
  eons (final (_optimize_layout_euclidean_single_epoch (ext:=demo) (kp false) at_epoch1))
    !! 1%nat = Some (q 5) /\
  eonns (final (_optimize_layout_euclidean_single_epoch (ext:=demo) (kp false) at_epoch1))
    !! 1%nat = eonns at_epoch1 !! 1%nat.
Proof.
  apply (sequential_skips_undue_edges (ext:=demo) (kp false) at_epoch1 1 (q 5));
    reflexivity.
Defined.

Lemma generic_and_inverse_skip_undue_edges_witness :
  let p := mkI (gp true) [1; 1] [1; 1] [1; 1] in
  (eons (final (_optimize_layout_generic_single_epoch (ext:=demo) (i_base p) at_epoch1))
     !! 1%nat = Some (q 5) /\
   eonns (final (_optimize_layout_generic_single_epoch (ext:=demo) (i_base p) at_epoch1))
     !! 1%nat = eonns at_epoch1 !! 1%nat) /\
  (eons (final (_optimize_layout_inverse_single_epoch (ext:=demo) p at_epoch1))
     !! 1%nat = Some (q 5) /\
   eonns (final (_optimize_layout_inverse_single_epoch (ext:=demo) p at_epoch1))
     !! 1%nat = eonns at_epoch1 !! 1%nat).
Proof.
  intros p.
  apply (generic_and_inverse_skip_undue_edges (ext:=demo) p at_epoch1 1 (q 5));
    reflexivity.
Defined.

(** * [apply_grad] *)

Lemma read_write_view_eq (h : gmap loc matrix) (v : view) (r r' : row) :
  read_view h v = Some r -> read_view (write_view h v r') v = Some r'.
Proof.
  unfold read_view, write_view. destruct v as [l j]; simpl.
  rewrite lookup_alter_eq. destruct (h !! l) as [m|]; simpl; [|done].
  intros Hr. apply list_lookup_insert_eq. by eapply lookup_lt_Some.
Qed.

Section ApplyGrad.
Context {ext : Externals}.

(** [pt[d] += g(grad[d])] at one coordinate of a row that is there. *)
Lemma add_at_ok (g : Qc -> Qc) (pt : view) (grad r : row) (d : nat) (c x : Qc)
    (s : state1) :
  read_view (heap s) pt = Some r -> r !! d = Some c -> grad !! d = Some x ->
  exists s',
    (y ← index (grad !! d); add_at pt d (g y)) s = Ok tt s' /\
    read_view (heap s') pt = Some (<[d := c + g x]> r).
Proof.
  intros Hr Hc Hx. eexists. split.
  - unfold add_at, getc, setc, load, store, get, index, modify.
    unfold mbind, M_bind, bind; simpl.
    rewrite Hx; simpl. rewrite Hr; simpl. rewrite Hc; simpl. rewrite Hr; simpl.
    rewrite bool_decide_eq_true_2 by (by eapply lookup_lt_Some). reflexivity.
  - simpl. by eapply read_write_view_eq.
Qed.

(** The coordinate loop of [apply_grad] over distinct coordinates [ds] of a
    row [r]: every coordinate in [ds] has moved by [g(grad[d])], the others
    are as they were. *)
Lemma step_loop_ok (g : Qc -> Qc) (pt : view) (grad : row) (ds : list nat) :
  forall (s : state1) (r : row),
    read_view (heap s) pt = Some r ->
    NoDup ds ->
    (forall d, d ∈ ds -> (d < length r)%nat /\ (d < length grad)%nat) ->
    exists s' r',
      for_each ds (fun d => y ← index (grad !! d); add_at pt d (g y)) s = Ok tt s' /\
      read_view (heap s') pt = Some r' /\
      forall d, r' !! d =
                if decide (d ∈ ds)
                then c ← r !! d; x ← grad !! d; Some (c + g x)
                else r !! d.
Proof.
  induction ds as [|d ds IH]; intros s r Hr Hnd Hin.
  - exists s, r. split; [reflexivity|]. split; [done|]. intros d.
    by rewrite decide_False by apply not_elem_of_nil.
  - apply NoDup_cons in Hnd as [Hd Hnd].
    destruct (Hin d) as [Hlr Hlg]; [by left|].
    destruct (lookup_lt_is_Some_2 r d Hlr) as [c Hc].
    destruct (lookup_lt_is_Some_2 grad d Hlg) as [x Hx].
    destruct (add_at_ok g pt grad r d c x s Hr Hc Hx) as (s1 & Hs1 & Hr1).
    destruct (IH s1 (<[d := c + g x]> r) Hr1 Hnd) as (s' & r' & Hs' & Hr' & Hlook).
    { intros d' Hd'. rewrite length_insert. apply Hin. by right. }
    exists s', r'. split; [|split; [done|]].
    + simpl. by rewrite (bind_ok _ _ _ _ _ Hs1).
    + intros d'. rewrite Hlook.
      destruct (decide (d' = d)) as [->|Hne].
      * rewrite decide_False by done. rewrite decide_True by (by left).
        rewrite list_lookup_insert_eq by done. by rewrite Hc, Hx.
      * rewrite list_lookup_insert_ne by done.
        destruct (decide (d' ∈ ds)) as [Hd'|Hd'].
        -- by rewrite decide_True by (by right).
        -- rewrite decide_False; [done|]. intros [?|?]%elem_of_cons; done.
Qed.

(** The whole row after the loop over [range(pt.shape[0])]. *)
Lemma step_row_ok (g : Qc -> Qc) (pt : view) (grad p : row) (s : state1) :
  read_view (heap s) pt = Some p ->
  (length p <= length grad)%nat ->
  exists s',
    for_range (length p) (fun d => y ← index (grad !! d); add_at pt d (g y)) s = Ok tt s' /\
    read_view (heap s') pt = Some (zip_with (fun c x => c + g x) p grad).
Proof.
  intros Hp Hlen.
  destruct (step_loop_ok g pt grad (seq 0 (length p)) s p Hp) as (s' & r' & Hs' & Hr' & Hlook).
  { apply NoDup_seq. }
  { intros d Hd. apply elem_of_seq in Hd. lia. }
  exists s'. split; [exact Hs'|]. rewrite Hr'. f_equal.
  apply list_eq. intros d. rewrite Hlook, lookup_zip_with.
  destruct (decide (d ∈ seq 0 (length p))) as [Hd|Hd]; [done|].
  rewrite elem_of_seq in Hd.
  rewrite (lookup_ge_None_2 p d) by lia. reflexivity.
Qed.

(** X12.  [apply_grad] with no hook at all takes the plain gradient step,
    without clipping: every coordinate [d] of the point becomes
    [pt[d] + alpha * grad[d]], and the call returns. *)
Theorem apply_grad_without_hooks (idx : nat) (pt : view) (alpha : Qc) (grad p : row)
    (s : state1) :
  read_view (heap s) pt = Some p ->
  (length p <= length grad)%nat ->
  exists s',
    apply_grad idx pt alpha grad None None None None s = Ok tt s' /\
    read_view (heap s') pt = Some (zip_with (fun c x => c + alpha * x) p grad).
Proof.
  intros Hp Hlen.
  destruct (step_row_ok (fun x => alpha * x) pt grad p s Hp Hlen) as (s' & Hs' & Hr').
  exists s'. split; [|exact Hr'].
  unfold apply_grad, call_idx_grad, call_grad, call_idx_pt, call_pt. simpl.
  rewrite (bind_ok (mret grad) _ s grad s eq_refl).
  rewrite (bind_ok (mret grad) _ s grad s eq_refl).
  rewrite (bind_ok (load pt) _ s p s).
  - rewrite (bind_ok _ _ _ _ _ Hs'). reflexivity.
  - unfold load, get, index, mbind, M_bind, bind. by rewrite Hp.
Qed.


(** X14.  Whatever hooks it is given, [apply_grad] writes through the
    point it is handed and nowhere else: every other row of every array is
    as it was, and so are the schedule arrays and the generator state. *)
Theorem apply_grad_writes_only_its_point (idx : nat) (pt v' : view) (alpha : Qc)
    (grad : row) (f1 f2 f3 f4 : option pyfn) (s : state1) :
  pt ≠ v' ->
  read_view (heap (final (apply_grad idx pt alpha grad f1 f2 f3 f4 s))) v'
    = read_view (heap s) v' /\
  sch (final (apply_grad idx pt alpha grad f1 f2 f3 f4 s)) = sch s /\
  rng (final (apply_grad idx pt alpha grad f1 f2 f3 f4 s)) = rng s.
Proof.
  intros Hne. split; [|split].
  - apply (keeps_final (unch v')). apply keeps_apply_grad; po.
    by apply unch_store_other.
  - apply (keeps_final (same_on sch)). apply keeps_apply_grad; po. auto with frames.
  - apply (keeps_final (same_on rng)). apply keeps_apply_grad; po.
    intros s0 r. reflexivity.
Qed.

End ApplyGrad.

(** A gradient hook that hands everything back as it got it. *)
Definition keep_grad : row -> row -> row * row := fun p g => (p, g).

Lemma apply_grad_without_hooks_witness :
  exists s',
    apply_grad (ext:=demo) 0 (1%positive, 0%nat) 1 [q 8] None None None None (start line2)
      = Ok tt s' /\
    read_view (heap s') (1%positive, 0%nat)
      = Some (zip_with (fun c x => c + 1 * x) [q 0] [q 8]).
Proof.
  apply (apply_grad_without_hooks (ext:=demo) 0 (1%positive, 0%nat) 1 [q 8] [q 0]
           (start line2)); [reflexivity | simpl; lia].
Defined.


Lemma apply_grad_writes_only_its_point_witness :
  read_view (heap (final (apply_grad (ext:=demo) 0 (1%positive, 0%nat) 1 [q 8]
                            None (Some (FnGrad keep_grad)) None (Some (shift_pt 1))
                            (start line2)))) (1%positive, 1%nat)
    = read_view (heap (start line2)) (1%positive, 1%nat) /\
  sch (final (apply_grad (ext:=demo) 0 (1%positive, 0%nat) 1 [q 8]
                None (Some (FnGrad keep_grad)) None (Some (shift_pt 1)) (start line2)))
    = sch (start line2) /\
  rng (final (apply_grad (ext:=demo) 0 (1%positive, 0%nat) 1 [q 8]
                None (Some (FnGrad keep_grad)) None (Some (shift_pt 1)) (start line2)))
    = rng (start line2).
Proof.
  apply (apply_grad_writes_only_its_point (ext:=demo) 0 (1%positive, 0%nat)
           (1%positive, 1%nat) 1 [q 8] None (Some (FnGrad keep_grad)) None
           (Some (shift_pt 1)) (start line2)).
  intros H. discriminate H.
Defined.

(** * An epoch in which no edge is due *)

Lemma for_each_idle {S A} (xs : list A) (body : A -> M S unit) (s : S) :
  (forall x, x ∈ xs -> body x s = Ok tt s) -> for_each xs body s = Ok tt s.
Proof.
  induction xs as [|x xs IH]; intros Hb; simpl; [done|].
  rewrite (bind_ok _ _ _ _ _ (Hb x (list_elem_of_here _ _))).
  apply IH. intros y Hy. apply Hb. by right.
Qed.

Lemma for_range_idle {S} (n : nat) (body : nat -> M S unit) (s : S) :
  (forall i, (i < n)%nat -> body i s = Ok tt s) -> for_range n body s = Ok tt s.
Proof.
  intros Hb. apply for_each_idle. intros i Hi. apply Hb.
  apply elem_of_seq in Hi. lia.
Qed.

Lemma fle_false_of_lt (e n : Qc) : n < e -> fle e n = false.
Proof. intros Hlt. apply bool_decide_eq_false. by apply Qclt_not_le. Qed.

Section Idle.
Context {ext : Externals}.

(** No edge among the first [m] is due at epoch [n]. *)
Definition none_due (m n : nat) (s : state1) : Prop :=
  forall i, (i < m)%nat -> exists e, eons s !! i = Some e /\ Qc_of_nat n < e.

Ltac idle_edge He Hlt :=
  rewrite (bind_ok get _ _ _ _ eq_refl); cbv beta;
  rewrite He;
  rewrite (bind_ok (index (Some _)) _ _ _ _ eq_refl); cbv beta;
  rewrite (fle_false_of_lt _ _ Hlt); reflexivity.

Lemma edge_generic_idle (k : gparams) (i : nat) (e : Qc) (s : state1) :
  eons s !! i = Some e -> Qc_of_nat (g_n k) < e -> edge_generic k i s = Ok tt s.
Proof. intros He Hlt. unfold edge_generic. idle_edge He Hlt. Qed.

Lemma edge_inverse_idle (p : iparams) (i : nat) (e : Qc) (s : state1) :
  eons s !! i = Some e -> Qc_of_nat (g_n (i_base p)) < e -> edge_inverse p i s = Ok tt s.
Proof. intros He Hlt. unfold edge_inverse. cbv zeta. idle_edge He Hlt. Qed.

Lemma edge_applygrad_idle (k : kparams) (i : nat) (e : Qc) (s : state1) :
  eons s !! i = Some e -> Qc_of_nat (n k) < e -> edge_applygrad k i s = Ok tt s.
Proof. intros He Hlt. unfold edge_applygrad. idle_edge He Hlt. Qed.

Lemma edge_generic_original_idle (A : gargs) (dim : nat) (epns : list Qc) (n : nat)
    (alpha : Qc) (i : nat) (e : Qc) (s : state1) :
  eons s !! i = Some e -> Qc_of_nat n < e ->
  edge_generic_original A dim epns n alpha i s = Ok tt s.
Proof. intros He Hlt. unfold edge_generic_original. idle_edge He Hlt. Qed.

(** X15.  An epoch of the Generic kernel, of the Inverse kernel or of the
    [apply_grad] kernel in which no edge is due returns with everything
    exactly as it was: no point moved, no schedule entry changed, no random
    number drawn. *)
Theorem idle_epoch_changes_nothing (p : iparams) (k : kparams) (s : state1) :
  none_due (length (g_epochs_per_sample (i_base p))) (g_n (i_base p)) s ->
  none_due (length (epochs_per_sample k)) (n k) s ->
  _optimize_layout_generic_single_epoch (i_base p) s = Ok tt s /\
  _optimize_layout_inverse_single_epoch p s = Ok tt s /\
  _optimize_layout_euclidean_single_epoch_applygrad k s = Ok tt s.
Proof.
  intros Hg Hk. split; [|split].
  - apply for_range_idle. intros i Hi. destruct (Hg i Hi) as (e & He & Hlt).
    by eapply edge_generic_idle.
  - apply for_range_idle. intros i Hi. destruct (Hg i Hi) as (e & He & Hlt).
    by eapply edge_inverse_idle.
  - apply for_range_idle. intros i Hi. destruct (Hk i Hi) as (e & He & Hlt).
    by eapply edge_applygrad_idle.
Qed.

(** At epoch 0 no edge is due in a schedule that starts as a copy of
    positive [epochs_per_sample]. *)
Lemma none_due_initially (eps : list Qc) (s : state1) :
  (forall i d, eps !! i = Some d -> 0 < d) ->
  eons s = eps -> none_due (length eps) 0 s.
Proof.
  intros Heps He i Hi. destruct (lookup_lt_is_Some_2 eps i Hi) as [d Hd].
  exists d. split; [by rewrite He|]. rewrite Qc_of_nat_0. by eapply Heps.
Qed.

Lemma original_loop_cons (A : gargs) (verbose : bool) (dim : nat) (epns : list Qc)
    (n : nat) (l : list nat) (alpha : Qc) :
  original_loop A verbose dim epns (n :: l) alpha =
  (for_range (length (ga_epochs_per_sample A))
     (edge_generic_original A dim epns n alpha);;
   (if verbose then
      if bool_decide (ga_n_epochs A / 10 = 0)%nat then raise ZeroDivisionError
      else if bool_decide (n mod (ga_n_epochs A / 10) = 0)%nat
           then print (completed_message n (ga_n_epochs A))
           else mret tt
    else mret tt);;
   original_loop A verbose dim epns l
     (ga_initial_alpha A * (1 - Qc_of_nat n / Qc_of_nat (ga_n_epochs A)))).
Proof. reflexivity. Qed.

(** X16.  [optimize_layout_generic_original] with [verbose] on and fewer
    than ten epochs stops at the end of its first epoch with
    [ZeroDivisionError] ([n % int(n_epochs / 10)] divides by zero); with
    positive [epochs_per_sample] no point has moved by then. *)
Theorem generic_original_verbose_divides_by_zero (A : gargs) (s : state1) :
  (forall i d, ga_epochs_per_sample A !! i = Some d -> 0 < d) ->
  (0 < ga_n_epochs A < 10)%nat ->
  error_of (optimize_layout_generic_original A true s) = Some ZeroDivisionError /\
  heap (final (optimize_layout_generic_original A true s)) = heap s.
Proof.
  intros Heps [Hpos Hlt].
  destruct (init_schedule_ok (ga_epochs_per_sample A) (ga_negative_sample_rate A) s)
    as (s0 & Hinit & He & Hn & Hh).
  assert (Hdiv : (ga_n_epochs A / 10 = 0)%nat) by (apply Nat.div_small; lia).
  assert (Hloop : forall dim epns l alpha,
            original_loop A true dim epns (0%nat :: l) alpha s0
            = Err ZeroDivisionError s0).
  { intros dim epns l alpha. rewrite original_loop_cons.
    rewrite (bind_ok _ _ s0 tt s0).
    - rewrite Hdiv. reflexivity.
    - apply for_range_idle. intros i Hi.
      destruct (none_due_initially _ s0 Heps He i Hi) as (e & Hei & Hlte).
      by eapply edge_generic_original_idle. }
  unfold optimize_layout_generic_original.
  rewrite (bind_ok get _ s s s eq_refl). cbv beta zeta.
  rewrite (bind_ok _ _ _ _ _ Hinit).
  destruct (ga_n_epochs A) as [|ne] eqn:Hne; [lia|].
  change (seq 0 (S ne)) with (0%nat :: seq 1 ne).
  rewrite (bind_err _ _ _ _ _ (Hloop _ _ _ _)). simpl. by rewrite Hh.
Qed.

(** X17.  A run of at most one epoch moves nothing: epoch 0 finds no
    edge due when every [epochs_per_sample] entry is positive, so
    [optimize_layout_generic], [optimize_layout_inverse] and
    [optimize_layout_generic_original] with [n_epochs <= 1] return the head
    embedding with every array and the generator state as they were. *)
Theorem one_epoch_run_moves_nothing (A : gargs) (weight sigmas rhos : list Qc)
    (s : state1) :
  (forall i d, ga_epochs_per_sample A !! i = Some d -> 0 < d) ->
  (ga_n_epochs A <= 1)%nat ->
  (exists s', optimize_layout_generic A s = Ok (ga_head_embedding A) s'
              /\ heap s' = heap s /\ rng s' = rng s) /\
  (exists s', optimize_layout_inverse A weight sigmas rhos s = Ok (ga_head_embedding A) s'
              /\ heap s' = heap s /\ rng s' = rng s) /\
  (exists s', optimize_layout_generic_original A false s = Ok (ga_head_embedding A) s'
              /\ heap s' = heap s /\ rng s' = rng s).
Proof.
  intros Heps Hone.
  destruct (init_schedule_ok (ga_epochs_per_sample A) (ga_negative_sample_rate A) s)
    as (s0 & Hinit & He & Hn & Hh).
  assert (Hrng : rng s0 = rng s).
  { unfold init_schedule in Hinit. by injection Hinit as <-. }
  set (s1 := emit (EvKernel 0 (ga_initial_alpha A)) s0).
  assert (Hdue : forall nn, nn = 0%nat ->
            none_due (length (ga_epochs_per_sample A)) nn s1).
  { intros nn ->. by apply none_due_initially. }
  unfold optimize_layout_generic, optimize_layout_inverse,
    optimize_layout_generic_original.
  rewrite !(bind_ok get _ s s s eq_refl). cbv beta zeta.
  rewrite !(bind_ok _ _ _ _ _ Hinit).
  destruct (ga_n_epochs A) as [|[|m]] eqn:Hne; [| |lia].
  { repeat split; exists s0; done. }
  change (seq 0 1) with [0%nat].
  split; [|split].
  - exists s1. split; [|by rewrite <- Hh, <- Hrng].
    rewrite (bind_ok _ _ s0 tt s1); [reflexivity|].
    rewrite anneal_loop_cons.
    unfold generic_kernel. cbv zeta.
    rewrite (bind_ok (enter _ _) _ s0 tt s1 eq_refl).
    unfold _optimize_layout_generic_single_epoch.
    rewrite for_range_idle; [reflexivity|].
    intros i Hi. destruct (Hdue 0%nat eq_refl i Hi) as (e & Hei & Hlte).
    by eapply edge_generic_idle.
  - exists s1. split; [|by rewrite <- Hh, <- Hrng].
    rewrite (bind_ok _ _ s0 tt s1); [reflexivity|].
    rewrite anneal_loop_cons.
    unfold inverse_kernel. cbv zeta.
    rewrite (bind_ok (enter _ _) _ s0 tt s1 eq_refl).
    unfold _optimize_layout_inverse_single_epoch.
    rewrite for_range_idle; [reflexivity|].
    intros i Hi. destruct (Hdue 0%nat eq_refl i Hi) as (e & Hei & Hlte).
    by eapply edge_inverse_idle.
  - exists s0. split; [|done].
    rewrite (bind_ok _ _ s0 tt s0); [reflexivity|].
    rewrite original_loop_cons.
    rewrite (bind_ok _ _ s0 tt s0); [reflexivity|].
    apply for_range_idle. intros i Hi.
    destruct (none_due_initially _ s0 Heps He i Hi) as (e & Hei & Hlte).
    by eapply edge_generic_original_idle.
Qed.

End Idle.

(** Kernel parameters on [line2] at epoch 0. *)
Definition gp0 : gparams :=
  mkG 1%positive 1%positive [0; 1]%nat [1; 0]%nat 2 [q 1; q 5] 1 1 1 1%nat
      true 1 [q 1; q 5] 0.

Definition kp0 : kparams :=
  mkK 1%positive 1%positive [0; 1]%nat [1; 0]%nat 2 [q 1; q 5] 1 1 1 1%nat
      true 1 [q 1; q 5] 0 None None None None
      false [] [] 0 0 0 0 [] [] 0.

Lemma none_due_at_epoch0 : none_due (ext:=demo) 2 0 at_epoch1.
Proof.
  intros [|[|i]] Hi; [exists (q 1) | exists (q 5) | lia]; split; reflexivity.
Defined.

Lemma idle_epoch_changes_nothing_witness :
  let p := mkI gp0 [1; 1] [1; 1] [1; 1] in
  _optimize_layout_generic_single_epoch (ext:=demo) (i_base p) at_epoch1 = Ok tt at_epoch1 /\
  _optimize_layout_inverse_single_epoch (ext:=demo) p at_epoch1 = Ok tt at_epoch1 /\
  _optimize_layout_euclidean_single_epoch_applygrad (ext:=demo) kp0 at_epoch1
  = Ok tt at_epoch1.
Proof.
  intros p.
  apply (idle_epoch_changes_nothing (ext:=demo) p kp0 at_epoch1);
    exact none_due_at_epoch0.
Defined.

Lemma generic_original_verbose_divides_by_zero_witness :
  error_of (optimize_layout_generic_original (ext:=demo) (run_gargs 3 true) true
              (start line2)) = Some ZeroDivisionError /\
  heap (final (optimize_layout_generic_original (ext:=demo) (run_gargs 3 true) true
                 (start line2))) = heap (start line2).
Proof.
  apply (generic_original_verbose_divides_by_zero (ext:=demo) (run_gargs 3 true)
           (start line2)); [exact demo_epochs_positive | simpl; lia].
Defined.

Lemma one_epoch_run_moves_nothing_witness :
  let A := run_gargs 1 true in
  (exists s', optimize_layout_generic (ext:=demo) A (start line2)
              = Ok (ga_head_embedding A) s'
              /\ heap s' = heap (start line2) /\ rng s' = rng (start line2)) /\
  (exists s', optimize_layout_inverse (ext:=demo) A [1; 1] [1; 1] [1; 1] (start line2)
              = Ok (ga_head_embedding A) s'
              /\ heap s' = heap (start line2) /\ rng s' = rng (start line2)) /\
  (exists s', optimize_layout_generic_original (ext:=demo) A false (start line2)
              = Ok (ga_head_embedding A) s'
              /\ heap s' = heap (start line2) /\ rng s' = rng (start line2)).
Proof.
  intros A.
  apply (one_epoch_run_moves_nothing (ext:=demo) A [1; 1] [1; 1] [1; 1] (start line2));
    [exact demo_epochs_positive | simpl; lia].
Defined.

(** * The densMAP statistics of an epoch *)

Section Densmap.
Context {ext : Externals}.

(** X18.  [_optimize_layout_euclidean_densmap_epoch_init] starts afresh:
    what it computes does not depend on what [re_sum] and [phi_sum] held
    before the call, only on their length; and it reads the embeddings
    without writing anything. *)
Theorem densmap_epoch_init_starts_afresh (he te : loc) (hd tl : list nat) (a b : Qc)
    (re_sum phi_sum re_sum' phi_sum' : list Qc) (s : state1) :
  length re_sum = length re_sum' ->
  length phi_sum = length phi_sum' ->
  length re_sum = length phi_sum ->
  _optimize_layout_euclidean_densmap_epoch_init he te hd tl a b re_sum phi_sum s
  = _optimize_layout_euclidean_densmap_epoch_init he te hd tl a b re_sum' phi_sum' s /\
  final (_optimize_layout_euclidean_densmap_epoch_init he te hd tl a b re_sum phi_sum s) = s.
Proof.
  intros Hr Hp _. split.
  - unfold _optimize_layout_euclidean_densmap_epoch_init.
    rewrite (const_fmap (fun _ : Qc => (0 : Qc)) re_sum 0) by done.
    rewrite (const_fmap (fun _ : Qc => (0 : Qc)) phi_sum 0) by done.
    rewrite (const_fmap (fun _ : Qc => (0 : Qc)) re_sum' 0) by done.
    rewrite (const_fmap (fun _ : Qc => (0 : Qc)) phi_sum' 0) by done.
    by rewrite Hr, Hp.
  - apply (keeps_final (same_on (fun s : state1 => s))).
    apply keeps_densmap_epoch_init; po.
Qed.

End Densmap.

Lemma densmap_epoch_init_starts_afresh_witness :
  _optimize_layout_euclidean_densmap_epoch_init (ext:=demo) 1%positive 1%positive
    [0; 1]%nat [1; 0]%nat 1 1 [q 7; q 8] [q 9; q 3] (start line2)
  = _optimize_layout_euclidean_densmap_epoch_init (ext:=demo) 1%positive 1%positive
      [0; 1]%nat [1; 0]%nat 1 1 [q 0; q 0] [q 0; q 0] (start line2) /\
  final (_optimize_layout_euclidean_densmap_epoch_init (ext:=demo) 1%positive 1%positive
           [0; 1]%nat [1; 0]%nat 1 1 [q 7; q 8] [q 9; q 3] (start line2))
  = start line2.
Proof.
  apply (densmap_epoch_init_starts_afresh (ext:=demo) 1%positive 1%positive
           [0; 1]%nat [1; 0]%nat 1 1 [q 7; q 8] [q 9; q 3] [q 0; q 0] [q 0; q 0]
           (start line2)); reflexivity.
Defined.

(** * The learning rate in the other drivers *)

Section AnnealCalls.
Context {ext : Externals} {T : Type}.
Context (initial_alpha : Qc) (n_epochs : nat).

(** Every recorded entry into the kernel carries the learning rate
    [alpha_at] of its epoch. *)
Definition anneal_calls_ok (l : list event) : Prop :=
  forall n alpha, (n, alpha) ∈ kernel_calls l ->
    (n < n_epochs)%nat /\ alpha = alpha_at initial_alpha n_epochs n.

Definition anneal_calls_stay_ok : state T -> state T -> Prop :=
  fun s s' => anneal_calls_ok (log s) -> anneal_calls_ok (log s').

Global Instance anneal_calls_stay_ok_preorder : PreOrder anneal_calls_stay_ok.
Proof.
  split.
  - intros s Hs. exact Hs.
  - intros s1 s2 s3 H12 H23 Hs. apply H23, H12, Hs.
Qed.


Context (kernel : nat -> Qc -> M (state T) unit).
(** What the loop is run with: a kernel whose record of an entry is the
    epoch number and the learning rate it is called with. *)
Hypothesis Hkernel : forall n alpha, keeps (entered n alpha) (kernel n alpha).



End AnnealCalls.

Lemma same_log_store {ext : Externals} {T} (v : view) : StoreOk (same_on (@log ext T)) v.
Proof. intros s r. reflexivity. Qed.
Lemma same_log_rng {ext : Externals} {T} : RngOk (same_on (@log ext T)).
Proof. intros s r. reflexivity. Qed.
Lemma same_log_eons {ext : Externals} : EonsOk (same_on (@log ext (list Qc))).
Proof. intros s f. reflexivity. Qed.
Lemma same_log_eonns {ext : Externals} : EonnsOk (same_on (@log ext (list Qc))).
Proof. intros s f. reflexivity. Qed.

#[global] Hint Resolve same_log_store same_log_rng same_log_eons same_log_eonns : frames.


Section OtherDriversRate.
Context {ext : Externals}.









End OtherDriversRate.


(** * The numeric primitives *)

Lemma rdist_from_acc (acc : Qc) (x y : row) :
  rdist_from acc x y = acc + rdist_from 0 x y.
Proof.
  revert acc y. induction x as [|xd x IH]; intros acc [|yd y]; simpl;
    try (by rewrite Qcplus_0_r).
  rewrite (IH (acc + _)), (IH (0 + _)). ring.
Qed.

Lemma rdist_cons (xd yd : Qc) (x y : row) :
  rdist (xd :: x) (yd :: y) = (xd - yd) * (xd - yd) + rdist x y.
Proof. unfold rdist. simpl. rewrite rdist_from_acc. ring. Qed.

Lemma Qc_square_nonneg (d : Qc) : 0 ≤ d * d.
Proof. to_Q. nra. Qed.

Lemma rdist_nonneg (x y : row) : 0 ≤ rdist x y.
Proof.
  revert y. induction x as [|xd x IH]; intros [|yd y]; try apply Qcle_refl.
  rewrite rdist_cons. pose proof (Qc_square_nonneg (xd - yd)) as Hsq.
  pose proof (IH y) as Hr.
  set (a := (xd - yd) * (xd - yd)) in *. set (r := rdist x y) in *.
  clearbody a r. to_Q. lra.
Qed.

Lemma rdist_sym (x y : row) : rdist x y = rdist y x.
Proof.
  revert y. induction x as [|xd x IH]; intros [|yd y]; try reflexivity.
  rewrite !rdist_cons, IH. ring.
Qed.

Lemma rdist_zero_eq (x y : row) : length x = length y -> rdist x y = 0 -> x = y.
Proof.
  revert y. induction x as [|xd x IH]; intros [|yd y] Hlen; try done.
  rewrite rdist_cons. intros Hz.
  pose proof (Qc_square_nonneg (xd - yd)) as Hsq.
  pose proof (rdist_nonneg x y) as Hr.
  assert (Ha : (xd - yd) * (xd - yd) = 0).
  { set (a := (xd - yd) * (xd - yd)) in *. set (r := rdist x y) in *.
    clearbody a r. to_Q. lra. }
  assert (Hrz : rdist x y = 0).
  { rewrite Ha in Hz. by rewrite Qcplus_0_l in Hz. }
  assert (Hd : xd - yd = 0).
  { destruct (Qc_eq_dec (xd - yd) 0) as [Hd|Hd]; [done|].
    by apply Qcmult_integral_l in Ha. }
  f_equal.
  - rewrite <- (Qcplus_0_r yd), <- Hd. ring.
  - apply IH; [by injection Hlen | done].
Qed.

(** X20.  [rdist] is a squared distance: symmetric, never negative, and,
    for two points of the same dimension, zero exactly when they are the
    same point. *)
Theorem rdist_is_a_squared_distance (x y : row) :
  length x = length y ->
  rdist x y = rdist y x /\
  0 ≤ rdist x y /\
  (rdist x y = 0 <-> x = y).
Proof.
  intros Hlen. split; [apply rdist_sym|]. split; [apply rdist_nonneg|]. split.
  - by apply rdist_zero_eq.
  - intros ->. unfold rdist. apply rdist_from_diag.
Qed.

Lemma rdist_is_a_squared_distance_witness :
  rdist [q 0; q 3] [q 4; q 0] = rdist [q 4; q 0] [q 0; q 3] /\
  0 ≤ rdist [q 0; q 3] [q 4; q 0] /\
  (rdist [q 0; q 3] [q 4; q 0] = 0 <-> [q 0; q 3] = [q 4; q 0]).
Proof.
  apply (rdist_is_a_squared_distance [q 0; q 3] [q 4; q 0]). reflexivity.
Defined.

Lemma clip_cases (v : Qc) :
  (four < v /\ clip v = four) \/
  (v < - four /\ clip v = - four) \/
  (- four ≤ v /\ v ≤ four /\ clip v = v).
Proof.
  destruct (Qclt_le_dec four v) as [Hgt|Hle].
  { left. split; [done|]. unfold clip, fgt. by rewrite bool_decide_eq_true_2. }
  destruct (Qclt_le_dec v (- four)) as [Hlt|Hge].
  - right; left. split; [done|]. unfold clip, fgt.
    rewrite bool_decide_eq_false_2 by (by apply Qcle_not_lt).
    by rewrite bool_decide_eq_true_2.
  - right; right. split; [done|]. split; [done|]. unfold clip, fgt.
    rewrite bool_decide_eq_false_2 by (by apply Qcle_not_lt).
    by rewrite bool_decide_eq_false_2 by (by apply Qcle_not_lt).
Qed.

(** X21.  [clip] clamps into [-4, 4]: its value always lies in that
    range, a value already in the range is returned as it is, clipping
    twice is clipping once, and [clip] never reverses the order of two
    values. *)
Theorem clip_clamps (v w : Qc) :
  (- four ≤ clip v /\ clip v ≤ four) /\
  (- four ≤ v -> v ≤ four -> clip v = v) /\
  clip (clip v) = clip v /\
  (v ≤ w -> clip v ≤ clip w).
Proof.
  assert (H4 : - four < four) by reflexivity.
  assert (Hrange : forall u, - four ≤ clip u /\ clip u ≤ four).
  { intros u. destruct (clip_cases u) as [[_ ->]|[[_ ->]|(Hlo & Hhi & ->)]].
    - split; [by apply Qclt_le_weak | apply Qcle_refl].
    - split; [apply Qcle_refl | by apply Qclt_le_weak].
    - done. }
  assert (Hid : forall u, - four ≤ u -> u ≤ four -> clip u = u).
  { intros u Hlo Hhi. destruct (clip_cases u) as [[Hgt _]|[[Hlt _]|(_ & _ & ->)]].
    - by apply Qclt_not_le in Hgt.
    - by apply Qclt_not_le in Hlt.
    - done. }
  split; [apply Hrange|]. split; [apply Hid|]. split.
  - destruct (Hrange v). by apply Hid.
  - intros Hle.
    destruct (clip_cases v) as [[Hv ->]|[[Hv ->]|(Hvl & Hvh & ->)]];
    destruct (clip_cases w) as [[Hw ->]|[[Hw ->]|(Hwl & Hwh & ->)]];
      to_Q; lra.
Qed.

(** * The two Euclidean kernels side by side *)

Lemma for_each_ext {S A} (xs : list A) (f g : A -> M S unit) (s : S) :
  (forall x s', f x s' = g x s') -> for_each xs f s = for_each xs g s.
Proof.
  intros Hfg. revert s. induction xs as [|x xs IH]; intros s; simpl; [done|].
  unfold mbind, M_bind, bind. rewrite Hfg. destruct (g x s); [apply IH | done].
Qed.

Lemma fgt_fle (e n : Qc) : fgt e n = negb (fle e n).
Proof.
  unfold fgt, fle. destruct (Qclt_le_dec n e) as [Hlt|Hle].
  - rewrite bool_decide_eq_true_2 by done.
    by rewrite bool_decide_eq_false_2 by (by apply Qclt_not_le).
  - rewrite bool_decide_eq_false_2 by (by apply Qcle_not_lt).
    by rewrite bool_decide_eq_true_2.
Qed.

Lemma bind_ext {S A B} (m : M S A) (f g : A -> M S B) (s : S) :
  (forall a s', f a s' = g a s') -> (m ≫= f) s = (m ≫= g) s.
Proof.
  intros Hfg. unfold mbind, M_bind, bind. destruct (m s); [apply Hfg | done].
Qed.

Lemma bind_ext_l {S A B} (m m' : M S A) (f : A -> M S B) (s : S) :
  (forall s', m s' = m' s') -> (m ≫= f) s = (m' ≫= f) s.
Proof. intros Hm. unfold mbind, M_bind, bind. by rewrite Hm. Qed.

(** [dimx] is 2 for every [dim] from 1 to 1024: the scratch slice has all
    [dim] entries only up to [dim = 2]. *)
Lemma scratch_len_small (dim : nat) : (dim <= 2)%nat -> scratch_len dim = dim.
Proof.
  intros Hd. destruct dim as [|[|[|dim]]]; [reflexivity..|lia].
Qed.


Section SideBySide.
Context {ext : Externals}.

(** A scratch slice long enough is filled as a fresh array is. *)
Lemma fill_slice_from_full {T} (len : nat) (ds : list nat)
    (f : nat -> M (state T) Qc) :
  Forall (fun d => (d < len)%nat) ds -> fill_slice_from len ds f = fill_from ds f.
Proof.
  induction 1 as [|d ds Hd _ IH]; [reflexivity|].
  cbn [fill_slice_from fill_from]. rewrite bool_decide_eq_true_2 by exact Hd.
  rewrite IH. reflexivity.
Qed.

Lemma fill_slice_full {T} (n : nat) (f : nat -> M (state T) Qc) :
  fill_slice n n f = fill n f.
Proof.
  apply fill_slice_from_full, Forall_forall. intros d Hd.
  apply elem_of_seq in Hd. lia.
Qed.

(** The gradient is written to the scratch slice only when there is a
    gradient hook, and the slice is whole when [dim <= 2]. *)
Definition scratch_suffices (k : kparams) : Prop :=
  grad_mods k = false \/ (dim k <= 2)%nat.

Lemma attract_para_seq (k : kparams) (j kk : nat) (current other : view) (c : Qc) :
  scratch_suffices k ->
  attract_para k j kk current other c = attract k j kk current other c.
Proof.
  intros [Hg|Hd]; unfold attract_para, attract.
  - rewrite Hg. reflexivity.
  - rewrite (scratch_len_small _ Hd), !fill_slice_full. reflexivity.
Qed.

Lemma repel_para_seq (k : kparams) (j : nat) (current other : view) (c : Qc) :
  scratch_suffices k ->
  repel_para k j current other c = repel k j current other c.
Proof.
  intros [Hg|Hd]; unfold repel_para, repel.
  - rewrite Hg. reflexivity.
  - rewrite (scratch_len_small _ Hd), !fill_slice_full. reflexivity.
Qed.

Lemma negative_sample_para_seq (k : kparams) (j : nat) (current : view) (s : state1) :
  scratch_suffices k ->
  negative_sample_para k j current s = negative_sample k j current s.
Proof.
  intros Hk. unfold negative_sample_para, negative_sample.
  apply bind_ext. intros kk s1. apply bind_ext. intros other s2.
  apply bind_ext. intros cur s3. apply bind_ext. intros oth s4.
  by rewrite !repel_para_seq.
Qed.

Lemma edge_para_seq (k : kparams) (i : nat) (s : state1) :
  move_other k = false -> scratch_suffices k ->
  edge_para k i s = edge_seq k i s.
Proof.
  intros Hmo Hk. unfold edge_para, edge_seq. rewrite Hmo.
  rewrite !(bind_ok get _ s s s eq_refl).
  destruct (eons s !! i) as [e_i|]; [|reflexivity].
  rewrite !(bind_ok (index (Some e_i)) _ s e_i s eq_refl).
  rewrite fgt_fle. destruct (fle e_i (Qc_of_nat (n k))); [|reflexivity].
  cbn [negb].
  apply bind_ext. intros j s1. apply bind_ext. intros kk s2.
  apply bind_ext. intros current s3. apply bind_ext. intros other s4.
  apply bind_ext. intros cur s5. apply bind_ext. intros oth s6.
  apply bind_ext. intros grad_coeff s7.
  rewrite attract_para_seq by exact Hk.
  apply bind_ext. intros [] s8.
  lazymatch goal with
  | |- _ = (mret tt ≫= ?g) ?s0 => change ((mret tt ≫= g) s0) with (g tt s0); cbv beta
  end.
  apply bind_ext. intros [] s9. apply bind_ext. intros n_neg_samples s10.
  destruct (bool_decide (n_neg_samples ≤ 0)%Z); [reflexivity|].
  apply bind_ext_l. intros s'. unfold for_range.
  apply for_each_ext. intros _ s''. by apply negative_sample_para_seq.
Qed.

(** X22.  With [move_other] off, and either without a gradient hook or with
    an embedding of at most two dimensions, the parallel Euclidean kernel
    run over the edges in their order does exactly what the sequential
    kernel does: same result, same arrays, same schedule, same generator
    state.  (With a gradient hook the parallel kernel writes the gradient to
    [tmp1[thr, 0:dim]], a slice of a row [dimx = 2] wide, which holds all
    [dim] entries only for [dim <= 2].) *)
Theorem parallel_kernel_in_order_is_sequential (k : kparams) (s : state1) :
  move_other k = false ->
  grad_mods k = false \/ (dim k <= 2)%nat ->
  _optimize_layout_euclidean_single_epoch_para (seq 0 (length (epochs_per_sample k))) k s
  = _optimize_layout_euclidean_single_epoch k s.
Proof.
  intros Hmo Hk.
  unfold _optimize_layout_euclidean_single_epoch_para,
    _optimize_layout_euclidean_single_epoch, for_range.
  unfold mbind, M_bind, bind.
  destruct (assert_same_embedding k s) as [[] s1|e s1]; [|reflexivity].
  apply for_each_ext. intros i s'. by apply edge_para_seq.
Qed.

End SideBySide.

Lemma parallel_kernel_in_order_is_sequential_witness :
  _optimize_layout_euclidean_single_epoch_para (ext:=demo)
    (seq 0 (length (epochs_per_sample (kp false)))) (kp false) at_epoch1
  = _optimize_layout_euclidean_single_epoch (ext:=demo) (kp false) at_epoch1.
Proof.
  apply (parallel_kernel_in_order_is_sequential (ext:=demo) (kp false) at_epoch1).
  - reflexivity.
  - left. reflexivity.
Defined.

(** * The scratch slice of the parallel kernel *)

Section ScratchSlice.
Context {ext : Externals}.












End ScratchSlice.





(** * The [output_constrain] dictionary *)

Section OutputConstrain.

Lemma read_output_constrain_lookup (d : list (string * pyfn)) (o : out_hooks) :
  NoDup d.*1 ->
  let m : gmap string pyfn := list_to_map d in
  outconstrain_pt (read_output_constrain d o)
    = from_option Some (outconstrain_pt o) (m !! "pt") /\
  outconstrain_grad (read_output_constrain d o)
    = from_option Some (outconstrain_grad o) (m !! "grad") /\
  outconstrain_epoch_pt (read_output_constrain d o)
    = from_option Some (outconstrain_epoch_pt o) (m !! "epoch_pt") /\
  outconstrain_final_pt (read_output_constrain d o)
    = from_option Some (outconstrain_final_pt o) (m !! "final_pt").
Proof.
  revert o. induction d as [|[key fn] d IH]; intros o Hnd; [done|].
  rewrite fmap_cons in Hnd. apply NoDup_cons in Hnd as [Hkey Hnd].
  cbn [read_output_constrain list_to_map foldr]. cbv zeta.
  pose proof (not_elem_of_list_to_map_1 (M:=gmap string) d key Hkey) as Hnone.
  set (m' := list_to_map d : gmap string pyfn) in *.
  specialize (IH (let o := if String.eqb key "pt"
               then mkOut (Some fn) (outconstrain_grad o) (outconstrain_epoch_pt o)
                      (outconstrain_final_pt o) else o in
      let o := if String.eqb key "grad"
               then mkOut (outconstrain_pt o) (Some fn) (outconstrain_epoch_pt o)
                      (outconstrain_final_pt o) else o in
      let o := if String.eqb key "epoch_pt"
               then mkOut (outconstrain_pt o) (outconstrain_grad o) (Some fn)
                      (outconstrain_final_pt o) else o in
      let o := if String.eqb key "final_pt"
               then mkOut (outconstrain_pt o) (outconstrain_grad o)
                      (outconstrain_epoch_pt o) (Some fn) else o in o) Hnd).
  cbv zeta in IH. fold m' in IH.
  destruct IH as (H1 & H2 & H3 & H4).
  change (uncurry insert (key, fn) m') with (<[key := fn]> m').
  repeat split.
  - rewrite H1. destruct (decide (key = "pt")) as [->|Hne].
    + rewrite lookup_insert_eq, Hnone. reflexivity.
    + rewrite lookup_insert_ne by done. f_equal.
      apply String.eqb_neq in Hne. rewrite Hne.
      by destruct (String.eqb key "grad"), (String.eqb key "epoch_pt"),
        (String.eqb key "final_pt").
  - rewrite H2. destruct (decide (key = "grad")) as [->|Hne].
    + rewrite lookup_insert_eq, Hnone. reflexivity.
    + rewrite lookup_insert_ne by done. f_equal.
      apply String.eqb_neq in Hne. rewrite Hne.
      by destruct (String.eqb key "pt"), (String.eqb key "epoch_pt"),
        (String.eqb key "final_pt").
  - rewrite H3. destruct (decide (key = "epoch_pt")) as [->|Hne].
    + rewrite lookup_insert_eq, Hnone. reflexivity.
    + rewrite lookup_insert_ne by done. f_equal.
      apply String.eqb_neq in Hne. rewrite Hne.
      by destruct (String.eqb key "pt"), (String.eqb key "grad"),
        (String.eqb key "final_pt").
  - rewrite H4. destruct (decide (key = "final_pt")) as [->|Hne].
    + rewrite lookup_insert_eq, Hnone. reflexivity.
    + rewrite lookup_insert_ne by done. f_equal.
      apply String.eqb_neq in Hne. rewrite Hne.
      by destruct (String.eqb key "pt"), (String.eqb key "grad"),
        (String.eqb key "epoch_pt").
Qed.

(** X23.  The four output-side hooks are what the [output_constrain]
    dictionary holds under the keys 'pt', 'grad', 'epoch_pt' and
    'final_pt', and [None] for a key that is absent; any other key is
    ignored without a warning. *)
Theorem output_constrain_is_read_by_key (d : list (string * pyfn)) :
  NoDup d.*1 ->
  let m : gmap string pyfn := list_to_map d in
  outconstrain_pt (out_of (Some d)) = m !! "pt" /\
  outconstrain_grad (out_of (Some d)) = m !! "grad" /\
  outconstrain_epoch_pt (out_of (Some d)) = m !! "epoch_pt" /\
  outconstrain_final_pt (out_of (Some d)) = m !! "final_pt".
Proof.
  intros Hnd m.
  destruct (read_output_constrain_lookup d no_hooks Hnd) as (H1 & H2 & H3 & H4).
  fold m in H1, H2, H3, H4. unfold out_of.
  rewrite H1, H2, H3, H4. simpl.
  by destruct (m !! "pt"), (m !! "grad"), (m !! "epoch_pt"), (m !! "final_pt").
Qed.

End OutputConstrain.

Lemma output_constrain_is_read_by_key_witness :
  let d := [("final_pt", shift 1); ("colour", shift_pt 1); ("pt", shift_pt 2)] in
  let m : gmap string pyfn := list_to_map d in
  outconstrain_pt (out_of (Some d)) = m !! "pt" /\
  outconstrain_grad (out_of (Some d)) = m !! "grad" /\
  outconstrain_epoch_pt (out_of (Some d)) = m !! "epoch_pt" /\
  outconstrain_final_pt (out_of (Some d)) = m !! "final_pt".
Proof.
  intros d.
  apply (output_constrain_is_read_by_key d).
  apply (bool_decide_eq_true_1 (NoDup d.*1)). vm_compute. reflexivity.
Defined.

(** * A vertex without edges

    Every write of a kernel goes through [head_embedding[head[i]]] or
    [tail_embedding[tail[i]]] of an edge [i]; the vertex drawn for a
    negative sample is only read. *)

Section Isolated.
Context {ext : Externals}.
Context (arr : loc) (p : nat).

Lemma unch_store_listed (arr' : loc) (l : list nat) (i j : nat) :
  l !! i = Some j -> p ∉ l -> StoreOk (unch (arr, p)) (arr', j).
Proof.
  intros Hj Hp. apply unch_store_other. intros [= _ ->].
  apply Hp. by eapply list_elem_of_lookup_2.
Qed.

Lemma unch_eons (v : view) : EonsOk (unch v).
Proof. intros s f. reflexivity. Qed.

Lemma unch_eonns (v : view) : EonnsOk (unch v).
Proof. intros s f. reflexivity. Qed.

Ltac isolated :=
  pose proof unch_store_listed as Hst;
  pose proof (unch_rng (arr, p)) as Hrng;
  pose proof (unch_eons (arr, p)) as Heons;
  pose proof (unch_eonns (arr, p)) as Heonns;
  keeps_solve.

Lemma isolated_edge_seq (k : kparams) (i : nat) :
  p ∉ head k -> p ∉ tail k -> keeps (unch (arr, p)) (edge_seq k i).
Proof. intros Hh Ht. unfold edge_seq. isolated. Qed.

Lemma isolated_edge_para (k : kparams) (i : nat) :
  p ∉ head k -> p ∉ tail k -> keeps (unch (arr, p)) (edge_para k i).
Proof. intros Hh Ht. unfold edge_para. isolated. Qed.

Lemma isolated_edge_generic (k : gparams) (i : nat) :
  p ∉ g_head k -> p ∉ g_tail k -> keeps (unch (arr, p)) (edge_generic k i).
Proof. intros Hh Ht. unfold edge_generic. isolated. Qed.

Lemma isolated_edge_inverse (q : iparams) (i : nat) :
  p ∉ g_head (i_base q) -> p ∉ g_tail (i_base q) ->
  keeps (unch (arr, p)) (edge_inverse q i).
Proof. intros Hh Ht. unfold edge_inverse. cbv zeta. isolated. Qed.

(** X24.  A vertex that is the head of no edge and the tail of none is
    never moved by an epoch of the sequential or of the parallel Euclidean
    kernel: its row in every array is as it was, with [move_other] on or
    off, whatever the hooks and whatever vertices the negative samples
    draw. *)
Theorem euclidean_kernels_leave_isolated_vertex (k : kparams) (order : list nat)
    (s : state1) :
  p ∉ head k ->
  p ∉ tail k ->
  read_view (heap (final (_optimize_layout_euclidean_single_epoch k s))) (arr, p)
    = read_view (heap s) (arr, p) /\
  read_view (heap (final (_optimize_layout_euclidean_single_epoch_para order k s))) (arr, p)
    = read_view (heap s) (arr, p).
Proof.
  intros Hh Ht. split.
  - apply (keeps_final (unch (arr, p))).
    unfold _optimize_layout_euclidean_single_epoch.
    apply keeps_bind; po; [apply keeps_assert_same_embedding; po|]. intros _.
    apply keeps_for_range; po. intros i. by apply isolated_edge_seq.
  - apply (keeps_final (unch (arr, p))).
    unfold _optimize_layout_euclidean_single_epoch_para.
    apply keeps_bind; po; [apply keeps_assert_same_embedding; po|]. intros _.
    apply keeps_for_each; po. intros i. by apply isolated_edge_para.
Qed.

(** X25.  A vertex that is the head of no edge and the tail of none is
    never moved by an epoch of the Generic or of the Inverse kernel. *)
Theorem generic_kernels_leave_isolated_vertex (q : iparams) (s : state1) :
  p ∉ g_head (i_base q) ->
  p ∉ g_tail (i_base q) ->
  read_view (heap (final (_optimize_layout_generic_single_epoch (i_base q) s))) (arr, p)
    = read_view (heap s) (arr, p) /\
  read_view (heap (final (_optimize_layout_inverse_single_epoch q s))) (arr, p)
    = read_view (heap s) (arr, p).
Proof.
  intros Hh Ht. split.
  - apply (keeps_final (unch (arr, p))).
    apply keeps_for_range; po. intros i. by apply isolated_edge_generic.
  - apply (keeps_final (unch (arr, p))).
    apply keeps_for_range; po. intros i. by apply isolated_edge_inverse.
Qed.

End Isolated.

(** Three points on a line, the third without an edge. *)
Definition line3 : gmap loc matrix := {[ 1%positive := [[q 0]; [q 1]; [q 2]] ]}.

Definition at_line3_epoch1 : state (ext:=demo) (list Qc) :=
  @mkState demo (list Qc) line3 [q 1; q 5] [q 1; q 5] 0%Z [].

Definition kp3 : kparams :=
  mkK 1%positive 1%positive [0; 1]%nat [1; 0]%nat 3 [q 1; q 5] 1 1 1 1%nat
      true 1 [q 1; q 5] 1 None None None None
      false [] [] 0 0 0 0 [] [] 0.

Definition gp3 : gparams :=
  mkG 1%positive 1%positive [0; 1]%nat [1; 0]%nat 3 [q 1; q 5] 1 1 1 1%nat
      true 1 [q 1; q 5] 1.

Lemma two_not_in_01 : 2%nat ∉ [0; 1]%nat.
Proof. intros H. apply (bool_decide_eq_true_2 _) in H. discriminate H. Defined.

Lemma two_not_in_10 : 2%nat ∉ [1; 0]%nat.
Proof. intros H. apply (bool_decide_eq_true_2 _) in H. discriminate H. Defined.

Lemma euclidean_kernels_leave_isolated_vertex_witness :
  read_view (heap (final (_optimize_layout_euclidean_single_epoch (ext:=demo) kp3
                            at_line3_epoch1))) (1%positive, 2%nat)
    = read_view (heap at_line3_epoch1) (1%positive, 2%nat) /\
  read_view (heap (final (_optimize_layout_euclidean_single_epoch_para (ext:=demo)
                            [1; 0]%nat kp3 at_line3_epoch1))) (1%positive, 2%nat)
    = read_view (heap at_line3_epoch1) (1%positive, 2%nat).
Proof.
  apply (euclidean_kernels_leave_isolated_vertex (ext:=demo) 1%positive 2 kp3 [1; 0]%nat
           at_line3_epoch1); [exact two_not_in_01 | exact two_not_in_10].
Defined.

Lemma generic_kernels_leave_isolated_vertex_witness :
  let p := mkI gp3 [1; 1; 1] [1; 1; 1] [1; 1; 1] in
  read_view (heap (final (_optimize_layout_generic_single_epoch (ext:=demo) (i_base p)
                            at_line3_epoch1))) (1%positive, 2%nat)
    = read_view (heap at_line3_epoch1) (1%positive, 2%nat) /\
  read_view (heap (final (_optimize_layout_inverse_single_epoch (ext:=demo) p
                            at_line3_epoch1))) (1%positive, 2%nat)
    = read_view (heap at_line3_epoch1) (1%positive, 2%nat).
Proof.
  intros p.
  apply (generic_kernels_leave_isolated_vertex (ext:=demo) 1%positive 2 p at_line3_epoch1);
    [exact two_not_in_01 | exact two_not_in_10].
Defined.

(** * The schedule runs on its own

    What the two schedule arrays hold after an epoch is a function of what
    they held before, of the epoch number and of the two period arrays; the
    embedding, the metric and the random numbers play no part. *)

(** What processing edge [i] at epoch [n] does to the pair of schedule
    arrays: for an edge that is due,
    [epoch_of_next_sample[i] += epochs_per_sample[i]] and
    [epoch_of_next_negative_sample[i] += n_neg_samples * d'] with
    [n_neg_samples = int((n - e') / d')].  The Euclidean kernels skip the
    second update when [n_neg_samples <= 0] ([guarded]); the Generic and
    Inverse kernels make it whatever the count. *)
Definition fire (guarded : bool) (n : nat) (eps epns : list Qc) (i : nat)
    (X : list Qc * list Qc) : option (list Qc * list Qc) :=
  e ← X.1 !! i;
  if fle e (Qc_of_nat n) then
    d ← eps !! i;
    e' ← X.2 !! i;
    d' ← epns !! i;
    let n_neg_samples := Qc_trunc ((Qc_of_nat n - e') / d') in
    Some (<[i := e + d]> X.1,
          if guarded && bool_decide (n_neg_samples ≤ 0)%Z then X.2
          else <[i := e' + Qc_of_Z n_neg_samples * d']> X.2)
  else Some X.

(** The edges [js], one after the other. *)
Fixpoint fire_all (guarded : bool) (n : nat) (eps epns : list Qc) (js : list nat)
    (X : list Qc * list Qc) : option (list Qc * list Qc) :=
  match js with
  | [] => Some X
  | i :: js' => X' ← fire guarded n eps epns i X; fire_all guarded n eps epns js' X'
  end.

Lemma fire_due (g : bool) (n : nat) (eps epns E N : list Qc) (i : nat) (e d e' d' : Qc) :
  E !! i = Some e -> fle e (Qc_of_nat n) = true ->
  eps !! i = Some d -> N !! i = Some e' -> epns !! i = Some d' ->
  fire g n eps epns i (E, N)
  = Some (<[i := e + d]> E,
          if g && bool_decide (Qc_trunc ((Qc_of_nat n - e') / d') ≤ 0)%Z then N
          else <[i := e' + Qc_of_Z (Qc_trunc ((Qc_of_nat n - e') / d')) * d']> N).
Proof.
  intros HE Hdue Hd He' Hd'. unfold fire.
  change ((E, N).1) with E. change ((E, N).2) with N.
  rewrite HE. change (mbind ?f (Some e)) with (f e). cbv beta.
  rewrite Hdue, Hd. change (mbind ?f (Some d)) with (f d). cbv beta.
  rewrite He'. change (mbind ?f (Some e')) with (f e'). cbv beta.
  rewrite Hd'. reflexivity.
Qed.

Lemma fire_idle (g : bool) (n : nat) (eps epns E N : list Qc) (i : nat) (e : Qc) :
  E !! i = Some e -> fle e (Qc_of_nat n) = false ->
  fire g n eps epns i (E, N) = Some (E, N).
Proof.
  intros HE Hdue. unfold fire. change ((E, N).1) with E.
  rewrite HE. change (mbind ?f (Some e)) with (f e). cbv beta. by rewrite Hdue.
Qed.

(** What [fire] returns, when it returns. *)
Lemma fire_inv (g : bool) (n : nat) (eps epns : list Qc) (i : nat)
    (X X' : list Qc * list Qc) :
  fire g n eps epns i X = Some X' ->
  exists e, X.1 !! i = Some e /\
    ((fle e (Qc_of_nat n) = false /\ X' = X) \/
     (fle e (Qc_of_nat n) = true /\
      exists d e' d', eps !! i = Some d /\
        X'.1 = <[i := e + d]> X.1 /\
        (X'.2 = X.2 \/ X'.2 = <[i := e' + d']> X.2))).
Proof.
  destruct X as [E N]. intros Hf.
  destruct (E !! i) as [e|] eqn:HE; [|by unfold fire in Hf; simpl in Hf; rewrite HE in Hf].
  exists e. split; [done|].
  destruct (fle e (Qc_of_nat n)) eqn:Hdue.
  - right. split; [done|].
    destruct (eps !! i) as [d|] eqn:Hd;
      [|by unfold fire in Hf; simpl in Hf; rewrite HE in Hf; simpl in Hf;
           rewrite Hdue, Hd in Hf].
    destruct (N !! i) as [e'|] eqn:He';
      [|by unfold fire in Hf; simpl in Hf; rewrite HE in Hf; simpl in Hf;
           rewrite Hdue, Hd in Hf; simpl in Hf; rewrite He' in Hf].
    destruct (epns !! i) as [d'|] eqn:Hd';
      [|by unfold fire in Hf; simpl in Hf; rewrite HE in Hf; simpl in Hf;
           rewrite Hdue, Hd in Hf; simpl in Hf; rewrite He' in Hf; simpl in Hf;
           rewrite Hd' in Hf].
    rewrite (fire_due g n eps epns E N i e d e' d' HE Hdue Hd He' Hd') in Hf.
    injection Hf as <-.
    exists d, e', (Qc_of_Z (Qc_trunc ((Qc_of_nat n - e') / d')) * d'). simpl.
    split; [done|]. split; [done|].
    destruct (g && _); [by left | by right].
  - left. split; [done|].
    rewrite (fire_idle g n eps epns E N i e HE Hdue) in Hf. by injection Hf as <-.
Qed.

Lemma fire_other (g : bool) (n : nat) (eps epns : list Qc) (i j : nat)
    (X X' : list Qc * list Qc) :
  fire g n eps epns j X = Some X' -> j ≠ i ->
  X'.1 !! i = X.1 !! i /\ X'.2 !! i = X.2 !! i.
Proof.
  intros Hf Hne.
  destruct (fire_inv _ _ _ _ _ _ _ Hf) as (e & He & [[_ ->]|[_ (d & e' & d' & _ & H1 & H2)]]);
    [done|].
  rewrite H1. split; [by rewrite list_lookup_insert_ne|].
  destruct H2 as [->| ->]; [done | by rewrite list_lookup_insert_ne].
Qed.

Lemma fire_all_other (g : bool) (n : nat) (eps epns : list Qc) (js : list nat) (i : nat)
    (X X' : list Qc * list Qc) :
  fire_all g n eps epns js X = Some X' -> i ∉ js ->
  X'.1 !! i = X.1 !! i /\ X'.2 !! i = X.2 !! i.
Proof.
  revert X. induction js as [|j js IH]; intros X Hf Hi; simpl in Hf.
  - by injection Hf as <-.
  - destruct (fire g n eps epns j X) as [X1|] eqn:H1; simpl in Hf; [|done].
    apply not_elem_of_cons in Hi as [Hne Hi].
    destruct (fire_other _ _ _ _ i j _ _ H1) as [Ha Hb]; [done|].
    destruct (IH X1 Hf Hi) as [Hc Hd]. split; congruence.
Qed.

(** Every edge in [js] that is due moves by its period, once. *)
Lemma fire_all_due (g : bool) (n : nat) (eps epns : list Qc) (js : list nat) (i : nat)
    (e : Qc) (X X' : list Qc * list Qc) :
  fire_all g n eps epns js X = Some X' -> NoDup js -> i ∈ js ->
  X.1 !! i = Some e -> e ≤ Qc_of_nat n ->
  exists d, eps !! i = Some d /\ X'.1 !! i = Some (e + d).
Proof.
  revert X. induction js as [|j js IH]; intros X Hf Hnd Hi He Hdue; simpl in Hf.
  - by apply elem_of_nil in Hi.
  - destruct (fire g n eps epns j X) as [X1|] eqn:H1; simpl in Hf; [|done].
    apply NoDup_cons in Hnd as [Hj Hnd].
    destruct (decide (j = i)) as [->|Hne].
    + assert (Hfle : fle e (Qc_of_nat n) = true) by (by apply bool_decide_eq_true_2).
      destruct (fire_inv _ _ _ _ _ _ _ H1)
        as (e0 & He0 & [[Hno _]|[_ (d & e' & d' & Hd & HX1 & _)]]).
      * rewrite He in He0. injection He0 as <-. by rewrite Hfle in Hno.
      * rewrite He in He0. injection He0 as <-.
        exists d. split; [done|].
        destruct (fire_all_other _ _ _ _ _ i _ _ Hf Hj) as [-> _]. rewrite HX1.
        apply list_lookup_insert_eq. by eapply lookup_lt_Some.
    + apply elem_of_cons in Hi as [->|Hi]; [done|].
      destruct (fire_other _ _ _ _ i j _ _ H1 Hne) as [Ha _].
      apply (IH X1 Hf Hnd Hi); [by rewrite Ha | done].
Qed.

Section Triples.
Context {ext : Externals}.

(** If [m] starts in a state where [P] holds and returns, [Q] holds of what
    it returns and of the state it returns in. *)
Definition triple {A} (P : state1 -> Prop) (m : M state1 A) (Q : A -> state1 -> Prop)
  : Prop :=
  forall s, P s -> match m s with Ok a s' => Q a s' | Err _ _ => True end.

Lemma triple_ret {A} (P : state1 -> Prop) (a : A) (Q : A -> state1 -> Prop) :
  (forall s, P s -> Q a s) -> triple P (mret a) Q.
Proof. intros HQ s HP. simpl. by apply HQ. Qed.

(** A step that leaves the schedule alone. *)
Lemma triple_pre {A B} (X : list Qc * list Qc) (m : M state1 A) (f : A -> M state1 B)
    (Q : B -> state1 -> Prop) :
  keeps (same_on sch) m ->
  (forall a, triple (fun s => sch s = X) (f a) Q) ->
  triple (fun s => sch s = X) (m ≫= f) Q.
Proof.
  intros Hm Hf s HP. unfold mbind, M_bind, bind. specialize (Hm s).
  destruct (m s) as [a s1|e s1]; [|done].
  destruct Hm as [Hs _]. apply Hf. unfold same_on in Hs. congruence.
Qed.

(** The opening of an edge body. *)
Lemma triple_open {B} (E N : list Qc) (i : nat) (f : Qc -> M state1 B)
    (Q : B -> state1 -> Prop) :
  (forall e, E !! i = Some e -> triple (fun s => sch s = (E, N)) (f e) Q) ->
  triple (fun s => sch s = (E, N)) (s ← get; e ← index (eons s !! i); f e) Q.
Proof.
  intros Hf s HP. rewrite (bind_ok get _ s s s eq_refl).
  assert (He : eons s = E) by (unfold sch in HP; congruence).
  rewrite He. destruct (E !! i) as [e|] eqn:Hi; [|done].
  rewrite (bind_ok (index (Some e)) _ s e s eq_refl). by apply Hf.
Qed.

Lemma triple_bump_sample {B} (E N eps : list Qc) (i : nat) (e : Qc)
    (rest : M state1 B) (Q : B -> state1 -> Prop) :
  E !! i = Some e ->
  (forall d, eps !! i = Some d ->
     triple (fun s => sch s = (<[i := e + d]> E, N)) rest Q) ->
  triple (fun s => sch s = (E, N)) (bump_sample eps i;; rest) Q.
Proof.
  intros Hi Hrest s HP.
  assert (He : eons s = E) by (unfold sch in HP; congruence).
  assert (Hn : eonns s = N) by (unfold sch in HP; congruence).
  unfold bump_sample. unfold mbind, M_bind, bind, get, index, modify; simpl.
  rewrite He, Hi; simpl.
  destruct (eps !! i) as [d|] eqn:Hd; simpl; [|done].
  apply (Hrest d eq_refl). unfold sch; simpl. by rewrite He, Hn.
Qed.

(** Counting the negative samples, at a state whose schedule is known. *)
Lemma neg_count_at (n : nat) (E N epns : list Qc) (i : nat) (s : state1) :
  sch s = (E, N) ->
  neg_count n epns i s =
  match N !! i, epns !! i with
  | Some e', Some d' => Ok (Qc_trunc ((Qc_of_nat n - e') / d')) s
  | _, _ => Err IndexError s
  end.
Proof.
  intros HP. assert (Hn : eonns s = N) by (unfold sch in HP; congruence).
  unfold neg_count, mbind, M_bind, bind, get, index; simpl. rewrite Hn.
  destruct (N !! i); simpl; [|done]. by destruct (epns !! i).
Qed.

Lemma bump_negative_at (E N epns : list Qc) (i : nat) (e' d' : Qc) (z : Z) (s : state1) :
  sch s = (E, N) -> N !! i = Some e' -> epns !! i = Some d' ->
  exists s', bump_negative epns i z s = Ok tt s' /\
             sch s' = (E, <[i := e' + Qc_of_Z z * d']> N).
Proof.
  intros HP He' Hd'.
  assert (He : eons s = E) by (unfold sch in HP; congruence).
  assert (Hn : eonns s = N) by (unfold sch in HP; congruence).
  eexists. split.
  - unfold bump_negative, mbind, M_bind, bind, get, index, modify; simpl.
    rewrite Hn, He', Hd'. reflexivity.
  - unfold sch; simpl. by rewrite He, Hn.
Qed.

(** The loop over the negative samples and the update that follows it. *)
Lemma loop_then_bump (E N epns : list Qc) (i : nat) (e' d' : Qc) (z : Z)
    (loop : M state1 unit) (Q : unit -> state1 -> Prop) (s : state1) :
  keeps (same_on sch) loop ->
  sch s = (E, N) -> N !! i = Some e' -> epns !! i = Some d' ->
  (forall s', sch s' = (E, <[i := e' + Qc_of_Z z * d']> N) -> Q tt s') ->
  match (loop;; bump_negative epns i z) s with
  | Ok a s' => Q a s'
  | Err _ _ => True
  end.
Proof.
  intros Hloop HP He' Hd' HQ. unfold mbind, M_bind, bind.
  pose proof (Hloop s) as Hl.
  destruct (loop s) as [[] s1|err s1]; [|done].
  destruct Hl as [Hl _]. unfold same_on in Hl.
  destruct (bump_negative_at E N epns i e' d' z s1) as (s2 & -> & Hs2);
    [congruence | done | done |].
  by apply HQ.
Qed.

(** The end of an edge's turn in the Generic and Inverse kernels. *)
Lemma triple_negative_tail (n : nat) (E N epns : list Qc) (i : nat)
    (loop : Z -> M state1 unit) (Q : unit -> state1 -> Prop) :
  (forall z, keeps (same_on sch) (loop z)) ->
  (forall e' d' s,
     N !! i = Some e' -> epns !! i = Some d' ->
     sch s = (E, <[i := e' + Qc_of_Z (Qc_trunc ((Qc_of_nat n - e') / d')) * d']> N) ->
     Q tt s) ->
  triple (fun s => sch s = (E, N))
    (n_neg_samples ← neg_count n epns i;
     loop n_neg_samples;;
     bump_negative epns i n_neg_samples) Q.
Proof.
  intros Hloop HQ s HP. unfold mbind at 1, M_bind, bind at 1.
  rewrite (neg_count_at n E N epns i s HP).
  destruct (N !! i) as [e'|] eqn:He'; [|done].
  destruct (epns !! i) as [d'|] eqn:Hd'; [|done].
  eapply loop_then_bump; eauto.
Qed.

(** The same in the sequential and the parallel Euclidean kernel. *)
Lemma triple_negative_tail_guarded (n : nat) (E N epns : list Qc) (i : nat)
    (loop : Z -> M state1 unit) (Q : unit -> state1 -> Prop) :
  (forall z, keeps (same_on sch) (loop z)) ->
  (forall e' d' s,
     N !! i = Some e' -> epns !! i = Some d' ->
     sch s = (E, if bool_decide (Qc_trunc ((Qc_of_nat n - e') / d') ≤ 0)%Z then N
                 else <[i := e' + Qc_of_Z (Qc_trunc ((Qc_of_nat n - e') / d')) * d']> N) ->
     Q tt s) ->
  triple (fun s => sch s = (E, N))
    (n_neg_samples ← neg_count n epns i;
     if bool_decide (n_neg_samples ≤ 0)%Z then mret tt
     else loop n_neg_samples;;
          bump_negative epns i n_neg_samples) Q.
Proof.
  intros Hloop HQ s HP. unfold mbind at 1, M_bind, bind at 1.
  rewrite (neg_count_at n E N epns i s HP).
  destruct (N !! i) as [e'|] eqn:He'; [|done].
  destruct (epns !! i) as [d'|] eqn:Hd'; [|done].
  specialize (HQ e' d').
  destruct (bool_decide (Qc_trunc ((Qc_of_nat n - e') / d') ≤ 0)%Z).
  - simpl. by apply HQ.
  - eapply loop_then_bump; eauto.
Qed.

(** The same in the [apply_grad] kernel, which writes the guard the other
    way round. *)
Lemma triple_negative_tail_positive (n : nat) (E N epns : list Qc) (i : nat)
    (loop : Z -> M state1 unit) (Q : unit -> state1 -> Prop) :
  (forall z, keeps (same_on sch) (loop z)) ->
  (forall e' d' s,
     N !! i = Some e' -> epns !! i = Some d' ->
     sch s = (E, if bool_decide (Qc_trunc ((Qc_of_nat n - e') / d') ≤ 0)%Z then N
                 else <[i := e' + Qc_of_Z (Qc_trunc ((Qc_of_nat n - e') / d')) * d']> N) ->
     Q tt s) ->
  triple (fun s => sch s = (E, N))
    (n_neg_samples ← neg_count n epns i;
     if bool_decide (0 < n_neg_samples)%Z then
       loop n_neg_samples;;
       bump_negative epns i n_neg_samples
     else mret tt) Q.
Proof.
  intros Hloop HQ s HP. unfold mbind at 1, M_bind, bind at 1.
  rewrite (neg_count_at n E N epns i s HP).
  destruct (N !! i) as [e'|] eqn:He'; [|done].
  destruct (epns !! i) as [d'|] eqn:Hd'; [|done].
  specialize (HQ e' d').
  set (z := Qc_trunc ((Qc_of_nat n - e') / d')) in *.
  destruct (decide (z ≤ 0)%Z) as [Hz|Hz].
  - rewrite bool_decide_eq_true_2 in HQ by done.
    rewrite bool_decide_eq_false_2 by lia. simpl. by apply HQ.
  - rewrite bool_decide_eq_false_2 in HQ by done.
    rewrite bool_decide_eq_true_2 by lia.
    eapply loop_then_bump; eauto.
Qed.

Ltac schedule_walk :=
  repeat first
    [ lazymatch goal with
      | |- triple _ (mbind _ (bump_sample _ _)) _ =>
          eapply triple_bump_sample; [eassumption | intros ? ?]
      | |- triple _ (mbind _ (neg_count _ _ _)) _ =>
          first [ eapply triple_negative_tail
                | eapply triple_negative_tail_guarded
                | eapply triple_negative_tail_positive ];
          [intros ?; solve [keeps_solve] | ]
      | |- triple _ (let '(_, _) := ?p in _) _ => destruct p
      end
    | apply triple_pre; [solve [keeps_solve] | intros ?] ].

Ltac schedule_edge HE Hdue :=
  schedule_walk;
  let e' := fresh "e'" in
  let d' := fresh "d'" in
  let s := fresh "s" in
  let He' := fresh "He'" in
  let Hd' := fresh "Hd'" in
  let Hs := fresh "Hs" in
  intros e' d' s He' Hd' Hs; rewrite Hs;
  erewrite fire_due by eassumption; reflexivity.

Lemma triple_edge_generic (k : gparams) (i : nat) (X : list Qc * list Qc) :
  triple (fun s => sch s = X) (edge_generic k i)
    (fun _ s => fire false (g_n k) (g_epochs_per_sample k)
                  (g_epochs_per_negative_sample k) i X = Some (sch s)).
Proof.
  destruct X as [E N]. unfold edge_generic.
  apply triple_open. intros e HE.
  destruct (fle e (Qc_of_nat (g_n k))) eqn:Hdue.
  - schedule_edge HE Hdue.
  - apply triple_ret. intros s Hs. rewrite Hs. by eapply fire_idle.
Qed.

Lemma triple_edge_inverse (p : iparams) (i : nat) (X : list Qc * list Qc) :
  triple (fun s => sch s = X) (edge_inverse p i)
    (fun _ s => fire false (g_n (i_base p)) (g_epochs_per_sample (i_base p))
                  (g_epochs_per_negative_sample (i_base p)) i X
                = Some (sch s)).
Proof.
  destruct X as [E N]. unfold edge_inverse. cbv zeta.
  apply triple_open. intros e HE.
  destruct (fle e (Qc_of_nat (g_n (i_base p)))) eqn:Hdue.
  - schedule_edge HE Hdue.
  - apply triple_ret. intros s Hs. rewrite Hs. by eapply fire_idle.
Qed.

Lemma triple_edge_para (k : kparams) (i : nat) (X : list Qc * list Qc) :
  triple (fun s => sch s = X) (edge_para k i)
    (fun _ s => fire true (n k) (epochs_per_sample k)
                  (epochs_per_negative_sample k) i X = Some (sch s)).
Proof.
  destruct X as [E N]. unfold edge_para.
  apply triple_open. intros e HE. rewrite fgt_fle.
  destruct (fle e (Qc_of_nat (n k))) eqn:Hdue; simpl.
  - schedule_edge HE Hdue.
  - apply triple_ret. intros s Hs. rewrite Hs. by eapply fire_idle.
Qed.

Lemma triple_edge_applygrad (k : kparams) (i : nat) (X : list Qc * list Qc) :
  triple (fun s => sch s = X) (edge_applygrad k i)
    (fun _ s => fire true (n k) (epochs_per_sample k)
                  (epochs_per_negative_sample k) i X = Some (sch s)).
Proof.
  destruct X as [E N]. unfold edge_applygrad, negative_sample_applygrad.
  apply triple_open. intros e HE.
  destruct (fle e (Qc_of_nat (n k))) eqn:Hdue.
  - schedule_edge HE Hdue.
  - apply triple_ret. intros s Hs. rewrite Hs. by eapply fire_idle.
Qed.

Lemma triple_for_each (g : bool) (n : nat) (eps epns : list Qc)
    (body : nat -> M state1 unit) (js : list nat) :
  (forall i X, triple (fun s => sch s = X) (body i)
                 (fun _ s => fire g n eps epns i X = Some (sch s))) ->
  forall X, triple (fun s => sch s = X) (for_each js body)
              (fun _ s => fire_all g n eps epns js X = Some (sch s)).
Proof.
  intros Hbody. induction js as [|i js IH]; intros X s HP; simpl.
  - by rewrite HP.
  - unfold mbind, M_bind, bind. pose proof (Hbody i X s HP) as Hi.
    destruct (body i s) as [[] s1|e s1]; [|done].
    rewrite Hi. simpl. by apply IH.
Qed.

(** X26.  The schedule arrays run on their own.  When an epoch of the
    Generic kernel, or of the Inverse kernel, completes, the two schedule
    arrays are what [fire] gives when folded over the edges in order,
    whatever the embedding, the metric and the random numbers; in
    particular every edge that was due has had its next-sample epoch moved
    on by exactly its period [epochs_per_sample[i]], once. *)
Theorem schedule_after_an_epoch (p : iparams) (s s' : state1) :
  let k := i_base p in
  _optimize_layout_generic_single_epoch k s = Ok tt s' \/
  _optimize_layout_inverse_single_epoch p s = Ok tt s' ->
  fire_all false (g_n k) (g_epochs_per_sample k) (g_epochs_per_negative_sample k)
    (seq 0 (length (g_epochs_per_sample k))) (sch s) = Some (sch s') /\
  forall i e,
    (i < length (g_epochs_per_sample k))%nat ->
    eons s !! i = Some e -> e ≤ Qc_of_nat (g_n k) ->
    exists d, g_epochs_per_sample k !! i = Some d /\ eons s' !! i = Some (e + d).
Proof.
  intros k Hrun.
  assert (Hfold : fire_all false (g_n k) (g_epochs_per_sample k)
                    (g_epochs_per_negative_sample k)
                    (seq 0 (length (g_epochs_per_sample k))) (sch s) = Some (sch s')).
  { destruct Hrun as [Hrun|Hrun].
    - pose proof (triple_for_each false (g_n k) (g_epochs_per_sample k)
                    (g_epochs_per_negative_sample k) (edge_generic k)
                    (seq 0 (length (g_epochs_per_sample k)))
                    (triple_edge_generic k) (sch s) s eq_refl) as Ht.
      unfold _optimize_layout_generic_single_epoch, for_range in Hrun.
      by rewrite Hrun in Ht.
    - pose proof (triple_for_each false (g_n k) (g_epochs_per_sample k)
                    (g_epochs_per_negative_sample k) (edge_inverse p)
                    (seq 0 (length (g_epochs_per_sample k)))
                    (triple_edge_inverse p) (sch s) s eq_refl) as Ht.
      unfold _optimize_layout_inverse_single_epoch, for_range in Hrun.
      unfold k in Ht. by rewrite Hrun in Ht. }
  split; [exact Hfold|]. intros i e Hi He Hdue.
  apply (fire_all_due _ _ _ _ _ i e _ _ Hfold); [apply NoDup_seq | | done | done].
  apply elem_of_seq. lia.
Qed.

(** X27.  The same for the Euclidean kernels that do not have the stray
    update of the sequential one.  When an epoch of the parallel kernel
    completes, having taken the edges in the order [order], the schedule
    arrays are [fire] folded over [order]; when no edge is taken twice,
    every edge in [order] that was due has moved on by exactly its period.
    The [apply_grad] kernel does the same over the edges in index order. *)
Theorem euclidean_schedule_after_an_epoch (k : kparams) (order : list nat)
    (s s' : state1) :
  _optimize_layout_euclidean_single_epoch_para order k s = Ok tt s' \/
  (order = seq 0 (length (epochs_per_sample k)) /\
   _optimize_layout_euclidean_single_epoch_applygrad k s = Ok tt s') ->
  fire_all true (n k) (epochs_per_sample k) (epochs_per_negative_sample k) order (sch s)
    = Some (sch s') /\
  (NoDup order ->
   forall i e,
     i ∈ order -> eons s !! i = Some e -> e ≤ Qc_of_nat (n k) ->
     exists d, epochs_per_sample k !! i = Some d /\ eons s' !! i = Some (e + d)).
Proof.
  intros Hrun.
  assert (Hfold : fire_all true (n k) (epochs_per_sample k)
                    (epochs_per_negative_sample k) order (sch s) = Some (sch s')).
  { destruct Hrun as [Hrun|[-> Hrun]].
    - unfold _optimize_layout_euclidean_single_epoch_para in Hrun.
      unfold mbind, M_bind, bind in Hrun.
      pose proof (keeps_final (same_on (fun s : state1 => s)) _
                    (keeps_assert_same_embedding _ k) s) as Hs1.
      destruct (assert_same_embedding k s) as [[] s1|e s1]; [|done].
      simpl in Hs1. unfold same_on in Hs1. subst s1.
      pose proof (triple_for_each true (n k) (epochs_per_sample k)
                    (epochs_per_negative_sample k) (edge_para k) order
                    (triple_edge_para k) (sch s) s eq_refl) as Ht.
      by rewrite Hrun in Ht.
    - pose proof (triple_for_each true (n k) (epochs_per_sample k)
                    (epochs_per_negative_sample k) (edge_applygrad k)
                    (seq 0 (length (epochs_per_sample k)))
                    (triple_edge_applygrad k) (sch s) s eq_refl) as Ht.
      unfold _optimize_layout_euclidean_single_epoch_applygrad, for_range in Hrun.
      by rewrite Hrun in Ht. }
  split; [exact Hfold|]. intros Hnd i e Hi He Hdue.
  by apply (fire_all_due _ _ _ _ _ i e _ _ Hfold).
Qed.

End Triples.

Lemma schedule_after_an_epoch_witness :
  let p := mkI (gp true) [1; 1] [1; 1] [1; 1] in
  let k := i_base p in
  let s' := final (_optimize_layout_generic_single_epoch (ext:=demo) k at_epoch1) in
  fire_all false (g_n k) (g_epochs_per_sample k) (g_epochs_per_negative_sample k)
    (seq 0 (length (g_epochs_per_sample k))) (sch at_epoch1) = Some (sch s') /\
  forall i e,
    (i < length (g_epochs_per_sample k))%nat ->
    eons at_epoch1 !! i = Some e -> e ≤ Qc_of_nat (g_n k) ->
    exists d, g_epochs_per_sample k !! i = Some d /\ eons s' !! i = Some (e + d).
Proof.
  intros p k s'.
  apply (schedule_after_an_epoch (ext:=demo) p at_epoch1 s').
  left. reflexivity.
Defined.

Lemma euclidean_schedule_after_an_epoch_witness :
  let k := kp true in
  let s' := final (_optimize_layout_euclidean_single_epoch_para (ext:=demo) [1; 0]%nat k
                     at_epoch1) in
  fire_all true (n k) (epochs_per_sample k) (epochs_per_negative_sample k) [1; 0]%nat
    (sch at_epoch1) = Some (sch s') /\
  (NoDup [1; 0]%nat ->
   forall i e,
     i ∈ [1; 0]%nat -> eons at_epoch1 !! i = Some e -> e ≤ Qc_of_nat (n k) ->
     exists d, epochs_per_sample k !! i = Some d /\ eons s' !! i = Some (e + d)).
Proof.
  intros k s'.
  apply (euclidean_schedule_after_an_epoch (ext:=demo) k [1; 0]%nat at_epoch1 s').
  left. reflexivity.
Defined.

(** * The one-dimensional pin mask *)

Lemma zero_positions_spec (w : list Qc) (base i : nat) :
  i ∈ zero_positions base w <-> (base <= i)%nat /\ w !! (i - base)%nat = Some 0.
Proof.
  revert base. induction w as [|x w IH]; intros base; simpl.
  - split; [by intros ?%elem_of_nil | by intros [_ ?]].
  - assert (Htail : i ∈ zero_positions (S base) w <->
                    (base < i)%nat /\ (x :: w) !! (i - base)%nat = Some 0).
    { rewrite IH. split.
      - intros [Hle Hi]. split; [lia|].
        replace (i - base)%nat with (S (i - S base)) by lia. exact Hi.
      - intros [Hlt Hi]. split; [lia|].
        replace (i - base)%nat with (S (i - S base)) in Hi by lia. exact Hi. }
    unfold feq. case_bool_decide as Hx.
    + rewrite elem_of_cons, Htail. split.
      * intros [->|[Hlt Hi]]; [|split; [lia | done]].
        split; [lia|]. rewrite Nat.sub_diag. simpl. by rewrite Hx.
      * intros [Hle Hi]. destruct (decide (i = base)) as [->|Hne]; [by left|].
        right. split; [lia | done].
    + rewrite Htail. split.
      * intros [Hlt Hi]. split; [lia | done].
      * intros [Hle Hi]. destruct (decide (i = base)) as [->|Hne].
        -- rewrite Nat.sub_diag in Hi. simpl in Hi. by injection Hi.
        -- split; [lia | done].
Qed.

(** X28.  The indices a one-dimensional pin mask pins (the array
    [fixed_pos_idxs] handed to [pinindexed_grad]) are exactly the indices
    whose mask value is [0.0], each of them once. *)
Theorem pin_mask_pins_the_zeros (w : list Qc) (i : nat) :
  (i ∈ zero_positions 0 w <-> w !! i = Some 0) /\
  NoDup (zero_positions 0 w).
Proof.
  split.
  - rewrite zero_positions_spec, Nat.sub_0_r.
    split; [by intros [_ ?] | intros ?; split; [lia | done]].
  - generalize 0%nat. induction w as [|x w IH]; intros base; simpl; [constructor|].
    destruct (feq x 0); [|apply IH].
    constructor; [|apply IH].
    rewrite zero_positions_spec. lia.
Qed.
